(** * Kira perception front-end: segmentation, mute gating, protocol,
      frame differencing, echo coordination, playback and sense lifecycle.

    A shallow embedding of the Python sources under [src/kira] and the
    properties of their specification.  Python integers are [Z], Python
    floats are the binary64 primitive floats of Rocq (so that truncations
    such as [int(len(audio) / SAMPLE_RATE * 1000)] are computed with the
    rounding the interpreter performs), strings are [string], and every
    object with mutable fields is a record that the operations thread
    explicitly.  Callbacks are recorded on an output trace. *)

From Stdlib Require Import ZArith QArith Qabs Lqa Bool String Ascii List Lia.
From Stdlib Require Import Floats.PrimFloat Floats.SpecFloat Floats.FloatOps.
From Stdlib Require Import Numbers.Cyclic.Int63.Uint63.
From stdpp Require Import base option list strings gmap.

Import ListNotations.
#[local] Open Scope Z_scope.

(* ===================================================================== *)
(** ** Python numbers *)
(* ===================================================================== *)

Module PyNum.

(** [float(n)] for an integer below 2^63 in absolute value. *)
Definition float_of_int (n : Z) : float :=
  if n <? 0 then PrimFloat.opp (PrimFloat.of_uint63 (Uint63.of_Z (- n)))
  else PrimFloat.of_uint63 (Uint63.of_Z n).

(** [int(x)]: truncation toward zero of a finite float (Python raises on
    nan and the infinities; those are mapped to 0 and never arise below). *)
Definition int_of_float (x : float) : Z :=
  match Prim2SF x with
  | S754_finite s m e =>
      let v := if 0 <=? e then Z.pos m * 2 ^ e else Z.pos m / 2 ^ (- e) in
      if s then - v else v
  | _ => 0
  end.

(** [a / b] on two integers: true division, a float. *)
Definition truediv (a b : Z) : float :=
  PrimFloat.div (float_of_int a) (float_of_int b).

(** Truthiness of a float: everything but the two zeros. *)
Definition float_truthy (x : float) : bool :=
  negb (PrimFloat.eqb x (float_of_int 0)).

(** [x or y] where [x] is an optional float ([None] and 0.0 are falsy). *)
Definition or_float (x : option float) (y : float) : float :=
  match x with
  | Some t => if float_truthy t then t else y
  | None => y
  end.

End PyNum.

(* ===================================================================== *)
(** ** perception/audio/vad.py *)
(* ===================================================================== *)

Module Vad.
Import PyNum.

Definition SAMPLE_RATE : Z := 16000.
Definition CHUNK_MS : Z := 32.
Definition CHUNK_SAMPLES : Z := int_of_float (truediv (SAMPLE_RATE * CHUNK_MS) 1000).

(** A numpy array of float samples. *)
Definition ndarray : Type := list float.

Definition len {A : Type} (a : list A) : Z := Z.of_nat (List.length a).

Record SpeechSegment : Type := mkSpeechSegment {
  audio : ndarray;
  start_time : float;
  end_time : float;
  duration_ms : Z
}.

(** The fields of a [SileroVAD] object.  [on_speech_segment] tells whether
    a callback is registered; its invocations are returned by the
    operations.  The two callbacks this repository registers,
    [FastWhisperTranscriber._handle_speech] and
    [VADTranscriptionPipeline._handle_speech_segment], catch every
    exception themselves, so an invocation always returns. *)
Record SileroVAD : Type := mkSileroVAD {
  threshold : float;
  min_speech_samples : Z;
  min_silence_samples : Z;
  speech_pad_samples : Z;
  on_speech_segment : bool;
  _speech_buffer : list ndarray;
  _silence_samples : Z;
  _speech_samples : Z;
  _in_speech : bool;
  _speech_start_time : option float
}.

(** [SileroVAD.__init__]. *)
Definition init (threshold : float) (min_speech_ms min_silence_ms speech_pad_ms : Z)
    (on_speech_segment : bool) : SileroVAD :=
  {| threshold := threshold;
     min_speech_samples := int_of_float (truediv (SAMPLE_RATE * min_speech_ms) 1000);
     min_silence_samples := int_of_float (truediv (SAMPLE_RATE * min_silence_ms) 1000);
     speech_pad_samples := int_of_float (truediv (SAMPLE_RATE * speech_pad_ms) 1000);
     on_speech_segment := on_speech_segment;
     _speech_buffer := [];
     _silence_samples := 0;
     _speech_samples := 0;
     _in_speech := false;
     _speech_start_time := None |}.

(** [SileroVAD.reset]. *)
Definition reset (v : SileroVAD) : SileroVAD :=
  {| threshold := threshold v;
     min_speech_samples := min_speech_samples v;
     min_silence_samples := min_silence_samples v;
     speech_pad_samples := speech_pad_samples v;
     on_speech_segment := on_speech_segment v;
     _speech_buffer := [];
     _silence_samples := 0;
     _speech_samples := 0;
     _in_speech := false;
     _speech_start_time := None |}.

(** One call of [process_chunk]: the chunk, the probability the Silero
    model returns for it, and the reading of [time.time()] during the call. *)
Record chunk_call : Type := mkCall {
  audio_chunk : ndarray;
  speech_prob : float;
  now : float
}.

(** [SileroVAD._emit_segment]: the state afterwards and the segments handed
    to the callback (none or one). *)
Definition _emit_segment (now : float) (v : SileroVAD) : SileroVAD * list SpeechSegment :=
  let fired :=
    if (min_speech_samples v <=? _speech_samples v)
       && negb (len (_speech_buffer v) =? 0)
    then
      let audio := List.concat (_speech_buffer v) in
      let segment :=
        {| audio := audio;
           start_time := or_float (_speech_start_time v) now;
           end_time := now;
           duration_ms :=
             int_of_float
               (PrimFloat.mul (truediv (len audio) SAMPLE_RATE) (float_of_int 1000)) |} in
      if on_speech_segment v then [segment] else []
    else [] in
  (reset v, fired).

Definition is_speech (v : SileroVAD) (c : chunk_call) : bool :=
  PrimFloat.leb (threshold v) (speech_prob c).

Definition set_buffers (v : SileroVAD) (buf : list ndarray) (sil sp : Z)
    (insp : bool) (t : option float) : SileroVAD :=
  {| threshold := threshold v;
     min_speech_samples := min_speech_samples v;
     min_silence_samples := min_silence_samples v;
     speech_pad_samples := speech_pad_samples v;
     on_speech_segment := on_speech_segment v;
     _speech_buffer := buf;
     _silence_samples := sil;
     _speech_samples := sp;
     _in_speech := insp;
     _speech_start_time := t |}.

(** [SileroVAD.process_chunk]: the state afterwards, the returned value
    ([None] for a chunk that is too small) and the callback invocations. *)
Definition process_chunk (v : SileroVAD) (c : chunk_call)
    : SileroVAD * option float * list SpeechSegment :=
  if len (audio_chunk c) <? CHUNK_SAMPLES then (v, None, [])
  else if is_speech v c then
    let t := if _in_speech v then _speech_start_time v else Some (now c) in
    let sp := if _in_speech v then _speech_samples v else 0 in
    let v' :=
      set_buffers v (_speech_buffer v ++ [audio_chunk c]) 0
        (sp + len (audio_chunk c)) true t in
    (v', Some (speech_prob c), [])
  else if _in_speech v then
    let v' :=
      set_buffers v (_speech_buffer v ++ [audio_chunk c])
        (_silence_samples v + len (audio_chunk c))
        (_speech_samples v) true (_speech_start_time v) in
    if min_silence_samples v' <=? _silence_samples v' then
      let '(v'', fired) := _emit_segment (now c) v' in
      (v'', Some (speech_prob c), fired)
    else (v', Some (speech_prob c), [])
  else (v, Some (speech_prob c), []).

(** Feeding a sequence of chunks, as the loop [_process_loop] does; the
    segments handed to the callback are collected in order. *)
Fixpoint process_chunks (v : SileroVAD) (cs : list chunk_call)
    : SileroVAD * list SpeechSegment :=
  match cs with
  | [] => (v, [])
  | c :: cs' =>
      let '(v', _, fired) := process_chunk v c in
      let '(v'', rest) := process_chunks v' cs' in
      (v'', fired ++ rest)
  end.

End Vad.

(** The vocabulary in which the segmentation property is stated: runs of
    chunks of a sequence of calls, classified by the detector's threshold. *)
Module VadRuns.
Import Vad.

(** The number of samples of a run of chunks. *)
Definition samples (cs : list chunk_call) : Z :=
  List.fold_right (fun c acc => len (audio_chunk c) + acc) 0 cs.

(** The number of samples of the chunks of a run classified as speech. *)
Definition speech_samples_of (v : SileroVAD) (cs : list chunk_call) : Z :=
  samples (List.filter (is_speech v) cs).

(** A run of chunks all classified as speech, and one all classified as
    silence. *)
Definition all_speech (v : SileroVAD) (cs : list chunk_call) : Prop :=
  Forall (fun c => is_speech v c = true) cs.

Definition silent (v : SileroVAD) (cs : list chunk_call) : Prop :=
  Forall (fun c => is_speech v c = false) cs.

(** The run is not empty and its first chunk is classified as speech. *)
Definition starts_with_speech (v : SileroVAD) (cs : list chunk_call) : Prop :=
  match cs with
  | c :: _ => is_speech v c = true
  | [] => False
  end.

(** The samples of silence at the end of a run, since its last speech
    chunk. *)
Definition trailing_silence (v : SileroVAD) (cs : list chunk_call) : Z :=
  List.fold_left
    (fun acc c => if is_speech v c then 0 else acc + len (audio_chunk c)) cs 0.

(** At every silence chunk of the run the silence accumulated since the
    last speech chunk is below [min_silence_samples]: no pause inside the
    run is long enough to end a segment. *)
Definition pauses_short (v : SileroVAD) (cs : list chunk_call) : Prop :=
  forall p c q,
    cs = p ++ c :: q -> is_speech v c = false ->
    trailing_silence v (p ++ [c]) < min_silence_samples v.

(** The stretch [body ++ si] of the calls ends a segment: [body] begins
    with a speech chunk, has only short pauses, and its speech chunks,
    contiguous or not, amount to [min_speech_samples]; [si] is a run of
    silence of [min_silence_samples] that follows it. *)
Definition ends_segment (v : SileroVAD) (body si : list chunk_call) : Prop :=
  starts_with_speech v body
  /\ pauses_short v body
  /\ min_speech_samples v <= speech_samples_of v body
  /\ si <> []
  /\ silent v si
  /\ min_silence_samples v <= samples si.

(** The calls contain a stretch that ends a segment. *)
Definition qualifies (v : SileroVAD) (cs : list chunk_call) : Prop :=
  exists l1 body si l2, cs = l1 ++ body ++ si ++ l2 /\ ends_segment v body si.

(** The segment [seg] is the audio of such a stretch of the calls. *)
Definition emitted_from (v : SileroVAD) (cs : list chunk_call) (seg : SpeechSegment) : Prop :=
  exists l1 body si l2,
    cs = l1 ++ body ++ si ++ l2
    /\ ends_segment v body si
    /\ audio seg = List.concat (List.map audio_chunk (body ++ si)).

(** The condition as the specification words it: a contiguous run of
    speech of [min_speech_samples] followed by a run of silence of
    [min_silence_samples]. *)
Definition contiguous_speech_then_silence (v : SileroVAD) (cs : list chunk_call) : Prop :=
  exists l1 sp si l2,
    cs = l1 ++ sp ++ si ++ l2
    /\ sp <> [] /\ all_speech v sp /\ min_speech_samples v <= samples sp
    /\ si <> [] /\ silent v si /\ min_silence_samples v <= samples si.

(** Every contiguous run of speech of [cs], continued from a run of [cur]
    samples before it, stays below [bound]. *)
Fixpoint speech_runs_below (v : SileroVAD) (bound cur : Z) (cs : list chunk_call) : bool :=
  match cs with
  | [] => true
  | c :: rest =>
      if is_speech v c then
        (cur + len (audio_chunk c) <? bound)
        && speech_runs_below v bound (cur + len (audio_chunk c)) rest
      else speech_runs_below v bound 0 rest
  end.

(** The states the operations of the class produce: an empty buffer goes
    with the idle state. *)
Definition consistent (v : SileroVAD) : Prop :=
  _speech_buffer v = [] ->
  _in_speech v = false /\ _speech_samples v = 0 /\ _silence_samples v = 0
  /\ _speech_start_time v = None.

(** The segmenter is idle: not in speech, nothing buffered. *)
Definition idle (v : SileroVAD) : Prop :=
  _in_speech v = false /\ _speech_buffer v = [].

(** The settings of [s] are those of [v]. *)
Definition same_config (v s : SileroVAD) : Prop :=
  threshold s = threshold v
  /\ min_speech_samples s = min_speech_samples v
  /\ min_silence_samples s = min_silence_samples v
  /\ on_speech_segment s = on_speech_segment v.

(** The state [s] reached on the calls [hist] follows the calls: while in
    speech, the buffer holds the chunks of the stretch [seg] that began at
    the speech chunk which opened the segment, and the counters are the
    speech and the trailing silence of that stretch. *)
Definition tracks (v : SileroVAD) (hist : list chunk_call) (s : SileroVAD) : Prop :=
  same_config v s
  /\ (_in_speech s = false -> _speech_buffer s = [])
  /\ (_in_speech s = true ->
      exists l1 seg,
        hist = l1 ++ seg
        /\ starts_with_speech v seg
        /\ pauses_short v seg
        /\ _speech_samples s = speech_samples_of v seg
        /\ _silence_samples s = trailing_silence v seg
        /\ _speech_buffer s = List.map audio_chunk seg).

(** Every chunk of the calls has the configured chunk size at least. *)
Definition full_chunks (cs : list chunk_call) : Prop :=
  Forall (fun c => CHUNK_SAMPLES <= len (audio_chunk c)) cs.

End VadRuns.

(* ===================================================================== *)
(** ** Python text: [str.strip], [str.lower], [in], and the [re] patterns *)
(* ===================================================================== *)

(** Text is ASCII text: the character classes and the case mapping below
    are Python's on the ASCII range, on which the model is exact.  A code
    point from 128 on is taken as neither whitespace nor a word character
    and as having no case. *)
Module PyStr.

Definition code (c : ascii) : nat := nat_of_ascii c.

(** [str.isspace] on one character, also the class [\s]. *)
Definition is_space (c : ascii) : bool :=
  ((9 <=? code c) && (code c <=? 13) || (28 <=? code c) && (code c <=? 32))%nat.

Definition is_upper (c : ascii) : bool := ((65 <=? code c) && (code c <=? 90))%nat.
Definition is_lower (c : ascii) : bool := ((97 <=? code c) && (code c <=? 122))%nat.
Definition is_digit (c : ascii) : bool := ((48 <=? code c) && (code c <=? 57))%nat.

(** The class [\w]. *)
Definition is_word (c : ascii) : bool :=
  is_upper c || is_lower c || is_digit c || (code c =? 95)%nat.

Definition lower_char (c : ascii) : ascii :=
  if is_upper c then ascii_of_nat (code c + 32) else c.

Fixpoint drop_space (l : list ascii) : list ascii :=
  match l with
  | c :: l' => if is_space c then drop_space l' else l
  | [] => []
  end.

(** [s.strip()]. *)
Definition strip (s : string) : string :=
  string_of_list_ascii
    (rev (drop_space (rev (drop_space (list_ascii_of_string s))))).

(** [s.lower()]. *)
Definition lower (s : string) : string :=
  string_of_list_ascii (List.map lower_char (list_ascii_of_string s)).

(** [pat in s]. *)
Fixpoint contains (pat s : string) : bool :=
  if String.prefix pat s then true
  else match s with
       | EmptyString => false
       | String _ s' => contains pat s'
       end.

(** [sep.join(parts)]. *)
Fixpoint join (sep : string) (parts : list string) : string :=
  match parts with
  | [] => EmptyString
  | [p] => p
  | p :: rest => String.append p (String.append sep (join sep rest))
  end.

(** [s[:n]]. *)
Definition take_prefix (n : nat) (s : string) : string := String.substring 0 n s.

End PyStr.

(** The fragment of Python's [re] that the hallucination filter uses:
    a backtracking matcher with capture groups and back-references.  The
    matcher returns every way a pattern can match from a position, so
    [search] and [match_] succeed exactly when the backtracking engine
    finds a match. *)
Module Re.
Import PyStr.

Inductive regex : Type :=
| Lit (c : ascii)
| AnyChar                                   (* [.]: anything but a newline *)
| InSet (p : ascii -> bool)                 (* a class such as [\w] or a bracket set *)
| Seq (r1 r2 : regex)
| Group (n : nat) (r : regex)               (* the n-th capturing group *)
| Backref (n : nat)                         (* [\n] *)
| Repeat (lo : nat) (hi : option nat) (r : regex)   (* [r{lo,hi}]; [+] is {1,} *)
| Bol                                       (* [^] *)
| Eol                                       (* [$] *)
| WordBoundary.                             (* [\b] *)

(** A matcher state: the position reached and the groups captured. *)
Definition mstate : Type := (nat * list (nat * list ascii))%type.

Definition char_at (s : list ascii) (i : nat) : option ascii := nth_error s i.

Fixpoint lookup_group (n : nat) (caps : list (nat * list ascii)) : option (list ascii) :=
  match caps with
  | [] => None
  | (k, g) :: caps' => if (k =? n)%nat then Some g else lookup_group n caps'
  end.

Fixpoint is_prefix (g s : list ascii) : bool :=
  match g, s with
  | [], _ => true
  | a :: g', b :: s' => Ascii.eqb a b && is_prefix g' s'
  | _ :: _, [] => false
  end.

Definition word_at (s : list ascii) (i : nat) : bool :=
  match char_at s i with Some c => is_word c | None => false end.

Definition at_word_boundary (s : list ascii) (i : nat) : bool :=
  let before := match i with O => false | S j => word_at s j end in
  negb (Bool.eqb before (word_at s i)).

Definition newline : ascii := ascii_of_nat 10.

(** [$] matches at the end and just before a final newline. *)
Definition at_end (s : list ascii) (i : nat) : bool :=
  (i =? List.length s)%nat
  || ((S i =? List.length s)%nat
      && match char_at s i with Some c => Ascii.eqb c newline | None => false end).

(** [n] mandatory iterations of the matcher [m]. *)
Fixpoint iter_exact (m : mstate -> list mstate) (n : nat) (st : mstate) : list mstate :=
  match n with
  | O => [st]
  | S n' => List.flat_map (iter_exact m n') (m st)
  end.

Definition bound_left (hi : option nat) : bool :=
  match hi with Some O => false | _ => true end.

Definition bound_pred (hi : option nat) : option nat :=
  match hi with Some k => Some (Nat.pred k) | None => None end.

(** Up to [hi] further iterations.  Every iteration must consume input,
    so [fuel] set to the length of the subject plus one never cuts a
    match short. *)
Fixpoint iter_upto (m : mstate -> list mstate) (fuel : nat) (hi : option nat)
    (st : mstate) : list mstate :=
  st ::
  match fuel with
  | O => []
  | S fuel' =>
      if bound_left hi then
        List.flat_map
          (fun st' =>
             if (fst st <? fst st')%nat then iter_upto m fuel' (bound_pred hi) st' else [])
          (m st)
      else []
  end.

Definition hi_minus (hi : option nat) (lo : nat) : option nat :=
  match hi with Some k => Some (k - lo)%nat | None => None end.

Fixpoint match_from (s : list ascii) (r : regex) (st : mstate) {struct r} : list mstate :=
  let '(i, caps) := st in
  match r with
  | Lit c =>
      match char_at s i with
      | Some c' => if Ascii.eqb c c' then [(S i, caps)] else []
      | None => []
      end
  | AnyChar =>
      match char_at s i with
      | Some c' => if Ascii.eqb c' newline then [] else [(S i, caps)]
      | None => []
      end
  | InSet p =>
      match char_at s i with
      | Some c' => if p c' then [(S i, caps)] else []
      | None => []
      end
  | Seq r1 r2 => List.flat_map (match_from s r2) (match_from s r1 st)
  | Group n r1 =>
      List.map
        (fun st' : mstate =>
           (fst st', (n, firstn (fst st' - i) (skipn i s)) :: snd st'))
        (match_from s r1 st)
  | Backref n =>
      match lookup_group n caps with
      | Some g =>
          if is_prefix g (skipn i s) then [((i + List.length g)%nat, caps)] else []
      | None => []
      end
  | Repeat lo hi r1 =>
      List.flat_map
        (iter_upto (match_from s r1) (S (List.length s)) (hi_minus hi lo))
        (iter_exact (match_from s r1) lo st)
  | Bol => if (i =? 0)%nat then [st] else []
  | Eol => if at_end s i then [st] else []
  | WordBoundary => if at_word_boundary s i then [st] else []
  end.

Definition matches_at (r : regex) (s : list ascii) (i : nat) : bool :=
  match match_from s r (i, []) with [] => false | _ :: _ => true end.

(** [re.match(r, s)] is not [None]. *)
Definition match_ (r : regex) (s : string) : bool :=
  matches_at r (list_ascii_of_string s) 0.

(** [re.search(r, s)] is not [None]. *)
Definition search (r : regex) (s : string) : bool :=
  List.existsb (matches_at r (list_ascii_of_string s))
    (List.seq 0 (S (String.length s))).

Definition plus (r : regex) : regex := Repeat 1 None r.
Definition star (r : regex) : regex := Repeat 0 None r.

End Re.

(* ===================================================================== *)
(** ** perception/audio/fast_whisper_service.py *)
(* ===================================================================== *)

Module Whisper.
Import PyNum PyStr Re.

Record TranscriptionResult : Type := mkResult {
  text : string;
  language : string;
  confidence : float;
  duration_ms : Z
}.

Definition HALLUCINATION_PATTERNS : list string :=
  [ "thank you for watching";
    "thanks for watching";
    "please subscribe";
    "like and subscribe";
    "see you next time";
    "bye bye";
    "goodbye";
    "[music]";
    "[applause]";
    "you";
    "the" ]%string.

Definition ch (s : string) : ascii :=
  match s with String c _ => c | EmptyString => Ascii.zero end.

(** The set [[\s\.\,\!\?\-]]. *)
Definition punct_or_space (c : ascii) : bool :=
  is_space c
  || Ascii.eqb c (ch ".") || Ascii.eqb c (ch ",") || Ascii.eqb c (ch "!")
  || Ascii.eqb c (ch "?") || Ascii.eqb c (ch "-").

(** [^[\s\.\,\!\?\-]+$] *)
Definition re_just_punctuation : regex :=
  Seq Bol (Seq (plus (InSet punct_or_space)) Eol).

(** [\b(\w+)(?:\s+\1){2,}\b] *)
Definition re_repeated_word : regex :=
  Seq WordBoundary
    (Seq (Group 1 (plus (InSet is_word)))
       (Seq (Repeat 2 None (Seq (plus (InSet is_space)) (Backref 1)))
          WordBoundary)).

(** [^(\w)(?:\s+\1)+\s*$] *)
Definition re_repeated_char : regex :=
  Seq Bol
    (Seq (Group 1 (InSet is_word))
       (Seq (plus (Seq (plus (InSet is_space)) (Backref 1)))
          (Seq (star (InSet is_space)) Eol))).

(** [(.{1,3})\1{3,}] *)
Definition re_repeated_group : regex :=
  Seq (Group 1 (Repeat 1 (Some 3%nat) AnyChar)) (Repeat 3 None (Backref 1)).

(** [is_hallucination]. *)
Definition is_hallucination (text : string) : bool :=
  let text := lower (strip text) in
  if (String.length text <? 3)%nat then true
  else if match_ re_just_punctuation text then true
  else if List.existsb
            (fun pattern =>
               String.eqb text pattern
               || ((5 <? String.length pattern)%nat && contains pattern text))
            HALLUCINATION_PATTERNS
       then true
  else if search re_repeated_word text then true
  else if match_ re_repeated_char text then true
  else if search re_repeated_group text then true
  else false.

Definition INTERRUPT_KEYWORDS : list string := [ "kira"; "stop"; "wait"; "quiet" ]%string.

(** [FastWhisperTranscriber._is_interrupt]. *)
Definition _is_interrupt (text : string) : bool :=
  let text_lower := lower text in
  List.existsb (fun kw => contains kw text_lower) INTERRUPT_KEYWORDS.

(** A callback returns ([None]) or raises an exception with a message. *)
Definition callback (A : Type) : Type := A -> option string.

(** What [_handle_speech] does to the outside, in order. *)
Inductive effect : Type :=
| CallInterrupt (text : string)
| CallTranscription (r : TranscriptionResult)
| Stderr (msg : string).

(** The result of [model.transcribe] and of reading its segments: the
    texts of the segments and [info.language], or an exception. *)
Inductive transcribed : Type :=
| Transcribed (parts : list string) (info_language : option string)
| TranscribeError (msg : string).

Record FastWhisperTranscriber : Type := mkTranscriber {
  on_transcription : option (callback TranscriptionResult);
  on_interrupt : option (callback string);
  vad : Vad.SileroVAD;
  _running : bool;
  _muted : bool
}.

(** [FastWhisperTranscriber.__init__]. *)
Definition init (vad_threshold : float)
    (on_transcription : option (callback TranscriptionResult))
    (on_interrupt : option (callback string)) : FastWhisperTranscriber :=
  {| on_transcription := on_transcription;
     on_interrupt := on_interrupt;
     vad := Vad.init vad_threshold 250 700 100 true;
     _running := false;
     _muted := false |}.

Definition or_en (l : option string) : string :=
  match l with
  | Some EmptyString | None => "en"%string
  | Some l => l
  end.

(** [FastWhisperTranscriber._handle_speech].  [model] is the transcription
    engine; [t0] and [t1] are the clock readings around its call. *)
Definition _handle_speech (t : FastWhisperTranscriber)
    (model : Vad.ndarray -> transcribed) (t0 t1 : float)
    (segment : Vad.SpeechSegment) : list effect :=
  let is_muted := _muted t in
  match model (Vad.audio segment) with
  | TranscribeError e => [Stderr ("Speech handling error: " +:+ e)]
  | Transcribed text_parts info_language =>
      let text := strip (join " " text_parts) in
      let inference_ms :=
        int_of_float (PrimFloat.mul (PrimFloat.sub t1 t0) (float_of_int 1000)) in
      if String.eqb text EmptyString then []
      else if is_hallucination text then
        [Stderr ("Filtered hallucination: '" +:+ take_prefix 50 text +:+ "'")]
      else
        let is_interrupt := _is_interrupt text in
        let interrupt_effects :=
          match on_interrupt t with
          | Some cb =>
              if is_interrupt then
                CallInterrupt text ::
                match cb text with
                | Some e => [Stderr ("Interrupt callback error: " +:+ e)]
                | None => []
                end
              else []
          | None => []
          end in
        if is_muted then interrupt_effects
        else
          let result :=
            {| text := text;
               language := or_en info_language;
               confidence := float_of_int 1;
               duration_ms := inference_ms |} in
          interrupt_effects ++
          match on_transcription t with
          | Some cb =>
              CallTranscription result ::
              match cb result with
              | Some e => [Stderr ("Transcription callback error: " +:+ e)]
              | None => []
              end
          | None => []
          end
  end.

(** [FastWhisperTranscriber.mute]. *)
Definition mute (t : FastWhisperTranscriber) : FastWhisperTranscriber :=
  {| on_transcription := on_transcription t;
     on_interrupt := on_interrupt t;
     vad := Vad.reset (vad t);
     _running := _running t;
     _muted := true |}.

(** [FastWhisperTranscriber.unmute]. *)
Definition unmute (t : FastWhisperTranscriber) : FastWhisperTranscriber :=
  {| on_transcription := on_transcription t;
     on_interrupt := on_interrupt t;
     vad := Vad.reset (vad t);
     _running := _running t;
     _muted := false |}.

(** One turn of [_process_loop] on a chunk taken from the audio queue:
    the chunk is dropped while muted, otherwise it goes through the VAD,
    whose callback is [_handle_speech]. *)
Definition process_one (model : Vad.ndarray -> transcribed) (t0 t1 : float)
    (t : FastWhisperTranscriber) (c : Vad.chunk_call)
    : FastWhisperTranscriber * list effect :=
  if _muted t then (t, [])
  else
    let '(v', _, fired) := Vad.process_chunk (vad t) c in
    ({| on_transcription := on_transcription t;
        on_interrupt := on_interrupt t;
        vad := v';
        _running := _running t;
        _muted := _muted t |},
     List.flat_map (_handle_speech t model t0 t1) fired).

(** The transcribers that [__init__], [mute], [unmute] and the processing
    loop produce. *)
Inductive reachable : FastWhisperTranscriber -> Prop :=
| reach_init vad_threshold on_transcription on_interrupt :
    reachable (init vad_threshold on_transcription on_interrupt)
| reach_mute t : reachable t -> reachable (mute t)
| reach_unmute t : reachable t -> reachable (unmute t)
| reach_process model t0 t1 t c :
    reachable t -> reachable (fst (process_one model t0 t1 t c)).

End Whisper.


(* ===================================================================== *)
(** ** senses/protocol.py *)
(* ===================================================================== *)

#[local] Set Warnings "-register-all".

Module Protocol.
Import PyStr.

(** The values [json.loads] produces; a JSON object is a [dict] with
    string keys. *)
Inductive json : Type :=
| JNull
| JBool (b : bool)
| JInt (n : Z)
| JFloat (x : float)
| JStr (s : string)
| JList (l : list json)
| JDict (d : gmap string json).

(** The exceptions that occur in the command path. *)
Inductive exn : Type :=
| JSONDecodeError
| KeyError (key : string)
| AttributeError (attr : string)
| TypeError (msg : string)
| HookError (msg : string).

(** A call either returns a value or raises. *)
Inductive outcome (A : Type) : Type :=
| Return (a : A)
| Raise (e : exn).
Arguments Return {A} a.
Arguments Raise {A} e.

Definition PRIORITY_VOICE : Z := 100.
Definition PRIORITY_INTERRUPT : Z := 90.
Definition PRIORITY_SCREEN : Z := 50.
Definition PRIORITY_VISUAL : Z := 30.
Definition PRIORITY_SYSTEM : Z := 10.

Record Command : Type := mkCommand {
  command : json;
  options : json
}.

(** [x == s] for a string literal [s]. *)
Definition eq_str (x : json) (s : string) : bool :=
  match x with JStr s' => String.eqb s' s | _ => false end.

Section Reading.

(** [json.loads], the decoder of the standard library: [None] stands for
    [json.JSONDecodeError]. *)
Variable json_loads : string -> option json.

(** [Command.from_json].  [data.get] exists on a [dict] only: on any other
    decoded value the attribute lookup raises [AttributeError], and the
    [except] clause catches [JSONDecodeError] and [KeyError] (the missing
    key of [data["command"]]) and nothing else. *)
Definition from_json (line : string) : outcome (option Command) :=
  match json_loads line with
  | None => Return None
  | Some (JDict data) =>
      if match data !! "type" with Some ty => eq_str ty "command" | None => false end
         || bool_decide (is_Some (data !! "command"))
      then
        match data !! "command" with
        | Some c =>
            Return
              (Some {| command := c;
                       options := default (JDict ∅) (data !! "options") |})
        | None => Return None
        end
      else Return None
  | Some _ => Raise (AttributeError "get")
  end.

(** [read_commands] on the lines of standard input: the commands it
    yields, in order, and the exception that ends the generator if one
    escapes. *)
Fixpoint read_commands (stdin : list string) : list Command * option exn :=
  match stdin with
  | [] => ([], None)
  | line :: rest =>
      let line := strip line in
      if String.eqb line EmptyString then read_commands rest
      else
        match from_json line with
        | Raise e => ([], Some e)
        | Return None => read_commands rest
        | Return (Some cmd) =>
            let '(cmds, crash) := read_commands rest in
            (cmd :: cmds, crash)
        end
  end.

End Reading.

(** The lines of the examples.  [quoted s] is [s] between double quotes. *)
Definition quoted (s : string) : string :=
  String (ascii_of_nat 34) (s +:+ String (ascii_of_nat 34) EmptyString).

(** The line [{"command": "start"}]. *)
Definition start_line : string :=
  "{" +:+ quoted "command" +:+ ": " +:+ quoted "start" +:+ "}".

(** The line [{"sense": "hearing"}], an object that is not a command. *)
Definition sense_line : string :=
  "{" +:+ quoted "sense" +:+ ": " +:+ quoted "hearing" +:+ "}".

(** What [json.loads] returns on the lines of the examples: the two
    objects above, the array [[1, 2]] and the number [42]; the other lines
    of the examples are not JSON. *)
Definition example_loads (line : string) : option json :=
  if String.eqb line start_line then Some (JDict {[ "command"%string := JStr "start" ]})
  else if String.eqb line sense_line then Some (JDict {[ "sense"%string := JStr "hearing" ]})
  else if String.eqb line "[1, 2]" then Some (JList [JInt 1; JInt 2])
  else if String.eqb line "42" then Some (JInt 42)
  else None.

End Protocol.

(* ===================================================================== *)
(** ** senses/base.py *)
(* ===================================================================== *)

Module Sense.
Import Protocol.

Section BaseSense.

(** The attributes a concrete sense adds to [BaseSense]. *)
Context {S : Type}.

Record sense : Type := mkSense {
  running : bool;
  _config : gmap string json;
  fields : S
}.

(** The methods a subclass overrides: each receives the object and
    returns it, possibly changed, or raises. *)
Variable _start : sense -> outcome sense.
Variable _stop : sense -> outcome sense.
Variable _configure : gmap string json -> sense -> outcome sense.

(** What [_handle_command] does, in order: the log lines and the calls
    of the overridden methods, each with the object it is entered on. *)
Inductive event : Type :=
| LogCommand (c : json)
| LogUnknown (c : json)
| CalledStart (self : sense)
| CalledStop (self : sense)
| CalledConfigure (opts : gmap string json) (self : sense).

Definition set_running (s : sense) (b : bool) : sense :=
  {| running := b; _config := _config s; fields := fields s |}.

(** [BaseSense.configure], called with the options expanded into keyword
    arguments: the expansion needs a mapping
    and no key named [self]; then the options are merged into [_config]
    and [_configure] is called. *)
Definition configure (opts : json) (s : sense) : sense * list event * option exn :=
  match opts with
  | JDict d =>
      if bool_decide (is_Some (d !! "self"%string)) then
        (s, [], Some (TypeError "multiple values for argument 'self'"))
      else
        let s1 := {| running := running s; _config := d ∪ _config s; fields := fields s |} in
        match _configure d s1 with
        | Return s2 => (s2, [CalledConfigure d s1], None)
        | Raise e => (s1, [CalledConfigure d s1], Some e)
        end
  | _ => (s, [], Some (TypeError "argument after ** must be a mapping"))
  end.

(** [BaseSense._handle_command]. *)
Definition _handle_command (cmd : Command) (s : sense) : sense * list event * option exn :=
  if eq_str (command cmd) "start" then
    if negb (running s) then
      let s1 := set_running s true in
      match _start s1 with
      | Return s2 => (s2, [LogCommand (command cmd); CalledStart s1], None)
      | Raise e => (s1, [LogCommand (command cmd); CalledStart s1], Some e)
      end
    else (s, [LogCommand (command cmd)], None)
  else if eq_str (command cmd) "stop" then
    if running s then
      let s1 := set_running s false in
      match _stop s1 with
      | Return s2 => (s2, [LogCommand (command cmd); CalledStop s1], None)
      | Raise e => (s1, [LogCommand (command cmd); CalledStop s1], Some e)
      end
    else (s, [LogCommand (command cmd)], None)
  else if eq_str (command cmd) "configure" then
    let '(s1, evs, err) := configure (options cmd) s in
    (s1, LogCommand (command cmd) :: evs, err)
  else (s, [LogCommand (command cmd); LogUnknown (command cmd)], None).

(** One turn of the command loop of [run], as it is recorded: the object
    before the command, the command, what handling it did, and the object
    afterwards. *)
Record turn : Type := mkTurn {
  before : sense;
  handled : Command;
  events : list event;
  after : sense
}.

(** In a turn, [_start] is entered only if the sense was not running
    before the command and with [running] set; [_stop] only if it was
    running and with [running] cleared; [_configure] never comes with a
    lifecycle call. *)
Definition on_transition (t : turn) : Prop :=
  (forall self, In (CalledStart self) (events t) ->
     running (before t) = false /\ running self = true
     /\ eq_str (command (handled t)) "start" = true)
  /\ (forall self, In (CalledStop self) (events t) ->
        running (before t) = true /\ running self = false
        /\ eq_str (command (handled t)) "stop" = true).

(** The loop [for cmd in read_commands(): ...] of [BaseSense.run]: it
    stops at the end of the commands, at the [break] after a [stop] that
    left the sense not running, or at an exception. *)
Fixpoint command_loop (cmds : list Command) (s : sense) : list turn * sense * option exn :=
  match cmds with
  | [] => ([], s, None)
  | cmd :: rest =>
      let '(s1, evs, err) := _handle_command cmd s in
      let t := {| before := s; handled := cmd; events := evs; after := s1 |} in
      match err with
      | Some e => ([t], s1, Some e)
      | None =>
          if negb (running s1) && eq_str (command cmd) "stop" then ([t], s1, None)
          else
            let '(ts, s2, err2) := command_loop rest s1 in
            (t :: ts, s2, err2)
      end
  end.

End BaseSense.

Arguments sense : clear implicits.
Arguments event : clear implicits.
Arguments turn : clear implicits.

End Sense.

(* ===================================================================== *)
(** ** perception/vlm/frame_diff.py *)
(* ===================================================================== *)

(** The arithmetic of numpy on image arrays is carried out on exact
    rationals: a score is the rational the float computation approximates,
    or [None] for the nan that the mean of an empty array yields.  The
    comparisons of [should_run_vlm] are those of the source; a comparison
    with nan is false. *)
Module FrameDiff.

(** An RGB image of shape (H, W, 3) with uint8 entries. *)
Definition pixel : Type := (Z * Z * Z)%type.
Definition frame : Type := list (list pixel).

Definition score : Type := option Q.

(** [x > t] on floats. *)
Definition gt (x : score) (t : Q) : bool :=
  match x with
  | Some q => negb (Qle_bool q t)
  | None => false
  end.

Record FrameDiffResult : Type := mkResult {
  changed : bool;
  diff_score : score;
  motion_regions : Z
}.

Record FrameDifferencer : Type := mkDiffer {
  change_threshold : Q;
  motion_threshold : Q;
  min_frames_between_vlm : Z;
  downsample_factor : Z;
  _last_frame : option frame;
  _last_vlm_frame : option frame;
  _frames_since_vlm : Z
}.

(** [FrameDifferencer.__init__]. *)
Definition init (change_threshold motion_threshold : Q)
    (min_frames_between_vlm downsample_factor : Z) : FrameDifferencer :=
  {| change_threshold := change_threshold;
     motion_threshold := motion_threshold;
     min_frames_between_vlm := min_frames_between_vlm;
     downsample_factor := downsample_factor;
     _last_frame := None;
     _last_vlm_frame := None;
     _frames_since_vlm := 0 |}.

Definition height (f : frame) : nat := List.length f.
Definition width (f : frame) : nat :=
  match f with row :: _ => List.length row | [] => O end.

Definition sum_Z (l : list Z) : Z := List.fold_right Z.add 0 l.
Definition sum_Q (l : list Q) : Q := List.fold_right Qplus (0 # 1) l.

(** The mean of a block of pixels, channel by channel, cast to uint8. *)
Definition block_mean (block : list pixel) : pixel :=
  let n := Z.of_nat (List.length block) in
  (sum_Z (List.map (fun p => fst (fst p)) block) / n,
   sum_Z (List.map (fun p => snd (fst p)) block) / n,
   sum_Z (List.map snd block) / n).

(** The rows [i*k .. (i+1)*k) and columns [j*k .. (j+1)*k) of an array. *)
Definition block {A : Type} (k i j : nat) (a : list (list A)) : list A :=
  List.flat_map (fun row => firstn k (skipn (j * k) row)) (firstn k (skipn (i * k) a)).

(** [FrameDifferencer._downsample]. *)
Definition _downsample (d : FrameDifferencer) (f : frame) : frame :=
  if downsample_factor d <=? 1 then f
  else
    let k := Z.to_nat (downsample_factor d) in
    let new_h := (height f / k)%nat in
    let new_w := (width f / k)%nat in
    List.map
      (fun i => List.map (fun j => block_mean (block k i j f)) (List.seq 0 new_w))
      (List.seq 0 new_h).

(** [frame.mean(axis=2)]: the grey level of each pixel. *)
Definition gray (f : frame) : list (list Q) :=
  List.map (List.map (fun p : pixel => ((fst (fst p) + snd (fst p) + snd p) # 3))) f.

(** [np.abs(gray1 - gray2)] on two arrays of one shape. *)
Definition abs_diff (g1 g2 : list (list Q)) : list (list Q) :=
  List.map
    (fun rows => List.map (fun ab => Qabs (fst ab - snd ab)%Q) (List.combine (fst rows) (snd rows)))
    (List.combine g1 g2).

(** [a.mean()]: nan on an empty array. *)
Definition mean (a : list Q) : score :=
  match a with
  | [] => None
  | _ => Some (sum_Q a / (Z.of_nat (List.length a) # 1))%Q
  end.

(** [FrameDifferencer._calculate_diff]. *)
Definition _calculate_diff (d : FrameDifferencer) (frame1 frame2 : frame) : FrameDiffResult :=
  let diff := abs_diff (gray frame1) (gray frame2) in
  let diff_score := option_map (fun m => (m / (255 # 1))%Q) (mean (List.concat diff)) in
  {| changed := gt diff_score (change_threshold d);
     diff_score := diff_score;
     motion_regions := 0 |}.

(** [FrameDifferencer._count_motion_regions]. *)
Definition _count_motion_regions (d : FrameDifferencer) (frame1 frame2 : frame) : Z :=
  let diff := abs_diff (gray frame1) (gray frame2) in
  let threshold := (motion_threshold d * (255 # 1))%Q in
  let motion_mask :=
    List.map (List.map (fun x => if negb (Qle_bool x threshold) then 1 # 1 else 0 # 1)) diff in
  let grid_size := 8%nat in
  let cell_h := (List.length motion_mask / grid_size)%nat in
  let cell_w :=
    (match motion_mask with row :: _ => List.length row | [] => O end / grid_size)%nat in
  let cell (i j : nat) : list Q :=
    List.flat_map (fun row => firstn cell_w (skipn (j * cell_w) row))
      (firstn cell_h (skipn (i * cell_h) motion_mask)) in
  sum_Z
    (List.flat_map
       (fun i =>
          List.map (fun j => if gt (mean (cell i j)) (1 # 10) then 1 else 0)
            (List.seq 0 grid_size))
       (List.seq 0 grid_size)).

(** [FrameDifferencer.should_run_vlm]: the object afterwards and the
    returned pair.  [None] is the exception raised when a previous frame
    is recorded without a last analysed frame, a state the methods of the
    class never produce. *)
Definition should_run_vlm (d : FrameDifferencer) (f : frame)
    : option (FrameDifferencer * (bool * FrameDiffResult)) :=
  let frames := _frames_since_vlm d + 1 in
  let small_frame := _downsample d f in
  match _last_frame d with
  | None =>
      Some ({| change_threshold := change_threshold d;
               motion_threshold := motion_threshold d;
               min_frames_between_vlm := min_frames_between_vlm d;
               downsample_factor := downsample_factor d;
               _last_frame := Some small_frame;
               _last_vlm_frame := Some small_frame;
               _frames_since_vlm := 0 |},
            (true, {| changed := true; diff_score := Some (1 # 1); motion_regions := 0 |}))
  | Some last_frame =>
      match _last_vlm_frame d with
      | None => None
      | Some last_vlm_frame =>
          let diff_from_last := _calculate_diff d last_frame small_frame in
          let diff_from_vlm := _calculate_diff d last_vlm_frame small_frame in
          let regions := _count_motion_regions d last_vlm_frame small_frame in
          let result :=
            {| changed := changed diff_from_vlm;
               diff_score := diff_score diff_from_vlm;
               motion_regions := regions |} in
          let should_run := false in
          let should_run :=
            if (min_frames_between_vlm d <=? frames)
               && gt (diff_score diff_from_vlm) (motion_threshold d)
            then true else should_run in
          let should_run :=
            if gt (diff_score diff_from_vlm) (change_threshold d)
            then true else should_run in
          let should_run :=
            if (3 <=? regions) && gt (diff_score diff_from_vlm) (motion_threshold d)
            then true else should_run in
          Some ({| change_threshold := change_threshold d;
                   motion_threshold := motion_threshold d;
                   min_frames_between_vlm := min_frames_between_vlm d;
                   downsample_factor := downsample_factor d;
                   _last_frame := Some small_frame;
                   _last_vlm_frame :=
                     if should_run then Some small_frame else Some last_vlm_frame;
                   _frames_since_vlm := if should_run then 0 else frames |},
                (should_run, result))
      end
  end.

(** [FrameDifferencer.reset]. *)
Definition reset (d : FrameDifferencer) : FrameDifferencer :=
  {| change_threshold := change_threshold d;
     motion_threshold := motion_threshold d;
     min_frames_between_vlm := min_frames_between_vlm d;
     downsample_factor := downsample_factor d;
     _last_frame := None;
     _last_vlm_frame := None;
     _frames_since_vlm := 0 |}.

End FrameDiff.

(* ===================================================================== *)
(** ** perception/audio/echo_cancellation.py *)
(* ===================================================================== *)

(** The manager is shared by its callers and by the timer threads that
    [start_speaking] spawns.  A call of [start_speaking] or of
    [stop_speaking] is a function on the shared object; a timer thread
    advances by the steps of [_interrupt_check_loop], one lock region or
    one notification at a time, interleaved in any order. *)
Module Echo.

Inductive AudioState : Type := LISTENING | SPEAKING | INTERRUPT_CHECK.

#[export] Instance AudioState_eq_dec : EqDecision AudioState.
Proof. solve_decision. Defined.

(** Where a timer thread stands in [_interrupt_check_loop]. *)
Inductive timer_pc : Type :=
| AtWait             (* the loop test and [wait(timeout=interval)] *)
| AtCheckLock        (* about to take the lock and open the check window *)
| AtNotifyCheck      (* about to notify INTERRUPT_CHECK *)
| AtSleep            (* in [time.sleep(interrupt_check_duration)] *)
| AtReturnLock       (* about to take the lock and return to SPEAKING *)
| AtNotifySpeaking   (* about to notify SPEAKING *)
| Finished.

Record EchoCancellationManager : Type := mkManager {
  on_state_change : bool;              (* is a callback registered *)
  _state : AudioState;
  _interrupt_thread : option nat;      (* the thread handle: an index in [threads] *)
  _stop_interrupt_checks : bool;       (* the [threading.Event] *)
  threads : list timer_pc;             (* every timer thread started so far *)
  notified : list AudioState           (* the calls of [on_state_change], in order *)
}.

(** [EchoCancellationManager.__init__]. *)
Definition init (on_state_change : bool) : EchoCancellationManager :=
  {| on_state_change := on_state_change;
     _state := LISTENING;
     _interrupt_thread := None;
     _stop_interrupt_checks := false;
     threads := [];
     notified := [] |}.

(** The property [state]. *)
Definition state (m : EchoCancellationManager) : AudioState := _state m.

(** The property [is_mic_active]. *)
Definition is_mic_active (m : EchoCancellationManager) : bool :=
  match state m with
  | LISTENING | INTERRUPT_CHECK => true
  | SPEAKING => false
  end.

Definition set_state (st : AudioState) (m : EchoCancellationManager) : EchoCancellationManager :=
  {| on_state_change := on_state_change m;
     _state := st;
     _interrupt_thread := _interrupt_thread m;
     _stop_interrupt_checks := _stop_interrupt_checks m;
     threads := threads m;
     notified := notified m |}.

Definition set_pc (i : nat) (pc : timer_pc) (m : EchoCancellationManager) : EchoCancellationManager :=
  {| on_state_change := on_state_change m;
     _state := _state m;
     _interrupt_thread := _interrupt_thread m;
     _stop_interrupt_checks := _stop_interrupt_checks m;
     threads := <[i := pc]> (threads m);
     notified := notified m |}.

(** [_notify_state_change]: an exception of the callback is caught. *)
Definition _notify_state_change (st : AudioState) (m : EchoCancellationManager)
    : EchoCancellationManager :=
  {| on_state_change := on_state_change m;
     _state := _state m;
     _interrupt_thread := _interrupt_thread m;
     _stop_interrupt_checks := _stop_interrupt_checks m;
     threads := threads m;
     notified := if on_state_change m then notified m ++ [st] else notified m |}.

(** [start_speaking]. *)
Definition start_speaking (m : EchoCancellationManager) : EchoCancellationManager :=
  if decide (_state m = SPEAKING) then m
  else
    let m1 := _notify_state_change SPEAKING (set_state SPEAKING m) in
    {| on_state_change := on_state_change m1;
       _state := _state m1;
       _interrupt_thread := Some (List.length (threads m1));
       _stop_interrupt_checks := false;
       threads := threads m1 ++ [AtWait];
       notified := notified m1 |}.

(** One step of the timer thread [i]; [None] when there is no such thread
    or it has finished. *)
Definition timer_step (i : nat) (m : EchoCancellationManager) : option EchoCancellationManager :=
  match threads m !! i with
  | None | Some Finished => None
  | Some AtWait =>
      if _stop_interrupt_checks m then Some (set_pc i Finished m)
      else Some (set_pc i AtCheckLock m)
  | Some AtCheckLock =>
      if decide (_state m = SPEAKING)
      then Some (set_pc i AtNotifyCheck (set_state INTERRUPT_CHECK m))
      else Some (set_pc i Finished m)
  | Some AtNotifyCheck => Some (set_pc i AtSleep (_notify_state_change INTERRUPT_CHECK m))
  | Some AtSleep => Some (set_pc i AtReturnLock m)
  | Some AtReturnLock =>
      if decide (_state m = INTERRUPT_CHECK)
      then Some (set_pc i AtNotifySpeaking (set_state SPEAKING m))
      else Some (set_pc i AtNotifySpeaking m)
  | Some AtNotifySpeaking => Some (set_pc i AtWait (_notify_state_change SPEAKING m))
  end.

(** The timer steps of a schedule, in order; a thread that cannot move is
    passed over. *)
Fixpoint run_timers (sched : list nat) (m : EchoCancellationManager) : EchoCancellationManager :=
  match sched with
  | [] => m
  | i :: sched' => run_timers sched' (default m (timer_step i m))
  end.

(** [stop_speaking].  [during_join] lists the timer steps that take place
    while the caller waits in [join(timeout=1)], whether or not the joined
    thread finishes within the timeout. *)
Definition stop_speaking (during_join : list nat) (m : EchoCancellationManager)
    : EchoCancellationManager :=
  let m1 :=
    {| on_state_change := on_state_change m;
       _state := _state m;
       _interrupt_thread := _interrupt_thread m;
       _stop_interrupt_checks := true;
       threads := threads m;
       notified := notified m |} in
  let m2 :=
    match _interrupt_thread m1 with
    | Some _ =>
        let m' := run_timers during_join m1 in
        {| on_state_change := on_state_change m';
           _state := _state m';
           _interrupt_thread := None;
           _stop_interrupt_checks := _stop_interrupt_checks m';
           threads := threads m';
           notified := notified m' |}
    | None => m1
    end in
  _notify_state_change LISTENING (set_state LISTENING m2).

End Echo.

(* ===================================================================== *)
(** ** perception/tts/piper_service.py *)
(* ===================================================================== *)

(** The playback controller is shared by the thread that calls [speak]
    and [interrupt] and by the background thread that runs
    [_playback_loop].  A non-blocking [speak] and an [interrupt] are each
    one step of the caller; the background thread advances statement by
    statement, the regions under [_playback_lock] being single steps; an
    [afplay] process ends by itself in a step of its own. *)
Module Piper.

(** An [afplay] process: [poll()] is [None] while it runs. *)
Inductive process : Type := Running | Exited.

(** Where the background thread stands in [_playback_loop]. *)
Inductive playback_pc : Type :=
| AtGet                          (* in [_audio_queue.get(timeout=1.0)] *)
| AtLoopCheck (path : string)    (* at [if not self._interrupted] *)
| AtPlayCheck (path : string)    (* in [_play_audio], at [if self._interrupted] *)
| AtPopen (path : string)        (* about to take the lock and start [afplay] *)
| AtProcessWait (path : string)  (* in [self._playback_process.wait()] *)
| AtClear (path : string)        (* the [finally] clause *)
| AtUnlink (path : string).      (* at [os.unlink(audio_path)] *)

(** What can be observed from outside. *)
Inductive observation : Type :=
| SpeakReturned (path : option string)
| InterruptReturned
| PlaybackStarted (path : string)
| ProcessStopped (p : nat)
| FileRemoved (path : string).

Record PiperTTS : Type := mkPiper {
  _audio_queue : list string;
  _playback_thread : option playback_pc;   (* [None] before the thread is started *)
  _playback_process : option nat;          (* the handle: an index in [processes] *)
  _interrupted : bool;
  processes : list process;
  observed : list observation
}.

(** [PiperTTS.__init__]. *)
Definition init : PiperTTS :=
  {| _audio_queue := [];
     _playback_thread := None;
     _playback_process := None;
     _interrupted := false;
     processes := [];
     observed := [] |}.

(** [self._playback_process and self._playback_process.poll() is None] *)
Definition process_running (t : PiperTTS) : bool :=
  match _playback_process t with
  | Some p => match processes t !! p with Some Running => true | _ => false end
  | None => false
  end.

(** [PiperTTS.is_speaking]. *)
Definition is_speaking (t : PiperTTS) : bool :=
  if process_running t then true
  else negb (Nat.eqb (List.length (_audio_queue t)) 0).

(** [speak(text, blocking=False)].  [synthesized] is the file the audio of
    the engine is saved in, or [None] when the engine produced no audio. *)
Definition speak_nonblocking (text : string) (synthesized : option string) (t : PiperTTS)
    : PiperTTS :=
  if String.eqb (PyStr.strip text) EmptyString then
    {| _audio_queue := _audio_queue t;
       _playback_thread := _playback_thread t;
       _playback_process := _playback_process t;
       _interrupted := _interrupted t;
       processes := processes t;
       observed := observed t ++ [SpeakReturned None] |}
  else
    match synthesized with
    | None =>
        {| _audio_queue := _audio_queue t;
           _playback_thread := _playback_thread t;
           _playback_process := _playback_process t;
           _interrupted := false;
           processes := processes t;
           observed := observed t ++ [SpeakReturned None] |}
    | Some audio_path =>
        {| _audio_queue := _audio_queue t ++ [audio_path];
           _playback_thread :=
             match _playback_thread t with
             | None => Some AtGet
             | Some pc => Some pc
             end;
           _playback_process := _playback_process t;
           _interrupted := false;
           processes := processes t;
           observed := observed t ++ [SpeakReturned (Some audio_path)] |}
    end.

(** [PiperTTS.interrupt]: the flag is set, a running process is terminated
    (and killed if it outlives the half second), the queue is emptied. *)
Definition interrupt (t : PiperTTS) : PiperTTS :=
  let stopped :=
    match _playback_process t with
    | Some p => if process_running t then Some p else None
    | None => None
    end in
  {| _audio_queue := [];
     _playback_thread := _playback_thread t;
     _playback_process := _playback_process t;
     _interrupted := true;
     processes :=
       match stopped with
       | Some p => <[p := Exited]> (processes t)
       | None => processes t
       end;
     observed :=
       observed t
       ++ match stopped with Some p => [ProcessStopped p] | None => [] end
       ++ [InterruptReturned] |}.

Definition with_thread (pc : playback_pc) (t : PiperTTS) : PiperTTS :=
  {| _audio_queue := _audio_queue t;
     _playback_thread := Some pc;
     _playback_process := _playback_process t;
     _interrupted := _interrupted t;
     processes := processes t;
     observed := observed t |}.

(** One step of the background thread through [_playback_loop] and
    [_play_audio]; [None] when it is not started or is blocked. *)
Definition playback_step (t : PiperTTS) : option PiperTTS :=
  match _playback_thread t with
  | None => None
  | Some AtGet =>
      match _audio_queue t with
      | [] => None
      | audio_path :: rest =>
          Some {| _audio_queue := rest;
                  _playback_thread := Some (AtLoopCheck audio_path);
                  _playback_process := _playback_process t;
                  _interrupted := _interrupted t;
                  processes := processes t;
                  observed := observed t |}
      end
  | Some (AtLoopCheck path) =>
      if negb (_interrupted t) then Some (with_thread (AtPlayCheck path) t)
      else Some (with_thread (AtUnlink path) t)
  | Some (AtPlayCheck path) =>
      if _interrupted t then Some (with_thread (AtUnlink path) t)
      else Some (with_thread (AtPopen path) t)
  | Some (AtPopen path) =>
      Some {| _audio_queue := _audio_queue t;
              _playback_thread := Some (AtProcessWait path);
              _playback_process := Some (List.length (processes t));
              _interrupted := _interrupted t;
              processes := processes t ++ [Running];
              observed := observed t ++ [PlaybackStarted path] |}
  | Some (AtProcessWait path) =>
      if process_running t then None else Some (with_thread (AtClear path) t)
  | Some (AtClear path) =>
      Some {| _audio_queue := _audio_queue t;
              _playback_thread := Some (AtUnlink path);
              _playback_process := None;
              _interrupted := _interrupted t;
              processes := processes t;
              observed := observed t |}
  | Some (AtUnlink path) =>
      Some {| _audio_queue := _audio_queue t;
              _playback_thread := Some AtGet;
              _playback_process := _playback_process t;
              _interrupted := _interrupted t;
              processes := processes t;
              observed := observed t ++ [FileRemoved path] |}
  end.

(** The process [p] plays its file to the end. *)
Definition process_exit (p : nat) (t : PiperTTS) : option PiperTTS :=
  match processes t !! p with
  | Some Running =>
      Some {| _audio_queue := _audio_queue t;
              _playback_thread := _playback_thread t;
              _playback_process := _playback_process t;
              _interrupted := _interrupted t;
              processes := <[p := Exited]> (processes t);
              observed := observed t |}
  | _ => None
  end.

(** The moves of an execution. *)
Inductive move : Type :=
| Speak (text : string) (synthesized : option string)
| Interrupt
| Playback
| ProcessExit (p : nat).

Definition step (mv : move) (t : PiperTTS) : option PiperTTS :=
  match mv with
  | Speak text synthesized => Some (speak_nonblocking text synthesized t)
  | Interrupt => Some (interrupt t)
  | Playback => playback_step t
  | ProcessExit p => process_exit p t
  end.

(** An execution: [None] when a move is not possible where it stands. *)
Fixpoint run (mvs : list move) (t : PiperTTS) : option PiperTTS :=
  match mvs with
  | [] => Some t
  | mv :: mvs' =>
      match step mv t with
      | Some t' => run mvs' t'
      | None => None
      end
  end.

End Piper.

(* ===================================================================== *)
(** ** The inputs of the examples *)
(* ===================================================================== *)

Module Scenarios.
Import PyNum.

(** A chunk of 512 samples (32 ms) with the score the detector gives it,
    [num]/4, and the time of the call. *)
Definition chunk (num : Z) (time : Z) : Vad.chunk_call :=
  {| Vad.audio_chunk := List.repeat (float_of_int 0) 512;
     Vad.speech_prob := truediv num 4;
     Vad.now := float_of_int time |}.

Definition speech_chunk : Vad.chunk_call := chunk 3 1.
Definition silence_chunk : Vad.chunk_call := chunk 1 2.

(** The detector of a [FastWhisperTranscriber] with the default threshold
    0.5: [min_speech_ms=250], [min_silence_ms=700]. *)
Definition listener_vad : Vad.SileroVAD :=
  Whisper.vad (Whisper.init (truediv 1 2) None None).

(** Speech with a pause of one chunk in the middle: 128 ms of speech, 32 ms
    of silence, 128 ms of speech, then 704 ms of silence. *)
Definition interrupted_speech : list Vad.chunk_call :=
  List.repeat speech_chunk 4 ++ [silence_chunk] ++ List.repeat speech_chunk 4
  ++ List.repeat silence_chunk 22.

(** A segment of one second, as the test suite builds it (without its
    samples, which only the transcription engine reads). *)
Definition silent_segment : Vad.SpeechSegment :=
  {| Vad.audio := []; Vad.start_time := float_of_int 1;
     Vad.end_time := float_of_int 2; Vad.duration_ms := 1000 |}.

(** A muted transcriber with an interrupt callback that returns. *)
Definition muted_listener : Whisper.FastWhisperTranscriber :=
  Whisper.mute (Whisper.init (truediv 1 2) None (Some (fun _ => None))).

(** A sense without attributes of its own, not running. *)
Definition idle_sense : Sense.sense unit :=
  {| Sense.running := false; Sense._config := ∅; Sense.fields := tt |}.

(** The command [name] without options. *)
Definition cmd (name : string) : Protocol.Command :=
  {| Protocol.command := Protocol.JStr name; Protocol.options := Protocol.JDict ∅ |}.

(** A uniform grey image of 32 by 32 pixels. *)
Definition flat_frame (v : Z) : FrameDiff.frame :=
  List.repeat (List.repeat (v, v, v) 32) 32.

(** The differencer with its default settings after a first dark frame. *)
Definition after_first_frame : FrameDiff.FrameDifferencer :=
  match FrameDiff.should_run_vlm (FrameDiff.init (5 # 100) (2 # 100) 5 4) (flat_frame 10) with
  | Some (d, _) => d
  | None => FrameDiff.init (5 # 100) (2 # 100) 5 4
  end.

End Scenarios.

(* ===================================================================== *)
(** ** The states of the segmenter and the loop of the transcriber *)
(* ===================================================================== *)

Module VadStates.
Import Vad.

(** The states that [__init__], [reset] and [process_chunk] produce. *)
Inductive reachable : SileroVAD -> Prop :=
| reach_init th min_speech_ms min_silence_ms speech_pad_ms cb :
    reachable (init th min_speech_ms min_silence_ms speech_pad_ms cb)
| reach_reset v : reachable v -> reachable (reset v)
| reach_chunk v c : reachable v -> reachable (fst (fst (process_chunk v c))).



(** The calls whose chunk has the configured size at least. *)
Definition full (c : chunk_call) : bool := CHUNK_SAMPLES <=? len (audio_chunk c).

End VadStates.

Module WhisperLoop.
Import Whisper.

(** The turns of [_process_loop] on the chunks taken from the audio queue,
    in order, with the effects of the segments handled on the way. *)
Fixpoint process_all (model : Vad.ndarray -> transcribed) (t0 t1 : float)
    (t : FastWhisperTranscriber) (cs : list Vad.chunk_call)
    : FastWhisperTranscriber * list effect :=
  match cs with
  | [] => (t, [])
  | c :: cs' =>
      let '(t', effs) := process_one model t0 t1 t c in
      let '(t'', rest) := process_all model t0 t1 t' cs' in
      (t'', effs ++ rest)
  end.

(** The calls of the two callbacks among the effects. *)
Definition is_callback (e : effect) : bool :=
  match e with
  | CallInterrupt _ | CallTranscription _ => true
  | Stderr _ => false
  end.

End WhisperLoop.

(* ===================================================================== *)
(** ** senses/protocol.py: the messages of a sense *)
(* ===================================================================== *)

Module Messages.
Import Protocol.

Record Signal : Type := mkSignal {
  sense : string;
  content : string;
  priority : Z;
  metadata : gmap string json;
  timestamp : float
}.

Record Status : Type := mkStatus {
  status_sense : string;
  status : string;
  message : string;
  status_timestamp : float
}.

(** [asdict(self)] of a [Signal]. *)
Definition signal_asdict (s : Signal) : gmap string json :=
  <["sense"%string := JStr (sense s)]>
    (<["content"%string := JStr (content s)]>
       (<["priority"%string := JInt (priority s)]>
          (<["metadata"%string := JDict (metadata s)]>
             (<["timestamp"%string := JFloat (timestamp s)]> ∅)))).

(** [asdict(self)] of a [Status]. *)
Definition status_asdict (s : Status) : gmap string json :=
  <["sense"%string := JStr (status_sense s)]>
    (<["status"%string := JStr (status s)]>
       (<["message"%string := JStr (message s)]>
          (<["timestamp"%string := JFloat (status_timestamp s)]> ∅))).

(** The object that [Signal.to_json] serialises: the key [type] and then
    the fields, a later key replacing an earlier one of the same name. *)
Definition signal_object (s : Signal) : gmap string json :=
  signal_asdict s ∪ {[ "type"%string := JStr "signal" ]}.

(** The object that [Status.to_json] serialises. *)
Definition status_object (s : Status) : gmap string json :=
  status_asdict s ∪ {[ "type"%string := JStr "status" ]}.

End Messages.

(* ===================================================================== *)
(** ** senses/base.py: [BaseSense.run] *)
(* ===================================================================== *)

Module SenseRun.
Import Protocol Sense.

Section Run.

Context {S : Type}.
Variable json_loads : string -> option json.
Variable _initialize : sense S -> outcome (sense S).
Variable _start : sense S -> outcome (sense S).
Variable _stop : sense S -> outcome (sense S).
Variable _configure : gmap string json -> sense S -> outcome (sense S).
Variable _cleanup : sense S -> outcome (sense S).

(** The status messages that [run] writes to standard output. *)
Inductive emitted : Type :=
| EmitReady
| EmitError (e : exn)
| EmitStopped.

(** The loop was left by the [break]: its last turn handled a [stop] that
    left the sense not running. *)
Definition left_by_break (turns : list (turn S)) : bool :=
  match List.last (List.map Some turns) None with
  | Some t => negb (running (after t)) && eq_str (command (handled t)) "stop"
  | None => false
  end.

(** The [finally] clause: [_cleanup], then the status [stopped]; an
    exception of [_cleanup] replaces the one in flight. *)
Definition finish (out : list emitted) (turns : list (turn S)) (s : sense S)
    (raised : option exn) : list emitted * list (turn S) * sense S * option exn :=
  match _cleanup s with
  | Return s' => (out ++ [EmitStopped], turns, s', raised)
  | Raise e => (out, turns, s, Some e)
  end.

(** [BaseSense.run] on the lines of standard input: the status messages
    written, the turns of the command loop, the object at the end and the
    exception that leaves [run], if any.  The generator [read_commands]
    is resumed only while the loop goes on, so the exception of a bad line
    is met only if no handler raised and no [stop] ended the loop before. *)
Definition run (stdin : list string) (s : sense S)
    : list emitted * list (turn S) * sense S * option exn :=
  match _initialize s with
  | Raise e => finish [EmitError e] [] s (Some e)
  | Return s0 =>
      let '(cmds, crash) := read_commands json_loads stdin in
      let '(turns, s1, err) := command_loop _start _stop _configure cmds s0 in
      let raised :=
        match err with
        | Some e => Some e
        | None => if left_by_break turns then None else crash
        end in
      finish (EmitReady :: match raised with Some e => [EmitError e] | None => [] end)
        turns s1 raised
  end.

End Run.

Arguments emitted : clear implicits.

End SenseRun.

(* ===================================================================== *)
(** ** Sequences of calls on the frame differencer *)
(* ===================================================================== *)

Module FrameOps.
Import FrameDiff.

(** A call on the differencer. *)
Inductive op : Type :=
| Submit (f : frame)      (* [should_run_vlm(f)] *)
| Reset.                  (* [reset()] *)

(** The calls of a sequence, in order; [None] when one of them raises. *)
Fixpoint run_ops (ops : list op) (d : FrameDifferencer) : option FrameDifferencer :=
  match ops with
  | [] => Some d
  | Submit f :: ops' =>
      match should_run_vlm d f with
      | Some (d', _) => run_ops ops' d'
      | None => None
      end
  | Reset :: ops' => run_ops ops' (reset d)
  end.

(** The decisions of [should_run_vlm] on the frames of a list, in order,
    and the differencer afterwards. *)
Fixpoint submit_all (fs : list frame) (d : FrameDifferencer)
    : option (list bool * FrameDifferencer) :=
  match fs with
  | [] => Some ([], d)
  | f :: fs' =>
      match should_run_vlm d f with
      | Some (d', (run, _)) =>
          match submit_all fs' d' with
          | Some (runs, d'') => Some (run :: runs, d'')
          | None => None
          end
      | None => None
      end
  end.

(** Every entry of the image is a uint8. *)
Definition uint8_pixel (p : pixel) : Prop :=
  0 <= fst (fst p) <= 255 /\ 0 <= snd (fst p) <= 255 /\ 0 <= snd p <= 255.

Definition uint8_frame (f : frame) : Prop := Forall (Forall uint8_pixel) f.


(** The two baselines are recorded together and the counter of frames is
    not negative. *)
Definition well_formed (d : FrameDifferencer) : Prop :=
  (_last_frame d = None <-> _last_vlm_frame d = None) /\ 0 <= _frames_since_vlm d.

End FrameOps.

(* ===================================================================== *)
(** ** Executions of the playback controller *)
(* ===================================================================== *)

Module PiperRuns.
Import Piper.

(** The moves of the background thread and of the [afplay] processes. *)
Definition background (mv : move) : bool :=
  match mv with
  | Playback | ProcessExit _ => true
  | Speak _ _ | Interrupt => false
  end.

Definition is_start (o : observation) : bool :=
  match o with PlaybackStarted _ => true | _ => false end.

(** The number of times [afplay] has been started. *)
Definition starts (t : PiperTTS) : nat :=
  List.length (List.filter is_start (observed t)).

Definition is_running (p : process) : bool :=
  match p with Running => true | Exited => false end.

(** The number of [afplay] processes that run. *)
Definition running_processes (t : PiperTTS) : nat :=
  List.length (List.filter is_running (processes t)).

(** The background thread stands right before the start of [afplay],
    past both tests of the interrupted flag. *)
Definition about_to_play (t : PiperTTS) : bool :=
  match _playback_thread t with
  | Some (AtPopen _) => true
  | _ => false
  end.

(** After an interrupt that has taken effect: the flag is set, the queue
    is empty, no process of the handle runs and the background thread is
    not about to start one. *)
Definition silenced (t : PiperTTS) : Prop :=
  _interrupted t = true
  /\ _audio_queue t = []
  /\ about_to_play t = false
  /\ process_running t = false.

(** Only the process of the handle runs, and only while the background
    thread waits for it. *)
Definition handle_runs_alone (t : PiperTTS) : Prop :=
  forall p, processes t !! p = Some Running ->
    _playback_process t = Some p
    /\ exists path, _playback_thread t = Some (AtProcessWait path).

(** The background thread has read the file of a first [speak] from the
    queue and stands at the test of the flag in [_play_audio]. *)
Definition before_play_check : PiperTTS :=
  default init (run [Speak "hello" (Some "hello.wav"); Playback; Playback] init).

(** The moves in which the background thread plays one file to its end
    and removes it; [p] is the process that plays it. *)
Definition play_one (p : nat) : list move :=
  [Playback; Playback; Playback; Playback; ProcessExit p; Playback; Playback; Playback].

(** The background thread plays [n] files one after the other; the first
    process is [p]. *)
Definition play_all (p n : nat) : list move :=
  List.concat (List.map play_one (List.seq p n)).

(** Non-blocking calls of [speak], each with its text and the file its
    audio is saved in. *)
Definition speak_all (items : list (string * string)) : list move :=
  List.map (fun item => Speak (fst item) (Some (snd item))) items.

(** What is observed when the files are played in order. *)
Definition played (paths : list string) : list observation :=
  List.concat (List.map (fun path => [PlaybackStarted path; FileRemoved path]) paths).

End PiperRuns.

(* ===================================================================== *)
(** ** Executions of the echo coordinator *)
(* ===================================================================== *)

Module EchoRuns.
Import Echo.

(** A bound on the steps that a timer thread still takes once the stop
    event is set. *)
Definition steps_left (pc : timer_pc) : nat :=
  match pc with
  | Finished => 0
  | AtWait => 1
  | AtNotifySpeaking => 2
  | AtReturnLock => 3
  | AtSleep => 4
  | AtNotifyCheck => 5
  | AtCheckLock => 6
  end.

(** The steps of one turn of the loop of the timer thread [i]. *)
Definition one_turn (i : nat) : list nat := List.repeat i 6.

(** The notifications of [k] check windows. *)
Definition check_windows (k : nat) : list AudioState :=
  List.concat (List.repeat [INTERRUPT_CHECK; SPEAKING] k).

(** Where the timer thread [i] of a manager that speaks stands between
    two turns of its loop. *)
Definition between_turns (i : nat) (m : EchoCancellationManager) : Prop :=
  threads m !! i = Some AtWait
  /\ _stop_interrupt_checks m = false
  /\ _state m = SPEAKING
  /\ on_state_change m = true.

End EchoRuns.

(* ===================================================================== *)
(** ** perception/kira_perception.py: interrupting speech *)
(* ===================================================================== *)

Module Kira.

(** The events that [_emit_event] puts on the event queue. *)
Inductive event : Type :=
| AudioStateEvent (state : Echo.AudioState)     (* type [audio_state] *)
| SpeechInterrupted.                            (* type [speech_interrupted] *)

(** The parts of a [KiraPerception] that take part in speech output; each
    is [None] until it is created.  The playback controller is the Piper
    one, the default. *)
Record KiraPerception : Type := mkKira {
  _tts : option Piper.PiperTTS;
  _echo_manager : option Echo.EchoCancellationManager;
  _interruptable_transcriber : option Whisper.FastWhisperTranscriber;
  _event_queue : list event
}.

(** [KiraPerception.interrupt_speech].  The callback of the manager is
    [_on_audio_state_change], which puts an [audio_state] event on the
    queue at each notification; [during_join] lists the timer steps that
    take place while [stop_speaking] waits for the timer thread. *)
Definition interrupt_speech (during_join : list nat) (k : KiraPerception) : KiraPerception :=
  let tts := option_map Piper.interrupt (_tts k) in
  let echo := option_map (Echo.stop_speaking during_join) (_echo_manager k) in
  let notified_before :=
    match _echo_manager k with Some m => List.length (Echo.notified m) | None => O end in
  let notifications :=
    match echo with Some m => List.skipn notified_before (Echo.notified m) | None => [] end in
  {| _tts := tts;
     _echo_manager := echo;
     _interruptable_transcriber := option_map Whisper.unmute (_interruptable_transcriber k);
     _event_queue :=
       _event_queue k ++ List.map AudioStateEvent notifications ++ [SpeechInterrupted] |}.

End Kira.

(* ===================================================================== *)
(** ** More inputs of the examples *)
(* ===================================================================== *)

Module MoreScenarios.
Import PyNum.

(** A transcriber that is not muted, with a transcription callback that
    returns and an interrupt callback that raises. *)
Definition attentive_listener : Whisper.FastWhisperTranscriber :=
  Whisper.init (truediv 1 2) (Some (fun _ => None)) (Some (fun _ => Some "boom"%string)).

(** The characters at both ends of a text are not whitespace. *)
Definition ends_nonspace (m : list ascii) : bool :=
  match m with c :: _ => negb (PyStr.is_space c) | [] => false end
  && match List.rev m with d :: _ => negb (PyStr.is_space d) | [] => false end.

(** A front-end in the middle of an utterance: the playback thread holds
    the file of the utterance, the manager is in a check window, the
    transcriber is muted. *)
Definition speaking_front_end : Kira.KiraPerception :=
  {| Kira._tts := Some PiperRuns.before_play_check;
     Kira._echo_manager :=
       Some (Echo.run_timers [0; 0; 0]%nat (Echo.start_speaking (Echo.init true)));
     Kira._interruptable_transcriber := Some Scenarios.muted_listener;
     Kira._event_queue :=
       [Kira.AudioStateEvent Echo.SPEAKING; Kira.AudioStateEvent Echo.INTERRUPT_CHECK] |}.

End MoreScenarios.

(* ===================================================================== *)
(** * Properties *)
(* ===================================================================== *)

(** ** The hallucination filter and the per-segment handling *)

Module WhisperFacts.
Import PyStr Whisper Scenarios.
#[local] Open Scope string_scope.

(** C8.  The filter flags "the the the" (a word three times in a row) and
    the whitespace-only "   ", it does not flag "Kira, what's the
    weather?", and the interrupt check accepts that sentence because its
    lower-case form contains the keyword "kira". *)
Theorem hallucination_filter_examples :
  is_hallucination "the the the" = true
  /\ is_hallucination "   " = true
  /\ is_hallucination "Kira, what's the weather?" = false
  /\ _is_interrupt "Kira, what's the weather?" = true
  /\ contains "kira" (lower "Kira, what's the weather?") = true.
Proof. vm_compute. repeat split; reflexivity. Qed.





End WhisperFacts.

(** ** The command protocol *)

Module ProtocolFacts.
Import PyStr Protocol.
#[local] Open Scope string_scope.


(** An object without the key [command] is dropped, whatever its [type]. *)
Lemma from_json_object_without_command (loads : string -> option json) (line : string)
    (data : gmap string json) :
  loads line = Some (JDict data) -> data !! "command" = None ->
  from_json loads line = Return None.
Proof.
  intros H Hc. unfold from_json. rewrite H, Hc.
  destruct (_ || _); reflexivity.
Qed.


(** C3 at the line [[1, 2]]: it is valid JSON and not a command, and it is
    not dropped: [from_json] raises [AttributeError], which ends
    [read_commands] before the following lines are read.  Lines that are
    not JSON and objects that are not commands are dropped. *)
Theorem read_commands_crashes_on_array :
  example_loads "[1, 2]" = Some (JList [JInt 1; JInt 2])
  /\ from_json example_loads "[1, 2]" = Raise (AttributeError "get")
  /\ from_json example_loads "42" = Raise (AttributeError "get")
  /\ from_json example_loads "not json" = Return None
  /\ from_json example_loads sense_line = Return None
  /\ read_commands example_loads
       [start_line; "not json"; sense_line; ""; "  [1, 2]  "; start_line]
     = ([{| command := JStr "start"; options := JDict ∅ |}],
        Some (AttributeError "get")).
Proof. vm_compute. repeat split; reflexivity. Qed.

End ProtocolFacts.

(** ** The lifecycle of a sense *)

Module SenseFacts.
Import Protocol Sense Scenarios.
#[local] Open Scope string_scope.

Section Lifecycle.

Context {S : Type}.
Variable _start : sense S -> outcome (sense S).
Variable _stop : sense S -> outcome (sense S).
Variable _configure : gmap string json -> sense S -> outcome (sense S).

Lemma configure_no_lifecycle (opts : json) (s : sense S) :
  forall self,
    ~ In (CalledStart self) (snd (fst (configure _configure opts s)))
    /\ ~ In (CalledStop self) (snd (fst (configure _configure opts s))).
Proof.
  intros self. unfold configure.
  destruct opts; simpl; try (split; intros []).
  destruct (bool_decide _); simpl; [split; intros []|].
  destruct (_configure _ _); simpl; split; intros [H|[]]; discriminate H.
Qed.

Lemma handle_command_on_transition (cmd : Command) (s : sense S) :
  on_transition
    {| before := s; handled := cmd;
       events := snd (fst (_handle_command _start _stop _configure cmd s));
       after := fst (fst (_handle_command _start _stop _configure cmd s)) |}.
Proof.
  unfold on_transition, _handle_command. simpl.
  destruct (eq_str (command cmd) "start") eqn:Estart.
  - destruct (running s) eqn:Er; simpl.
    + split; intros self [H|[]]; discriminate H.
    + destruct (_start _); simpl; split; intros self [H|[H|[]]];
        try discriminate H; injection H as <-; auto.
  - destruct (eq_str (command cmd) "stop") eqn:Estop.
    + destruct (running s) eqn:Er; simpl.
      * destruct (_stop _); simpl; split; intros self [H|[H|[]]];
          try discriminate H; injection H as <-; auto.
      * split; intros self [H|[]]; discriminate H.
    + destruct (eq_str (command cmd) "configure").
      * pose proof (configure_no_lifecycle (options cmd) s) as Hc.
        destruct (configure _configure (options cmd) s) as [[s1 evs] err]. simpl in *.
        split; intros self [H|H]; try discriminate H; exfalso;
          destruct (Hc self) as [H1 H2]; auto.
      * simpl. split; intros self [H|[H|[]]]; discriminate H.
Qed.

Lemma command_loop_on_transition (cmds : list Command) :
  forall s, Forall on_transition
              (fst (fst (command_loop _start _stop _configure cmds s))).
Proof.
  induction cmds as [|cmd rest IH]; intros s; simpl.
  - constructor.
  - pose proof (handle_command_on_transition cmd s) as Hturn.
    destruct (_handle_command _start _stop _configure cmd s) as [[s1 evs] err].
    simpl in Hturn.
    destruct err as [e|]; simpl.
    + constructor; [exact Hturn|constructor].
    + destruct (negb (running s1) && eq_str (command cmd) "stop"); simpl.
      * constructor; [exact Hturn|constructor].
      * specialize (IH s1).
        destruct (command_loop _start _stop _configure rest s1) as [[ts s2] err2].
        simpl in *. constructor; assumption.
Qed.

(** C10.  A [start] command on a running sense leaves the object as it
    is and does not call [_start]; a [stop] command on a sense that is not
    running does not call [_stop]; and over any sequence of commands every
    call of [_start] is made on a turn that takes [running] from [False]
    to [True], every call of [_stop] on one that takes it from [True] to
    [False]. *)
Theorem lifecycle_calls_on_transitions_only :
  (forall cmd s,
     eq_str (command cmd) "start" = true -> running s = true ->
     _handle_command _start _stop _configure cmd s
     = (s, [LogCommand (command cmd)], None))
  /\ (forall cmd s,
        eq_str (command cmd) "stop" = true -> running s = false ->
        _handle_command _start _stop _configure cmd s
        = (s, [LogCommand (command cmd)], None))
  /\ (forall cmds s,
        Forall on_transition
          (fst (fst (command_loop _start _stop _configure cmds s)))).
Proof.
  split; [|split].
  - intros cmd s Hc Hr. unfold _handle_command. rewrite Hc, Hr. reflexivity.
  - intros cmd s Hc Hr. unfold _handle_command. rewrite Hc, Hr.
    destruct (command cmd) as [| | | |str| |]; try discriminate Hc.
    simpl in Hc. apply String.eqb_eq in Hc. subst str. reflexivity.
  - intros cmds s. apply command_loop_on_transition.
Qed.

End Lifecycle.

(** A sense whose methods do nothing, given start, start, stop, stop. *)
Lemma lifecycle_calls_on_transitions_only_witness :
  _handle_command (S := unit) Return Return (fun _ => Return) (cmd "start")
    (set_running idle_sense true)
  = (set_running idle_sense true, [LogCommand (JStr "start")], None)
  /\ _handle_command (S := unit) Return Return (fun _ => Return) (cmd "stop") idle_sense
     = (idle_sense, [LogCommand (JStr "stop")], None)
  /\ Forall (on_transition (S := unit))
       (fst (fst (command_loop (S := unit) Return Return (fun _ => Return)
                    [cmd "start"; cmd "start"; cmd "stop"; cmd "stop"] idle_sense))).
Proof.
  pose proof (lifecycle_calls_on_transitions_only (S := unit) Return Return (fun _ => Return))
    as [Hstart [Hstop Hall]].
  split; [|split].
  - apply (Hstart (cmd "start") (set_running idle_sense true)); reflexivity.
  - apply (Hstop (cmd "stop") idle_sense); reflexivity.
  - apply Hall.
Defined.

End SenseFacts.

(** ** The echo coordinator *)

Module EchoFacts.
Import Echo.

Lemma timer_step_keeps_listening (i : nat) (m m' : EchoCancellationManager) :
  timer_step i m = Some m' -> _state m = LISTENING -> _state m' = LISTENING.
Proof.
  unfold timer_step. intros H Hl.
  destruct (threads m !! i) as [[]|]; try discriminate H.
  - destruct (_stop_interrupt_checks m); injection H as <-; exact Hl.
  - destruct (decide (_state m = SPEAKING)) as [E|_]; [congruence|].
    injection H as <-. exact Hl.
  - injection H as <-. exact Hl.
  - injection H as <-. exact Hl.
  - destruct (decide (_state m = INTERRUPT_CHECK)) as [E|_]; [congruence|].
    injection H as <-. exact Hl.
  - injection H as <-. exact Hl.
Qed.

Lemma run_timers_keeps_listening (sched : list nat) :
  forall m, _state m = LISTENING -> _state (run_timers sched m) = LISTENING.
Proof.
  induction sched as [|i sched IH]; intros m Hl; simpl; [exact Hl|].
  apply IH. destruct (timer_step i m) as [m'|] eqn:E; simpl; [|exact Hl].
  exact (timer_step_keeps_listening i m m' E Hl).
Qed.

Lemma stop_speaking_state (during_join : list nat) (m : EchoCancellationManager) :
  _state (stop_speaking during_join m) = LISTENING.
Proof. reflexivity. Qed.

(** C5.  A second [start_speaking] right after the first changes nothing:
    from a state other than SPEAKING the two calls together notify
    SPEAKING once and start one timer thread.  After [stop_speaking],
    called in any state and whatever the timer threads do during its
    join, the state is LISTENING and the microphone is active, and the
    timer threads that are still alive leave it so. *)
Theorem start_twice_notifies_once_and_stop_listens :
  (forall m, start_speaking (start_speaking m) = start_speaking m)
  /\ (forall m,
        _state m <> SPEAKING -> on_state_change m = true ->
        notified (start_speaking (start_speaking m)) = notified m ++ [SPEAKING]
        /\ threads (start_speaking (start_speaking m)) = threads m ++ [AtWait])
  /\ (forall during_join m,
        state (stop_speaking during_join m) = LISTENING
        /\ is_mic_active (stop_speaking during_join m) = true)
  /\ (forall during_join later m,
        state (run_timers later (stop_speaking during_join m)) = LISTENING
        /\ is_mic_active (run_timers later (stop_speaking during_join m)) = true).
Proof.
  assert (Hidem : forall m, start_speaking (start_speaking m) = start_speaking m).
  { intros m. unfold start_speaking at 1.
    destruct (decide (_state (start_speaking m) = SPEAKING)) as [_|Hn]; [reflexivity|].
    exfalso. apply Hn. unfold start_speaking.
    destruct (decide (_state m = SPEAKING)) as [E|_]; [exact E|reflexivity]. }
  split; [exact Hidem|]. split; [|split].
  - intros m Hn Hcb. rewrite Hidem. unfold start_speaking.
    destruct (decide (_state m = SPEAKING)) as [E|_]; [contradiction|].
    simpl. rewrite Hcb. split; reflexivity.
  - intros during_join m. split; reflexivity.
  - intros during_join later m.
    pose proof (run_timers_keeps_listening later (stop_speaking during_join m)
                  (stop_speaking_state during_join m)) as Hl.
    unfold is_mic_active, state. rewrite Hl. split; reflexivity.
Qed.

(** The manager of the test suite, started twice, and a stop that arrives
    in the middle of an interrupt check. *)
Lemma start_twice_notifies_once_and_stop_listens_witness :
  notified (start_speaking (start_speaking (init true))) = [SPEAKING]
  /\ threads (start_speaking (start_speaking (init true))) = [AtWait]
  /\ _state (run_timers [0; 0; 0]%nat (start_speaking (init true))) = INTERRUPT_CHECK
  /\ state (stop_speaking [] (run_timers [0; 0; 0]%nat (start_speaking (init true))))
     = LISTENING.
Proof.
  pose proof start_twice_notifies_once_and_stop_listens as [_ [Hstart [Hstop _]]].
  destruct (Hstart (init true)) as [Hn Ht]; [discriminate|reflexivity|].
  split; [exact Hn|]. split; [exact Ht|]. split; [reflexivity|].
  exact (proj1 (Hstop [] (run_timers [0; 0; 0]%nat (start_speaking (init true))))).
Defined.

End EchoFacts.

(** ** The playback controller *)

Module PiperFacts.
Import Piper.
#[local] Open Scope string_scope.

(** Right after [interrupt] returns the queue is empty, no process runs
    and [is_speaking] is false. *)
Lemma interrupt_silences (t : PiperTTS) :
  _audio_queue (interrupt t) = [] /\ is_speaking (interrupt t) = false.
Proof.
  split; [reflexivity|].
  unfold is_speaking.
  assert (H : process_running (interrupt t) = false).
  { unfold process_running at 1. unfold interrupt. simpl.
    destruct (_playback_process t) as [p|] eqn:Ep; [|reflexivity].
    destruct (process_running t) eqn:Er.
    - unfold process_running in Er. rewrite Ep in Er.
      destruct (processes t !! p) as [q|] eqn:El; [|discriminate Er].
      rewrite list_lookup_insert_eq; [reflexivity|].
      apply lookup_lt_Some in El. exact El.
    - unfold process_running in Er. rewrite Ep in Er. exact Er. }
  rewrite H. reflexivity.
Qed.

(** C6 at the schedule in which the background thread has passed both
    tests of the interrupted flag when [interrupt] runs: [interrupt]
    returns with an empty queue and no process to stop, then the thread
    starts [afplay] on the file of the interrupted [speak]; audio plays
    after [interrupt] has returned and [is_speaking] is true again. *)
Theorem playback_starts_after_interrupt :
  exists t,
    run [Speak "hello" (Some "hello.wav"); Playback; Playback; Playback;
         Interrupt; Playback] init = Some t
    /\ observed t
       = [SpeakReturned (Some "hello.wav"); InterruptReturned; PlaybackStarted "hello.wav"]
    /\ _interrupted t = true
    /\ is_speaking t = true.
Proof. eexists. vm_compute. repeat split; reflexivity. Qed.

End PiperFacts.

(** ** The frame differencer *)

Module FrameDiffFacts.
Import FrameDiff Scenarios.

Lemma gt_le_trans (x : score) (lo hi : Q) :
  (lo <= hi)%Q -> gt x hi = true -> gt x lo = true.
Proof.
  unfold gt. destruct x as [q|]; [|intros _ H; exact H].
  intros Hle H. apply negb_true_iff in H. apply negb_true_iff.
  destruct (Qle_bool q lo) eqn:E; [|reflexivity].
  apply Qle_bool_iff in E.
  assert (Hq : Qle_bool q hi = true)
    by (apply Qle_bool_iff; apply Qle_trans with lo; assumption).
  congruence.
Qed.

(** The decision of [should_run_vlm] on a frame that is not the first. *)
Lemma should_run_vlm_decision (d d' : FrameDifferencer) (f last_frame last_vlm_frame : frame)
    (run : bool) (result : FrameDiffResult) :
  _last_frame d = Some last_frame ->
  _last_vlm_frame d = Some last_vlm_frame ->
  should_run_vlm d f = Some (d', (run, result)) ->
  diff_score result = diff_score (_calculate_diff d last_vlm_frame (_downsample d f))
  /\ motion_regions result = _count_motion_regions d last_vlm_frame (_downsample d f)
  /\ run =
     ((min_frames_between_vlm d <=? _frames_since_vlm d + 1)
        && gt (diff_score result) (motion_threshold d)
      || gt (diff_score result) (change_threshold d)
      || (3 <=? motion_regions result) && gt (diff_score result) (motion_threshold d)).
Proof.
  intros Hl Hv H. unfold should_run_vlm in H. rewrite Hl, Hv in H.
  injection H as _ Hrun Hres. subst result. simpl.
  split; [reflexivity|]. split; [reflexivity|]. subst run.
  destruct (_ && _); destruct (gt _ (change_threshold d));
    destruct (_ && _); reflexivity.
Qed.



End FrameDiffFacts.

(** ** The voice-activity segmenter *)

Module VadFacts.
Import Vad VadRuns.

(** *** Runs of chunks *)

Lemma len_nonneg {A : Type} (a : list A) : 0 <= len a.
Proof. unfold len. lia. Qed.

Lemma samples_app (a b : list chunk_call) : samples (a ++ b) = samples a + samples b.
Proof. induction a as [|c a IH]; simpl; [reflexivity|]. rewrite IH. lia. Qed.

Lemma samples_nonneg (cs : list chunk_call) : 0 <= samples cs.
Proof.
  induction cs as [|c cs IH]; simpl; [lia|].
  pose proof (len_nonneg (audio_chunk c)). lia.
Qed.

Lemma speech_samples_of_snoc (v : SileroVAD) (cs : list chunk_call) (c : chunk_call) :
  speech_samples_of v (cs ++ [c])
  = speech_samples_of v cs + (if is_speech v c then len (audio_chunk c) else 0).
Proof.
  unfold speech_samples_of. rewrite List.filter_app, samples_app. simpl.
  destruct (is_speech v c); simpl; lia.
Qed.

Lemma speech_samples_of_nonneg (v : SileroVAD) (cs : list chunk_call) :
  0 <= speech_samples_of v cs.
Proof. apply samples_nonneg. Qed.

Lemma trailing_silence_snoc (v : SileroVAD) (cs : list chunk_call) (c : chunk_call) :
  trailing_silence v (cs ++ [c])
  = if is_speech v c then 0 else trailing_silence v cs + len (audio_chunk c).
Proof. unfold trailing_silence. rewrite List.fold_left_app. reflexivity. Qed.

Lemma trailing_silence_nonneg (v : SileroVAD) (cs : list chunk_call) :
  0 <= trailing_silence v cs.
Proof.
  induction cs as [|c cs IH] using rev_ind; [unfold trailing_silence; simpl; lia|].
  rewrite trailing_silence_snoc. pose proof (len_nonneg (audio_chunk c)).
  destruct (is_speech v c); lia.
Qed.

Lemma pauses_short_prefix (v : SileroVAD) (a b : list chunk_call) :
  pauses_short v (a ++ b) -> pauses_short v a.
Proof.
  intros H p c q E Hc. apply (H p c (q ++ b)); [|exact Hc].
  rewrite E. rewrite <- List.app_assoc. reflexivity.
Qed.

Lemma snoc_eq_app_cons {A : Type} (l p q : list A) (c x : A) :
  l ++ [c] = p ++ x :: q ->
  (q = [] /\ p = l /\ x = c) \/ (exists q', q = q' ++ [c] /\ l = p ++ x :: q').
Proof.
  intros E. destruct q as [|y q] using rev_ind.
  - left. apply List.app_inj_tail in E. destruct E as [-> ->]. auto.
  - right. clear IHq. exists q.
    change (p ++ x :: q ++ [y]) with (p ++ (x :: q) ++ [y]) in E.
    rewrite List.app_assoc in E. apply List.app_inj_tail in E.
    destruct E as [-> ->]. auto.
Qed.

Lemma pauses_short_snoc (v : SileroVAD) (cs : list chunk_call) (c : chunk_call) :
  pauses_short v cs ->
  (is_speech v c = false -> trailing_silence v (cs ++ [c]) < min_silence_samples v) ->
  pauses_short v (cs ++ [c]).
Proof.
  intros H Hc p x q E Hx.
  destruct (snoc_eq_app_cons _ _ _ _ _ E) as [[-> [-> ->]]|[q' [-> ->]]].
  - apply Hc. exact Hx.
  - apply (H p x q'); [reflexivity|exact Hx].
Qed.

Lemma pauses_short_single (v : SileroVAD) (c : chunk_call) :
  is_speech v c = true -> pauses_short v [c].
Proof.
  intros Hc. apply (pauses_short_snoc v [] c).
  - intros p x q E. destruct p; discriminate E.
  - intros Hn. congruence.
Qed.

Lemma starts_with_speech_app (v : SileroVAD) (a b : list chunk_call) :
  starts_with_speech v a -> starts_with_speech v (a ++ b).
Proof. destruct a; simpl; [intros []|auto]. Qed.

(** A stretch that begins with speech and ends with a silence chunk
    splits into a body and the run of silence at its end. *)
Lemma split_trailing_silence (v : SileroVAD) (seg : list chunk_call) :
  starts_with_speech v seg ->
  exists body si,
    seg = body ++ si
    /\ starts_with_speech v body
    /\ silent v si
    /\ samples si = trailing_silence v seg
    /\ speech_samples_of v body = speech_samples_of v seg.
Proof.
  induction seg as [|c seg IH] using rev_ind; [intros []|].
  intros Hs. destruct (is_speech v c) eqn:Ec.
  - exists (seg ++ [c]), []. rewrite List.app_nil_r, trailing_silence_snoc, Ec.
    repeat split; [exact Hs|constructor].
  - destruct seg as [|c0 seg].
    + simpl in Hs. congruence.
    + destruct (IH Hs) as [body [si [E [Hb [Hsi [Hsam Hsp]]]]]].
      exists body, (si ++ [c]).
      rewrite List.app_assoc, <- E, trailing_silence_snoc, Ec, samples_app.
      rewrite speech_samples_of_snoc, Ec, Hsam, Hsp. simpl.
      repeat split; try lia; [exact Hb|].
      apply Forall_app. split; [exact Hsi|]. constructor; [exact Ec|constructor].
Qed.

(** *** One call of [process_chunk] *)

Lemma is_speech_config (v s : SileroVAD) (c : chunk_call) :
  same_config v s -> is_speech s c = is_speech v c.
Proof. intros [Ht _]. unfold is_speech. rewrite Ht. reflexivity. Qed.

Lemma process_chunk_full (s : SileroVAD) (c : chunk_call) :
  CHUNK_SAMPLES <= len (audio_chunk c) ->
  process_chunk s c =
  if is_speech s c then
    (set_buffers s (_speech_buffer s ++ [audio_chunk c]) 0
       ((if _in_speech s then _speech_samples s else 0) + len (audio_chunk c)) true
       (if _in_speech s then _speech_start_time s else Some (now c)),
     Some (speech_prob c), [])
  else if _in_speech s then
    let s' :=
      set_buffers s (_speech_buffer s ++ [audio_chunk c])
        (_silence_samples s + len (audio_chunk c))
        (_speech_samples s) true (_speech_start_time s) in
    if min_silence_samples s <=? _silence_samples s + len (audio_chunk c)
    then (reset s', Some (speech_prob c), snd (_emit_segment (now c) s'))
    else (s', Some (speech_prob c), [])
  else (s, Some (speech_prob c), []).
Proof.
  intros H. unfold process_chunk. apply Z.ltb_ge in H. rewrite H. reflexivity.
Qed.

Lemma same_config_step (v s : SileroVAD) (c : chunk_call) :
  same_config v s -> same_config v (fst (fst (process_chunk s c))).
Proof.
  intros Hc. unfold process_chunk.
  destruct (len (audio_chunk c) <? CHUNK_SAMPLES); [exact Hc|].
  destruct (is_speech s c); [exact Hc|].
  destruct (_in_speech s); [|exact Hc]. simpl.
  destruct (min_silence_samples s <=? _); exact Hc.
Qed.

(** What the callback receives when a silence chunk ends a segment. *)
Lemma emit_segment_fired (now : float) (s : SileroVAD) :
  on_speech_segment s = true -> _speech_buffer s <> [] ->
  (min_speech_samples s <= _speech_samples s ->
   exists seg, snd (_emit_segment now s) = [seg]
               /\ audio seg = List.concat (_speech_buffer s))
  /\ (_speech_samples s < min_speech_samples s -> snd (_emit_segment now s) = []).
Proof.
  intros Hcb Hbuf. unfold _emit_segment. simpl. rewrite Hcb.
  assert (Hl : (len (_speech_buffer s) =? 0) = false).
  { apply Z.eqb_neq. unfold len. destruct (_speech_buffer s); [contradiction|].
    simpl. lia. }
  rewrite Hl. split; intros H.
  - apply Z.leb_le in H. rewrite H. simpl. eexists. split; reflexivity.
  - apply Z.leb_gt in H. rewrite H. reflexivity.
Qed.

Lemma tracks_in_speech_buffer (v : SileroVAD) (hist : list chunk_call) (s : SileroVAD) :
  tracks v hist s -> _in_speech s = true ->
  _speech_buffer s <> [] /\ 0 <= _speech_samples s /\ 0 <= _silence_samples s.
Proof.
  intros [_ [_ H]] Hin. destruct (H Hin) as [l1 [seg [_ [Hs [_ [Hsp [Hsil Hbuf]]]]]]].
  rewrite Hsp, Hsil, Hbuf. split; [|split].
  - destruct seg; [destruct Hs|discriminate].
  - apply speech_samples_of_nonneg.
  - apply trailing_silence_nonneg.
Qed.

(** One call keeps the state on the track of the calls, and what it hands
    to the callback, if anything, is the audio of a stretch that ends a
    segment at this call. *)
Lemma tracks_step (v : SileroVAD) (hist : list chunk_call) (s : SileroVAD) (c : chunk_call) :
  on_speech_segment v = true ->
  CHUNK_SAMPLES <= len (audio_chunk c) ->
  tracks v hist s ->
  tracks v (hist ++ [c]) (fst (fst (process_chunk s c)))
  /\ (snd (process_chunk s c) = []
      \/ exists seg l1 body si,
           snd (process_chunk s c) = [seg]
           /\ hist ++ [c] = l1 ++ body ++ si
           /\ ends_segment v body si
           /\ audio seg = List.concat (List.map audio_chunk (body ++ si))).
Proof.
  intros Hcb Hfull Htr.
  pose proof (tracks_in_speech_buffer v hist s Htr) as Hwf.
  destruct Htr as [Hcfg [Hidle Htr]].
  pose proof (is_speech_config v s c Hcfg) as Hsp.
  destruct Hcfg as [Hth [Hms [Hmsil Hon]]].
  rewrite (process_chunk_full s c Hfull), Hsp.
  destruct (is_speech v c) eqn:Ec.
  - (* a speech chunk *)
    simpl. split; [|left; reflexivity].
    split; [repeat split; assumption|]. split; [discriminate|]. intros _. simpl.
    destruct (_in_speech s) eqn:Ein.
    + destruct (Htr eq_refl) as [l1 [seg [E [Hs [Hp [Hn [Hsil Hbuf]]]]]]].
      exists l1, (seg ++ [c]). rewrite E, <- List.app_assoc.
      split; [reflexivity|]. split; [apply starts_with_speech_app; exact Hs|].
      split; [apply pauses_short_snoc; [exact Hp|congruence]|].
      rewrite speech_samples_of_snoc, trailing_silence_snoc, Ec, List.map_app, Hn, Hbuf.
      repeat split.
    + exists hist, [c].
      split; [reflexivity|]. split; [exact Ec|].
      split; [apply pauses_short_single; exact Ec|].
      change [c] with ([] ++ [c]).
      rewrite speech_samples_of_snoc, trailing_silence_snoc, Ec, (Hidle eq_refl).
      repeat split.
  - destruct (_in_speech s) eqn:Ein.
    + (* a silence chunk inside a segment *)
      destruct (Htr eq_refl) as [l1 [seg [E [Hs [Hp [Hn [Hsil Hbuf]]]]]]].
      destruct (Hwf eq_refl) as [Hne [Hsp0 Hsil0]].
      cbv zeta.
      destruct (min_silence_samples s <=? _silence_samples s + len (audio_chunk c)) eqn:Ecross.
      * (* the silence is long enough: the segment ends here *)
        simpl fst. split.
        { split; [repeat split; assumption|]. split; [reflexivity|discriminate]. }
        set (s' := set_buffers s (_speech_buffer s ++ [audio_chunk c])
                     (_silence_samples s + len (audio_chunk c))
                     (_speech_samples s) true (_speech_start_time s)).
        assert (Hon' : on_speech_segment s' = true) by (simpl; congruence).
        assert (Hne' : _speech_buffer s' <> []).
        { simpl. intros Habs. apply List.app_eq_nil in Habs. destruct Habs; discriminate. }
        destruct (emit_segment_fired (now c) s' Hon' Hne') as [Hfire Hdrop].
        destruct (Z_lt_le_dec (_speech_samples s') (min_speech_samples s')) as [Hlt|Hge].
        { left. simpl snd. apply Hdrop. exact Hlt. }
        right. destruct (Hfire Hge) as [segm [Hf Haudio]].
        destruct (split_trailing_silence v seg Hs)
          as [body [gap [Esplit [Hb [Hgap [Hsam Hspeech]]]]]].
        exists segm, l1, body, (gap ++ [c]).
        split; [exact Hf|]. split.
        { rewrite E, Esplit. rewrite <- !List.app_assoc. reflexivity. }
        split.
        { split; [exact Hb|].
          split; [apply (pauses_short_prefix v body gap); rewrite <- Esplit; exact Hp|].
          split; [rewrite Hspeech, <- Hn, <- Hms; exact Hge|].
          split; [intros Habs; apply List.app_eq_nil in Habs; destruct Habs; discriminate|].
          split; [apply Forall_app; split; [exact Hgap|constructor; [exact Ec|constructor]]|].
          rewrite samples_app, Hsam, <- Hsil, <- Hmsil. simpl.
          apply Z.leb_le in Ecross. lia. }
        rewrite Haudio. simpl. rewrite Hbuf, List.app_assoc, <- Esplit, List.map_app.
        reflexivity.
      * (* the pause is still short *)
        simpl. split; [|left; reflexivity].
        split; [repeat split; assumption|]. split; [discriminate|]. intros _.
        exists l1, (seg ++ [c]). rewrite E, <- List.app_assoc.
        split; [reflexivity|]. split; [apply starts_with_speech_app; exact Hs|].
        assert (Ht : trailing_silence v (seg ++ [c])
                     = _silence_samples s + len (audio_chunk c))
          by (rewrite trailing_silence_snoc, Ec, Hsil; reflexivity).
        split.
        { apply pauses_short_snoc; [exact Hp|]. intros _. rewrite Ht, <- Hmsil.
          apply Z.leb_gt in Ecross. exact Ecross. }
        rewrite speech_samples_of_snoc, Ec, Ht, List.map_app, Hn, Hbuf. simpl.
        repeat split. lia.
    + (* a silence chunk while idle *)
      simpl. split; [|left; reflexivity].
      split; [repeat split; assumption|].
      split; [intros _; exact (Hidle eq_refl)|]. rewrite Ein. discriminate.
Qed.

Lemma process_chunks_cons (s : SileroVAD) (c : chunk_call) (cs : list chunk_call) :
  process_chunks s (c :: cs)
  = (fst (process_chunks (fst (fst (process_chunk s c))) cs),
     snd (process_chunk s c) ++ snd (process_chunks (fst (fst (process_chunk s c))) cs)).
Proof.
  simpl. destruct (process_chunk s c) as [[s' r] fired]. simpl.
  destruct (process_chunks s' cs) as [s'' rest]. reflexivity.
Qed.

Lemma process_chunks_app (a b : list chunk_call) :
  forall s,
    process_chunks s (a ++ b)
    = (fst (process_chunks (fst (process_chunks s a)) b),
       snd (process_chunks s a) ++ snd (process_chunks (fst (process_chunks s a)) b)).
Proof.
  induction a as [|c a IH]; intros s.
  - simpl. destruct (process_chunks s b). reflexivity.
  - rewrite <- List.app_comm_cons, !process_chunks_cons, IH. simpl.
    rewrite List.app_assoc. reflexivity.
Qed.

Lemma tracks_run (v : SileroVAD) (cs : list chunk_call) :
  on_speech_segment v = true -> full_chunks cs ->
  forall hist s,
    tracks v hist s -> tracks v (hist ++ cs) (fst (process_chunks s cs)).
Proof.
  intros Hcb Hfull. induction Hfull as [|c cs Hc _ IH]; intros hist s Htr.
  - rewrite List.app_nil_r. exact Htr.
  - rewrite process_chunks_cons. simpl fst.
    replace (hist ++ c :: cs) with ((hist ++ [c]) ++ cs)
      by (rewrite <- List.app_assoc; reflexivity).
    apply IH. apply (tracks_step v hist s c Hcb Hc Htr).
Qed.

(** Every segment handed to the callback is the audio of a stretch of the
    calls that ends a segment. *)
Lemma emitted_are_segments (v : SileroVAD) (cs : list chunk_call) :
  on_speech_segment v = true -> full_chunks cs ->
  forall hist s,
    tracks v hist s ->
    Forall (emitted_from v (hist ++ cs)) (snd (process_chunks s cs)).
Proof.
  intros Hcb Hfull. induction Hfull as [|c cs Hc _ IH]; intros hist s Htr.
  - constructor.
  - rewrite process_chunks_cons. simpl snd.
    destruct (tracks_step v hist s c Hcb Hc Htr) as [Htr' Hfired].
    replace (hist ++ c :: cs) with ((hist ++ [c]) ++ cs)
      by (rewrite <- List.app_assoc; reflexivity).
    apply Forall_app. split; [|apply IH; exact Htr'].
    destruct Hfired as [->|[seg [l1 [body [si [-> [E [Hends Haudio]]]]]]]]; [constructor|].
    constructor; [|constructor].
    exists l1, body, si, cs. split; [|split; assumption].
    rewrite E. rewrite <- !List.app_assoc. reflexivity.
Qed.

Lemma process_chunks_single (s : SileroVAD) (c : chunk_call) :
  process_chunks s [c] = (fst (fst (process_chunk s c)), snd (process_chunk s c)).
Proof. rewrite process_chunks_cons. simpl. rewrite List.app_nil_r. reflexivity. Qed.

(** A call inside a stretch: a speech chunk, or a silence chunk that leaves
    the pause short. *)
Lemma step_in_body (v s : SileroVAD) (c : chunk_call) :
  same_config v s ->
  CHUNK_SAMPLES <= len (audio_chunk c) ->
  is_speech v c = true \/ _in_speech s = true ->
  (is_speech v c = false ->
   _silence_samples s + len (audio_chunk c) < min_silence_samples v) ->
  snd (process_chunk s c) = []
  /\ same_config v (fst (fst (process_chunk s c)))
  /\ _in_speech (fst (fst (process_chunk s c))) = true
  /\ _speech_samples (fst (fst (process_chunk s c)))
     = (if _in_speech s then _speech_samples s else 0)
       + (if is_speech v c then len (audio_chunk c) else 0)
  /\ _silence_samples (fst (fst (process_chunk s c)))
     = (if is_speech v c then 0 else _silence_samples s + len (audio_chunk c))
  /\ _speech_buffer (fst (fst (process_chunk s c))) <> [].
Proof.
  intros Hcfg Hfull Hor Hshort.
  pose proof (is_speech_config v s c Hcfg) as Hsp.
  rewrite (process_chunk_full s c Hfull), Hsp.
  assert (Hne : _speech_buffer s ++ [audio_chunk c] <> []).
  { intros Habs. apply List.app_eq_nil in Habs. destruct Habs; discriminate. }
  destruct (is_speech v c) eqn:Ec.
  - simpl. repeat split; try apply Hcfg; exact Hne.
  - destruct Hor as [Habs|Hin]; [discriminate|]. rewrite Hin. cbv zeta.
    specialize (Hshort eq_refl).
    destruct Hcfg as [Hth [Hms [Hmsil Hon]]].
    assert (Ecross : (min_silence_samples s <=? _silence_samples s + len (audio_chunk c))
                     = false) by (apply Z.leb_gt; rewrite Hmsil; exact Hshort).
    rewrite Ecross. simpl. repeat split; try assumption. lia.
Qed.

(** A stretch that begins with speech and has only short pauses is
    buffered whole: nothing is emitted inside it and its speech is
    counted. *)
Lemma body_accumulates (v : SileroVAD) (body : list chunk_call) :
  starts_with_speech v body -> pauses_short v body -> full_chunks body ->
  forall s,
    same_config v s ->
    (_in_speech s = true -> 0 <= _speech_samples s) ->
    snd (process_chunks s body) = []
    /\ same_config v (fst (process_chunks s body))
    /\ _in_speech (fst (process_chunks s body)) = true
    /\ speech_samples_of v body <= _speech_samples (fst (process_chunks s body))
    /\ _silence_samples (fst (process_chunks s body)) = trailing_silence v body
    /\ _speech_buffer (fst (process_chunks s body)) <> [].
Proof.
  induction body as [|c b IH] using rev_ind; [intros []|].
  intros Hs Hp Hfull s Hcfg Hsp0.
  apply Forall_app in Hfull. destruct Hfull as [Hfb Hfc].
  inversion Hfc as [|? ? Hc _]; subst.
  rewrite process_chunks_app, process_chunks_single. simpl fst. simpl snd.
  rewrite speech_samples_of_snoc, trailing_silence_snoc.
  destruct b as [|c0 b'].
  - (* the speech chunk that opens the stretch *)
    simpl in Hs. simpl process_chunks. simpl fst. simpl snd.
    destruct (step_in_body v s c Hcfg Hc (or_introl Hs))
      as [Hf [Hcfg' [Hin [Hsp [Hsil Hbuf]]]]]; [congruence|].
    rewrite Hf, Hsp, Hsil, Hs.
    split; [reflexivity|]. split; [exact Hcfg'|]. split; [exact Hin|].
    split; [|split; [reflexivity|exact Hbuf]].
    change (speech_samples_of v []) with 0.
    destruct (_in_speech s); [specialize (Hsp0 eq_refl)|]; lia.
  - destruct (IH Hs (pauses_short_prefix v _ _ Hp) Hfb s Hcfg Hsp0)
      as [Hfb' [Hcfgb [Hinb [Hspb [Hsilb Hbufb]]]]].
    set (sb := fst (process_chunks s (c0 :: b'))) in *.
    assert (Hshort : is_speech v c = false ->
                     _silence_samples sb + len (audio_chunk c) < min_silence_samples v).
    { intros Ec. pose proof (Hp (c0 :: b') c [] eq_refl Ec) as Hlt.
      rewrite trailing_silence_snoc, Ec, <- Hsilb in Hlt. exact Hlt. }
    destruct (step_in_body v sb c Hcfgb Hc (or_intror Hinb) Hshort)
      as [Hf [Hcfg' [Hin [Hsp [Hsil Hbuf]]]]].
    rewrite Hfb', Hf, Hsp, Hsil, Hinb, Hsilb.
    split; [reflexivity|]. split; [exact Hcfg'|]. split; [exact Hin|].
    split; [|split; [reflexivity|exact Hbuf]].
    destruct (is_speech v c); lia.
Qed.

(** In speech with enough speech counted, a run of silence that brings
    the silence to [min_silence_samples] makes the callback fire. *)
Lemma silence_run_emits (v : SileroVAD) (si : list chunk_call) :
  on_speech_segment v = true -> silent v si -> full_chunks si ->
  forall s,
    same_config v s ->
    _in_speech s = true ->
    min_speech_samples v <= _speech_samples s ->
    si <> [] ->
    min_silence_samples v <= _silence_samples s + samples si ->
    snd (process_chunks s si) <> [].
Proof.
  intros Hcb Hsil Hfull. induction Hsil as [|c si Ec Hsil IH];
    intros s Hcfg Hin Hsp Hne Hlong; [contradiction|].
  inversion Hfull as [|? ? Hc Hfull']; subst.
  rewrite process_chunks_cons. simpl snd.
  pose proof (is_speech_config v s c Hcfg) as Hspeech.
  pose proof (same_config_step v s c Hcfg) as Hcfg'.
  rewrite (process_chunk_full s c Hc), Hspeech, Ec, Hin in *. cbv zeta in *.
  destruct Hcfg as [Hth [Hms [Hmsil Hon]]].
  destruct (min_silence_samples s <=? _silence_samples s + len (audio_chunk c)) eqn:Ecross.
  - set (s' := set_buffers s (_speech_buffer s ++ [audio_chunk c])
                 (_silence_samples s + len (audio_chunk c))
                 (_speech_samples s) true (_speech_start_time s)).
    cbn [snd].
    assert (Hon' : on_speech_segment s' = true) by (simpl; congruence).
    assert (Hne' : _speech_buffer s' <> []).
    { simpl. intros Habs. apply List.app_eq_nil in Habs. destruct Habs; discriminate. }
    destruct (emit_segment_fired (now c) s' Hon' Hne') as [Hfire _].
    destruct Hfire as [seg [Hf _]]; [simpl; lia|].
    rewrite Hf. simpl. discriminate.
  - simpl in *. apply Z.leb_gt in Ecross.
    apply IH; try assumption.
    + reflexivity.
    + intros ->. simpl in Hlong. lia.
    + simpl. lia.
Qed.

Lemma idle_tracks (v : SileroVAD) : idle v -> tracks v [] v.
Proof.
  intros [Hin Hbuf]. split; [repeat split|]. split; [intros _; exact Hbuf|].
  rewrite Hin. discriminate.
Qed.

(** A sequence with a stretch that ends a segment makes the callback fire. *)
Lemma qualifying_calls_emit (v : SileroVAD) (cs : list chunk_call) :
  idle v -> on_speech_segment v = true -> full_chunks cs ->
  qualifies v cs -> snd (process_chunks v cs) <> [].
Proof.
  intros Hidle Hcb Hfull [l1 [body [si [l2 [E Hends]]]]]. subst cs.
  destruct Hends as [Hs [Hp [Hsp [Hne [Hsil Hlong]]]]].
  apply Forall_app in Hfull. destruct Hfull as [Hf1 Hfull].
  apply Forall_app in Hfull. destruct Hfull as [Hfb Hfull].
  apply Forall_app in Hfull. destruct Hfull as [Hfs Hf2].
  pose proof (tracks_run v l1 Hcb Hf1 [] v (idle_tracks v Hidle)) as Htr.
  set (s1 := fst (process_chunks v l1)) in *.
  destruct (body_accumulates v body Hs Hp Hfb s1 (proj1 Htr))
    as [_ [Hcfg2 [Hin2 [Hsp2 [Hsil2 _]]]]].
  { intros Hin. apply (tracks_in_speech_buffer v _ s1 Htr Hin). }
  set (s2 := fst (process_chunks s1 body)) in *.
  assert (Hemit : snd (process_chunks s2 si) <> []).
  { apply (silence_run_emits v si Hcb Hsil Hfs s2 Hcfg2 Hin2); [lia|exact Hne|].
    rewrite Hsil2. pose proof (trailing_silence_nonneg v body). lia. }
  rewrite process_chunks_app. simpl snd. fold s1.
  rewrite process_chunks_app. simpl snd. fold s2.
  rewrite process_chunks_app. simpl snd.
  intros Habs.
  apply List.app_eq_nil in Habs. destruct Habs as [_ Habs].
  apply List.app_eq_nil in Habs. destruct Habs as [_ Habs].
  apply List.app_eq_nil in Habs. destruct Habs as [Habs _].
  exact (Hemit Habs).
Qed.

(** C1, as the code has it.  On calls with full chunks, starting idle with
    a callback registered, the callback is invoked if and only if the calls
    contain a stretch that begins with a speech chunk, in which no pause
    reaches [min_silence_samples] and whose speech chunks, contiguous or
    not, amount to [min_speech_samples], followed by a run of silence of
    [min_silence_samples]; and every segment handed to the callback is the
    audio of such a stretch, so that none holds less than
    [min_speech_samples] of speech. *)
Theorem segment_emitted_iff_stretch_ends (v : SileroVAD) (cs : list chunk_call) :
  idle v -> on_speech_segment v = true -> full_chunks cs ->
  (snd (process_chunks v cs) <> [] <-> qualifies v cs)
  /\ Forall (emitted_from v cs) (snd (process_chunks v cs)).
Proof.
  intros Hidle Hcb Hfull.
  pose proof (emitted_are_segments v cs Hcb Hfull [] v (idle_tracks v Hidle)) as Hall.
  simpl in Hall. split; [|exact Hall]. split.
  - intros Hne. destruct (snd (process_chunks v cs)) as [|seg rest]; [contradiction|].
    inversion Hall as [|? ? Hseg _]; subst.
    destruct Hseg as [l1 [body [si [l2 [E [Hends _]]]]]].
    exists l1, body, si, l2. split; assumption.
  - apply qualifying_calls_emit; assumption.
Qed.

Lemma full_chunks_check (cs : list chunk_call) :
  List.forallb (fun c => CHUNK_SAMPLES <=? len (audio_chunk c)) cs = true ->
  full_chunks cs.
Proof.
  intros H. apply List.Forall_forall. intros c Hc.
  rewrite List.forallb_forall in H. apply Z.leb_le. exact (H c Hc).
Defined.

(** The speech with a pause, given to the detector of the transcriber. *)
Lemma segment_emitted_iff_stretch_ends_witness :
  (snd (process_chunks Scenarios.listener_vad Scenarios.interrupted_speech) <> []
   <-> qualifies Scenarios.listener_vad Scenarios.interrupted_speech)
  /\ Forall (emitted_from Scenarios.listener_vad Scenarios.interrupted_speech)
       (snd (process_chunks Scenarios.listener_vad Scenarios.interrupted_speech)).
Proof.
  apply (segment_emitted_iff_stretch_ends Scenarios.listener_vad
           Scenarios.interrupted_speech).
  - split; reflexivity.
  - reflexivity.
  - apply full_chunks_check. vm_compute. reflexivity.
Defined.

(** A contiguous run of speech inside [cs] is shorter than the bound that
    [speech_runs_below] has checked. *)
Lemma speech_runs_below_prefix (v : SileroVAD) (bound : Z) (sp rest : list chunk_call) :
  forall cur,
    speech_runs_below v bound cur (sp ++ rest) = true ->
    all_speech v sp -> sp <> [] -> cur + samples sp < bound.
Proof.
  induction sp as [|c sp IH]; intros cur H Hall Hne; [contradiction|].
  inversion Hall as [|? ? Hc Hall']; subst.
  simpl in H. rewrite Hc in H. apply andb_true_iff in H. destruct H as [Hlt H].
  apply Z.ltb_lt in Hlt. simpl.
  destruct sp as [|c' sp'].
  - simpl. lia.
  - assert (Hne' : c' :: sp' <> []) by discriminate.
    specialize (IH (cur + len (audio_chunk c)) H Hall' Hne'). lia.
Qed.

Lemma speech_runs_below_later (v : SileroVAD) (bound : Z) (l1 rest : list chunk_call) :
  forall cur,
    0 <= cur ->
    speech_runs_below v bound cur (l1 ++ rest) = true ->
    exists cur', 0 <= cur' /\ speech_runs_below v bound cur' rest = true.
Proof.
  induction l1 as [|c l1 IH]; intros cur Hcur H; [exists cur; auto|].
  simpl in H. destruct (is_speech v c).
  - apply andb_true_iff in H. destruct H as [_ H].
    apply (IH (cur + len (audio_chunk c))); [|exact H].
    pose proof (len_nonneg (audio_chunk c)). lia.
  - apply (IH 0); [lia|exact H].
Qed.

Lemma no_contiguous_speech (v : SileroVAD) (cs : list chunk_call) :
  speech_runs_below v (min_speech_samples v) 0 cs = true ->
  ~ contiguous_speech_then_silence v cs.
Proof.
  intros H [l1 [sp [si [l2 [E [Hne [Hall [Hlong _]]]]]]]]. subst cs.
  destruct (speech_runs_below_later v _ l1 _ 0 (Z.le_refl 0) H) as [cur [Hcur H']].
  pose proof (speech_runs_below_prefix v _ sp _ cur H' Hall Hne). lia.
Qed.

(** C1 as stated fails.  The detector of the transcriber is given 128 ms
    of speech, one silence chunk, 128 ms of speech and 704 ms of silence:
    the speech counter is not reset by the pause, so 256 ms of speech are
    counted and the callback is invoked, although no contiguous run of
    speech reaches the 250 ms of [min_speech_samples]. *)
Lemma interrupted_speech_is_emitted :
  List.length (snd (process_chunks Scenarios.listener_vad Scenarios.interrupted_speech))
  = 1%nat
  /\ snd (process_chunks Scenarios.listener_vad Scenarios.interrupted_speech) <> []
  /\ ~ contiguous_speech_then_silence Scenarios.listener_vad Scenarios.interrupted_speech.
Proof.
  assert (Hlen : List.length
                   (snd (process_chunks Scenarios.listener_vad
                           Scenarios.interrupted_speech)) = 1%nat)
    by (vm_compute; reflexivity).
  split; [exact Hlen|]. split.
  - intros Habs. rewrite Habs in Hlen. discriminate Hlen.
  - apply no_contiguous_speech. vm_compute. reflexivity.
Qed.

(** *** Exact runs *)

Lemma len_concat_chunks (cs : list chunk_call) :
  len (List.concat (List.map audio_chunk cs)) = samples cs.
Proof.
  unfold len. induction cs as [|c cs IH]; simpl; [reflexivity|].
  rewrite List.length_app, Nat2Z.inj_add, IH. reflexivity.
Qed.

(** Speech chunks inside a segment are buffered and counted. *)
Lemma speech_run_exact (v : SileroVAD) (cs : list chunk_call) :
  all_speech v cs -> full_chunks cs ->
  forall buf sp t,
    process_chunks (set_buffers v buf 0 sp true t) cs
    = (set_buffers v (buf ++ List.map audio_chunk cs) 0 (sp + samples cs) true t, []).
Proof.
  intros Hall Hfull. induction Hall as [|c cs Hc _ IH]; intros buf sp t.
  - simpl. rewrite List.app_nil_r, Z.add_0_r. reflexivity.
  - inversion Hfull as [|? ? Hf Hfull']; subst.
    rewrite process_chunks_cons, (process_chunk_full _ c Hf).
    change (is_speech (set_buffers v buf 0 sp true t) c) with (is_speech v c).
    rewrite Hc. simpl fst. simpl snd.
    change (set_buffers (set_buffers v buf 0 sp true t)
              (buf ++ [audio_chunk c]) 0 (sp + len (audio_chunk c)) true t)
      with (set_buffers v (buf ++ [audio_chunk c]) 0 (sp + len (audio_chunk c)) true t).
    rewrite (IH Hfull'). simpl. rewrite <- List.app_assoc, Z.add_assoc. reflexivity.
Qed.

(** Silence chunks inside a segment are buffered while the pause is short. *)
Lemma silence_run_exact (v : SileroVAD) (cs : list chunk_call) :
  silent v cs -> full_chunks cs ->
  forall buf sil sp t,
    sil + samples cs < min_silence_samples v ->
    process_chunks (set_buffers v buf sil sp true t) cs
    = (set_buffers v (buf ++ List.map audio_chunk cs) (sil + samples cs) sp true t, []).
Proof.
  intros Hsil Hfull. induction Hsil as [|c cs Hc _ IH]; intros buf sil sp t Hshort.
  - simpl. rewrite List.app_nil_r, Z.add_0_r. reflexivity.
  - inversion Hfull as [|? ? Hf Hfull']; subst. simpl in Hshort.
    pose proof (samples_nonneg cs) as Hnn.
    rewrite process_chunks_cons, (process_chunk_full _ c Hf).
    change (is_speech (set_buffers v buf sil sp true t) c) with (is_speech v c).
    rewrite Hc. cbn [_in_speech set_buffers]. cbv zeta.
    cbn [min_silence_samples _silence_samples set_buffers].
    assert (Ecross : (min_silence_samples v <=? sil + len (audio_chunk c)) = false)
      by (apply Z.leb_gt; lia).
    rewrite Ecross. simpl fst. simpl snd.
    change (set_buffers (set_buffers v buf sil sp true t)
              (buf ++ [audio_chunk c]) (sil + len (audio_chunk c)) sp true t)
      with (set_buffers v (buf ++ [audio_chunk c]) (sil + len (audio_chunk c)) sp true t).
    rewrite (IH Hfull'); [|lia]. simpl. rewrite <- List.app_assoc, Z.add_assoc. reflexivity.
Qed.

(** Silence chunks while idle change nothing. *)
Lemma idle_silence_exact (v : SileroVAD) (cs : list chunk_call) :
  _in_speech v = false -> silent v cs -> process_chunks v cs = (v, []).
Proof.
  intros Hin Hsil. induction Hsil as [|c cs Hc _ IH]; [reflexivity|].
  rewrite process_chunks_cons.
  assert (E : fst (fst (process_chunk v c)) = v /\ snd (process_chunk v c) = []).
  { unfold process_chunk. destruct (len (audio_chunk c) <? CHUNK_SAMPLES); [auto|].
    rewrite Hc, Hin. auto. }
  destruct E as [-> ->]. rewrite IH. reflexivity.
Qed.

Lemma samples_uniform (n : Z) (cs : list chunk_call) :
  Forall (fun c => len (audio_chunk c) = n) cs ->
  samples cs = n * Z.of_nat (List.length cs).
Proof.
  intros H. induction H as [|c cs Hc _ IH]; simpl samples; [simpl; lia|].
  rewrite Hc, IH. simpl List.length. lia.
Qed.

Lemma uniform_full (cs : list chunk_call) :
  Forall (fun c => len (audio_chunk c) = CHUNK_SAMPLES) cs -> full_chunks cs.
Proof. apply List.Forall_impl. intros c Hc. rewrite Hc. lia. Qed.

(** One silence chunk that brings the pause to [min_silence_samples], with
    enough speech counted: the segment is handed to the callback. *)
Lemma silence_cross_exact (v : SileroVAD) (c : chunk_call) (buf : list ndarray)
    (sil sp : Z) (t : option float) :
  on_speech_segment v = true ->
  CHUNK_SAMPLES <= len (audio_chunk c) ->
  is_speech v c = false ->
  min_silence_samples v <= sil + len (audio_chunk c) ->
  min_speech_samples v <= sp ->
  exists seg,
    process_chunk (set_buffers v buf sil sp true t) c
    = (reset v, Some (speech_prob c), [seg])
    /\ audio seg = List.concat (buf ++ [audio_chunk c])
    /\ duration_ms seg
       = PyNum.int_of_float
           (PrimFloat.mul
              (PyNum.truediv (len (List.concat (buf ++ [audio_chunk c]))) SAMPLE_RATE)
              (PyNum.float_of_int 1000)).
Proof.
  intros Hcb Hf Hc Hlong Hsp.
  rewrite (process_chunk_full _ c Hf).
  change (is_speech (set_buffers v buf sil sp true t) c) with (is_speech v c).
  rewrite Hc. cbn [_in_speech set_buffers]. cbv zeta.
  cbn [min_silence_samples _silence_samples set_buffers].
  apply Z.leb_le in Hlong. rewrite Hlong.
  unfold _emit_segment. cbn [snd set_buffers min_speech_samples _speech_samples
                              _speech_buffer on_speech_segment _speech_start_time].
  apply Z.leb_le in Hsp. rewrite Hsp, Hcb.
  assert (Hl : (len (buf ++ [audio_chunk c]) =? 0) = false).
  { apply Z.eqb_neq. unfold len. rewrite List.length_app. simpl. lia. }
  rewrite Hl. simpl andb. cbv iota.
  eexists. split; [reflexivity|]. split; reflexivity.
Qed.

(** C7.  The detector of a [FastWhisperTranscriber] ([min_speech_ms=250],
    [min_silence_ms=700]) is given chunks of 32 ms: ten classified as
    speech, which cover 300 ms, then twenty-four classified as silence,
    which cover 750 ms.  Exactly one segment is handed to the callback;
    its [duration_ms] is 1024, within one chunk of 1050. *)
Theorem speech_300ms_then_silence_750ms (th : float)
    (on_t : option (Whisper.callback Whisper.TranscriptionResult))
    (on_i : option (Whisper.callback string)) (sp si : list chunk_call) :
  List.length sp = 10%nat ->
  List.length si = 24%nat ->
  Forall (fun c => len (audio_chunk c) = CHUNK_SAMPLES) (sp ++ si) ->
  all_speech (Whisper.vad (Whisper.init th on_t on_i)) sp ->
  silent (Whisper.vad (Whisper.init th on_t on_i)) si ->
  exists seg,
    snd (process_chunks (Whisper.vad (Whisper.init th on_t on_i)) (sp ++ si)) = [seg]
    /\ duration_ms seg = 1024
    /\ Z.abs (duration_ms seg - 1050) <= CHUNK_MS.
Proof.
  intros Hlsp Hlsi Hsize Hspeech Hsilent.
  set (v := Whisper.vad (Whisper.init th on_t on_i)) in *.
  assert (Hmsil : min_silence_samples v = 11200) by (vm_compute; reflexivity).
  assert (Hmsp : min_speech_samples v = 4000) by (vm_compute; reflexivity).
  assert (Hchunk : CHUNK_SAMPLES = 512) by (vm_compute; reflexivity).
  apply Forall_app in Hsize. destruct Hsize as [Hsz_sp Hsz_si].
  (* the silence: 21 chunks keep the pause short, the 22nd ends the segment *)
  rewrite <- (List.firstn_skipn 21 si) in Hsilent, Hsz_si |- *.
  set (si1 := List.firstn 21 si) in *.
  assert (Hl1 : List.length si1 = 21%nat)
    by (unfold si1; rewrite List.length_firstn; lia).
  assert (Hl2 : List.length (List.skipn 21 si) = 3%nat)
    by (rewrite List.length_skipn; lia).
  destruct (List.skipn 21 si) as [|c22 [|c23 [|c24 [|? ?]]]]; try discriminate Hl2.
  clear Hl2.
  apply Forall_app in Hsilent. destruct Hsilent as [Hsil1 Hsil2].
  apply Forall_app in Hsz_si. destruct Hsz_si as [Hsz1 Hsz2].
  inversion Hsil2 as [|? ? Hc22 Hsil3]; subst.
  inversion Hsz2 as [|? ? Hs22 Hsz3]; subst.
  (* the speech: the first chunk opens the segment *)
  destruct sp as [|c0 sp']; [discriminate Hlsp|].
  inversion Hspeech as [|? ? Hc0 Hspeech']; subst.
  inversion Hsz_sp as [|? ? Hs0 Hsz_sp']; subst.
  assert (Hsam_sp : samples sp' = 512 * 9).
  { rewrite (samples_uniform CHUNK_SAMPLES sp' Hsz_sp'), Hchunk.
    simpl in Hlsp. injection Hlsp as ->. reflexivity. }
  assert (Hsam_si : samples si1 = 512 * 21).
  { rewrite (samples_uniform CHUNK_SAMPLES si1 Hsz1), Hchunk, Hl1. reflexivity. }
  assert (Hfirst : process_chunk v c0
                   = (set_buffers v [audio_chunk c0] 0 (len (audio_chunk c0)) true
                        (Some (now c0)), Some (speech_prob c0), [])).
  { rewrite process_chunk_full by (rewrite Hs0; lia). rewrite Hc0. reflexivity. }
  rewrite <- List.app_comm_cons, process_chunks_cons, Hfirst. cbn [fst snd].
  rewrite process_chunks_app, (speech_run_exact v sp' Hspeech' (uniform_full _ Hsz_sp')).
  cbn [fst snd].
  rewrite process_chunks_app,
    (silence_run_exact v si1 Hsil1 (uniform_full _ Hsz1)) by (rewrite Hmsil; lia).
  cbn [fst snd].
  destruct (silence_cross_exact v c22
              (([audio_chunk c0] ++ List.map audio_chunk sp') ++ List.map audio_chunk si1)
              (0 + samples si1) (len (audio_chunk c0) + samples sp')
              (Some (now c0)))
    as [seg [Hstep [Haudio Hdur]]].
  - reflexivity.
  - rewrite Hs22. lia.
  - exact Hc22.
  - rewrite Hmsil, Hs22, Hchunk. lia.
  - rewrite Hmsp, Hs0, Hchunk. lia.
  - rewrite process_chunks_cons, Hstep. cbn [fst snd].
    rewrite (idle_silence_exact (reset v) [c23; c24] eq_refl Hsil3). cbn [snd].
    exists seg. split; [reflexivity|].
    assert (Hlen : len (List.concat
                     ((([audio_chunk c0] ++ List.map audio_chunk sp')
                       ++ List.map audio_chunk si1) ++ [audio_chunk c22])) = 16384).
    { change [audio_chunk c0] with (List.map audio_chunk [c0]).
      change [audio_chunk c22] with (List.map audio_chunk [c22]).
      rewrite <- !List.map_app, len_concat_chunks, !samples_app, Hsam_sp, Hsam_si.
      simpl. rewrite Hs0, Hs22, Hchunk. reflexivity. }
    rewrite Hdur, Hlen.
    assert (Hms : PyNum.int_of_float
                    (PrimFloat.mul (PyNum.truediv 16384 SAMPLE_RATE)
                       (PyNum.float_of_int 1000)) = 1024)
      by (vm_compute; reflexivity).
    rewrite Hms. split; [reflexivity|]. vm_compute. discriminate.
Qed.

Lemma Forall_check {A : Type} (P : A -> Prop) (b : A -> bool) (l : list A) :
  (forall x, b x = true -> P x) -> List.forallb b l = true -> Forall P l.
Proof.
  intros Hb H. apply List.Forall_forall. intros x Hx.
  rewrite List.forallb_forall in H. exact (Hb x (H x Hx)).
Defined.

(** Ten chunks scored 0.75 and twenty-four scored 0.25, at threshold 0.5. *)
Lemma speech_300ms_then_silence_750ms_witness :
  exists seg,
    snd (process_chunks Scenarios.listener_vad
           (List.repeat Scenarios.speech_chunk 10 ++ List.repeat Scenarios.silence_chunk 24))
    = [seg]
    /\ duration_ms seg = 1024
    /\ Z.abs (duration_ms seg - 1050) <= CHUNK_MS.
Proof.
  apply (speech_300ms_then_silence_750ms (PyNum.truediv 1 2) None None
           (List.repeat Scenarios.speech_chunk 10) (List.repeat Scenarios.silence_chunk 24)).
  - reflexivity.
  - reflexivity.
  - apply (Forall_check _ (fun c => len (audio_chunk c) =? CHUNK_SAMPLES)).
    + intros c Hc. apply Z.eqb_eq. exact Hc.
    + vm_compute. reflexivity.
  - apply (Forall_check _ (fun c => is_speech Scenarios.listener_vad c)).
    + intros c Hc. exact Hc.
    + vm_compute. reflexivity.
  - apply (Forall_check _ (fun c => negb (is_speech Scenarios.listener_vad c))).
    + intros c Hc. apply negb_true_iff. exact Hc.
    + vm_compute. reflexivity.
Defined.

(** *** The states of the segmenter *)

Lemma consistent_init (th : float) (a b c : Z) (cb : bool) : consistent (init th a b c cb).
Proof. intros _. repeat split. Qed.

Lemma consistent_reset (v : SileroVAD) : consistent (reset v).
Proof. intros _. repeat split. Qed.

Lemma consistent_process_chunk (v : SileroVAD) (c : chunk_call) :
  consistent v -> consistent (fst (fst (process_chunk v c))).
Proof.
  intros Hv. unfold process_chunk.
  destruct (len (audio_chunk c) <? CHUNK_SAMPLES); [exact Hv|].
  destruct (is_speech v c).
  - simpl. intros Habs. apply List.app_eq_nil in Habs. destruct Habs; discriminate.
  - destruct (_in_speech v); [|exact Hv]. cbv zeta.
    destruct (min_silence_samples _ <=? _).
    + simpl. apply consistent_reset.
    + simpl. intros Habs. apply List.app_eq_nil in Habs. destruct Habs; discriminate.
Qed.

(** On a state of the segmenter with an empty buffer [reset] changes
    nothing. *)
Lemma reset_idle (v : SileroVAD) :
  consistent v -> _speech_buffer v = [] -> reset v = v.
Proof.
  intros Hc Hb. destruct (Hc Hb) as [Hin [Hsp [Hsil Ht]]].
  destruct v. simpl in *. subst. reflexivity.
Qed.

End VadFacts.

(** ** Muting and unmuting *)

Module MuteFacts.
Import Vad VadRuns Whisper.

Lemma reachable_consistent (t : FastWhisperTranscriber) :
  reachable t -> consistent (vad t).
Proof.
  induction 1 as [th ont oni|t _ _|t _ _|model t0 t1 t c _ IH].
  - apply VadFacts.consistent_init.
  - apply VadFacts.consistent_reset.
  - apply VadFacts.consistent_reset.
  - unfold process_one. destruct (_muted t); [exact IH|].
    pose proof (VadFacts.consistent_process_chunk (vad t) c IH) as H.
    destruct (process_chunk (vad t) c) as [[v' r] fired]. exact H.
Qed.

(** C9, as the code has it.  On a transcriber whose segmenter has an empty
    buffer, [mute] followed at once by [unmute] leaves the segmenter
    (buffer, counters, in-speech flag, start time) as it was and leaves
    the transcriber unmuted; the whole state is as before when the
    transcriber was not muted before. *)
Theorem mute_unmute_round_trip (t : FastWhisperTranscriber) :
  reachable t -> _speech_buffer (vad t) = [] ->
  vad (unmute (mute t)) = vad t
  /\ _muted (unmute (mute t)) = false
  /\ (_muted t = false -> unmute (mute t) = t).
Proof.
  intros Hr Hb.
  assert (Hv : vad (unmute (mute t)) = vad t).
  { simpl. rewrite (VadFacts.reset_idle (vad t) (reachable_consistent t Hr) Hb).
    apply VadFacts.reset_idle; [apply reachable_consistent; exact Hr|exact Hb]. }
  split; [exact Hv|]. split; [reflexivity|].
  intros Hm. destruct t as [ont oni v r m]. simpl in *. subst m.
  unfold unmute, mute. simpl. f_equal. exact Hv.
Qed.

(** A transcriber that has just been created. *)
Lemma mute_unmute_round_trip_witness :
  unmute (mute (init (PyNum.truediv 1 2) None None)) = init (PyNum.truediv 1 2) None None.
Proof.
  apply (mute_unmute_round_trip (init (PyNum.truediv 1 2) None None)).
  - apply reach_init.
  - reflexivity.
  - reflexivity.
Defined.

(** C9 as stated fails on a transcriber that is already muted: its buffer
    is empty, and after [mute] and [unmute] the muted flag is [False], not
    [True] as before. *)
Lemma muted_round_trip_unmutes :
  reachable (mute (init (PyNum.truediv 1 2) None None))
  /\ _speech_buffer (vad (mute (init (PyNum.truediv 1 2) None None))) = []
  /\ unmute (mute (mute (init (PyNum.truediv 1 2) None None)))
     <> mute (init (PyNum.truediv 1 2) None None).
Proof.
  split; [apply reach_mute, reach_init|]. split; [reflexivity|].
  intros H. apply (f_equal _muted) in H. discriminate H.
Qed.

End MuteFacts.

(** ** More on the segmenter *)

Module VadMore.
Import Vad VadRuns VadStates.

Lemma full_chunks_filter (cs : list chunk_call) : full_chunks (List.filter full cs).
Proof.
  apply List.Forall_forall. intros c Hc. apply List.filter_In in Hc.
  destruct Hc as [_ Hc]. unfold full in Hc. apply Z.leb_le. exact Hc.
Qed.

Lemma process_chunks_filter_full (v : SileroVAD) (cs : list chunk_call) :
  process_chunks v cs = process_chunks v (List.filter full cs).
Proof.
  revert v. induction cs as [|c cs IH]; intros v; [reflexivity|].
  simpl List.filter. unfold full at 1.
  destruct (CHUNK_SAMPLES <=? len (audio_chunk c)) eqn:E.
  - rewrite !VadFacts.process_chunks_cons, IH. reflexivity.
  - rewrite VadFacts.process_chunks_cons.
    assert (Hstep : process_chunk v c = (v, None, [])).
    { unfold process_chunk. apply Z.leb_gt in E. apply Z.ltb_lt in E. rewrite E.
      reflexivity. }
    rewrite Hstep. simpl. rewrite IH. destruct (process_chunks v _). reflexivity.
Qed.

(** X1.  Chunks shorter than the chunk size leave no trace: a sequence of calls
    ends in the same state and hands the same segments to the callback as
    the sequence without its short chunks. *)
Theorem short_chunks_are_ignored (v : SileroVAD) (cs : list chunk_call) :
  process_chunks v cs = process_chunks v (List.filter full cs).
Proof. apply process_chunks_filter_full. Qed.

Lemma speech_samples_of_le (v : SileroVAD) (cs : list chunk_call) :
  speech_samples_of v cs <= samples cs.
Proof.
  unfold speech_samples_of. induction cs as [|c cs IH]; simpl; [lia|].
  pose proof (VadFacts.len_nonneg (audio_chunk c)).
  destruct (is_speech v c); simpl; lia.
Qed.

Lemma emitted_from_long (v : SileroVAD) (cs : list chunk_call) (seg : SpeechSegment) :
  emitted_from v cs seg ->
  min_speech_samples v + min_silence_samples v <= len (audio seg).
Proof.
  intros [l1 [body [si [l2 [_ [Hends Haudio]]]]]].
  destruct Hends as [_ [_ [Hsp [_ [_ Hsil]]]]].
  rewrite Haudio, VadFacts.len_concat_chunks, VadFacts.samples_app.
  pose proof (speech_samples_of_le v body). lia.
Qed.

(** X2.  Whatever the chunks fed to an idle segmenter, every segment handed to
    the callback holds at least [min_speech_samples + min_silence_samples]
    samples. *)
Theorem segments_have_minimum_length (v : SileroVAD) (cs : list chunk_call) :
  idle v -> on_speech_segment v = true ->
  Forall (fun seg => min_speech_samples v + min_silence_samples v <= len (audio seg))
    (snd (process_chunks v cs)).
Proof.
  intros Hidle Hcb. rewrite process_chunks_filter_full.
  pose proof (VadFacts.emitted_are_segments v (List.filter full cs) Hcb
                (full_chunks_filter cs) [] v (VadFacts.idle_tracks v Hidle)) as Hall.
  simpl in Hall. revert Hall. apply List.Forall_impl.
  intros seg. apply emitted_from_long.
Qed.

(** The detector of the transcriber and the speech with a pause. *)
Lemma segments_have_minimum_length_witness :
  Forall (fun seg => 4000 + 11200 <= len (audio seg))
    (snd (process_chunks Scenarios.listener_vad Scenarios.interrupted_speech)).
Proof.
  apply (segments_have_minimum_length Scenarios.listener_vad Scenarios.interrupted_speech).
  - split; reflexivity.
  - reflexivity.
Defined.








End VadMore.

(** ** More on the transcriber *)

Module WhisperMore.
Import PyStr Whisper WhisperLoop Scenarios.
#[local] Open Scope string_scope.

(** X5.  While the transcriber is muted the loop drops every chunk it takes
    from the queue: nothing reaches the segmenter and no callback is
    called, whatever the audio. *)
Theorem muted_transcriber_ignores_audio (model : Vad.ndarray -> transcribed)
    (t0 t1 : float) (t : FastWhisperTranscriber) (cs : list Vad.chunk_call) :
  _muted t = true -> process_all model t0 t1 t cs = (t, []).
Proof.
  intros Hm. induction cs as [|c cs IH]; [reflexivity|].
  simpl. unfold process_one. rewrite Hm, IH. reflexivity.
Qed.

(** The muted transcriber given the speech with a pause. *)
Lemma muted_transcriber_ignores_audio_witness :
  process_all (fun _ => Transcribed ["Kira stop"] (Some "en"))
    (PyNum.float_of_int 1) (PyNum.float_of_int 2) muted_listener interrupted_speech
  = (muted_listener, []).
Proof.
  apply (muted_transcriber_ignores_audio (fun _ => Transcribed ["Kira stop"] (Some "en"))
           (PyNum.float_of_int 1) (PyNum.float_of_int 2) muted_listener interrupted_speech).
  reflexivity.
Defined.

(** X6.  A callback is called only on a transcription that succeeded with a
    text that is not empty and passes the hallucination filter: the
    interrupt callback with that text and only if it holds an interrupt
    keyword, the transcription callback with that text and only if the
    transcriber is not muted. *)
Theorem callbacks_only_on_accepted_text (t : FastWhisperTranscriber)
    (model : Vad.ndarray -> transcribed) (t0 t1 : float) (segment : Vad.SpeechSegment)
    (e : effect) :
  In e (_handle_speech t model t0 t1 segment) ->
  is_callback e = true ->
  exists parts lang,
    model (Vad.audio segment) = Transcribed parts lang
    /\ strip (join " " parts) <> ""
    /\ is_hallucination (strip (join " " parts)) = false
    /\ ((e = CallInterrupt (strip (join " " parts))
         /\ _is_interrupt (strip (join " " parts)) = true
         /\ on_interrupt t <> None)
        \/ (exists r, e = CallTranscription r
                      /\ text r = strip (join " " parts)
                      /\ _muted t = false
                      /\ on_transcription t <> None)).
Proof.
  unfold _handle_speech.
  destruct (model (Vad.audio segment)) as [parts lang|msg];
    [|intros [<-|[]]; discriminate].
  destruct (String.eqb_spec (strip (join " " parts)) "") as [E|Hne]; [intros []|].
  destruct (is_hallucination (strip (join " " parts))) eqn:Eh;
    [intros [<-|[]]; discriminate|].
  intros Hin Hcb. exists parts, lang.
  split; [reflexivity|]. split; [exact Hne|]. split; [exact Eh|].
  assert (Hint : forall rest : unit,
            In e (match on_interrupt t with
                  | Some cb =>
                      if _is_interrupt (strip (join " " parts)) then
                        CallInterrupt (strip (join " " parts)) ::
                        match cb (strip (join " " parts)) with
                        | Some e => [Stderr ("Interrupt callback error: " +:+ e)]
                        | None => []
                        end
                      else []
                  | None => []
                  end) ->
            e = CallInterrupt (strip (join " " parts))
            /\ _is_interrupt (strip (join " " parts)) = true
            /\ on_interrupt t <> None).
  { intros _. destruct (on_interrupt t) as [cb|]; [|intros []].
    destruct (_is_interrupt (strip (join " " parts))); [|intros []].
    intros [<-|H]; [repeat split; discriminate|].
    destruct (cb _); [destruct H as [<-|[]]; discriminate Hcb|destruct H]. }
  destruct (_muted t) eqn:Em.
  - left. apply (Hint tt). exact Hin.
  - apply List.in_app_or in Hin. destruct Hin as [Hin|Hin]; [left; apply (Hint tt); exact Hin|].
    right. destruct (on_transcription t) as [cb|] eqn:Ecb; [|destruct Hin].
    destruct Hin as [<-|H].
    + eexists. split; [reflexivity|]. repeat split; discriminate.
    + destruct (cb _); [destruct H as [<-|[]]; discriminate Hcb|destruct H].
Qed.

(** The muted segment "Kira stop": the one callback is the interrupt. *)
Lemma callbacks_only_on_accepted_text_witness :
  exists parts lang,
    Transcribed ["Kira stop"] (Some "en") = Transcribed parts lang
    /\ strip (join " " parts) <> ""
    /\ is_hallucination (strip (join " " parts)) = false
    /\ ((CallInterrupt "Kira stop" = CallInterrupt (strip (join " " parts))
         /\ _is_interrupt (strip (join " " parts)) = true
         /\ on_interrupt muted_listener <> None)
        \/ (exists r, CallInterrupt "Kira stop" = CallTranscription r
                      /\ text r = strip (join " " parts)
                      /\ _muted muted_listener = false
                      /\ on_transcription muted_listener <> None)).
Proof.
  apply (callbacks_only_on_accepted_text muted_listener
           (fun _ => Transcribed ["Kira stop"] (Some "en"))
           (PyNum.float_of_int 1) (PyNum.float_of_int 2) silent_segment
           (CallInterrupt "Kira stop")).
  - vm_compute. left. reflexivity.
  - reflexivity.
Defined.

(** X7.  On a transcriber that is not muted, with both callbacks registered, a
    text that is not empty and passes the filter reaches the transcription
    callback once, with the stripped text and the language (or "en");
    when it holds an interrupt keyword the interrupt callback is called
    first, and the transcription callback is called all the same if the
    interrupt callback raises. *)
Theorem unmuted_text_reaches_transcription (t : FastWhisperTranscriber)
    (model : Vad.ndarray -> transcribed) (t0 t1 : float) (segment : Vad.SpeechSegment)
    (parts : list string) (lang : option string)
    (on_i : callback string) (on_t : callback TranscriptionResult) :
  _muted t = false ->
  on_interrupt t = Some on_i ->
  on_transcription t = Some on_t ->
  model (Vad.audio segment) = Transcribed parts lang ->
  strip (join " " parts) <> "" ->
  is_hallucination (strip (join " " parts)) = false ->
  List.filter is_callback (_handle_speech t model t0 t1 segment)
  = ((if _is_interrupt (strip (join " " parts))
      then [CallInterrupt (strip (join " " parts))] else [])
     ++ [CallTranscription
           {| text := strip (join " " parts);
              language := or_en lang;
              confidence := PyNum.float_of_int 1;
              duration_ms :=
                PyNum.int_of_float
                  (PrimFloat.mul (PrimFloat.sub t1 t0) (PyNum.float_of_int 1000)) |}])%list.
Proof.
  intros Hm Hi Ht Hmodel Hne Hh. unfold _handle_speech.
  rewrite Hmodel, Hm, Hi, Ht, Hh.
  destruct (String.eqb_spec (strip (join " " parts)) "") as [E|_]; [contradiction|].
  rewrite List.filter_app.
  destruct (_is_interrupt (strip (join " " parts))).
  - destruct (on_i _); destruct (on_t _); reflexivity.
  - destruct (on_t _); reflexivity.
Qed.

(** "Kira, what's the weather?" with an interrupt callback that raises. *)
Lemma unmuted_text_reaches_transcription_witness :
  List.filter is_callback
    (_handle_speech MoreScenarios.attentive_listener
       (fun _ => Transcribed ["Kira, what's the weather?"] None)
       (PyNum.float_of_int 1) (PyNum.float_of_int 2) silent_segment)
  = [CallInterrupt "Kira, what's the weather?";
     CallTranscription
       {| text := "Kira, what's the weather?";
          language := "en";
          confidence := PyNum.float_of_int 1;
          duration_ms :=
            PyNum.int_of_float
              (PrimFloat.mul (PrimFloat.sub (PyNum.float_of_int 2) (PyNum.float_of_int 1))
                 (PyNum.float_of_int 1000)) |}].
Proof.
  apply (unmuted_text_reaches_transcription MoreScenarios.attentive_listener
           (fun _ => Transcribed ["Kira, what's the weather?"] None)
           (PyNum.float_of_int 1) (PyNum.float_of_int 2) silent_segment
           ["Kira, what's the weather?"] None
           (fun _ => Some "boom") (fun _ => None)).
  - reflexivity.
  - reflexivity.
  - reflexivity.
  - reflexivity.
  - vm_compute. discriminate.
  - vm_compute. reflexivity.
Defined.

(** *** Texts *)

Lemma list_of_app (a b : string) :
  list_ascii_of_string (a +:+ b)
  = (list_ascii_of_string a ++ list_ascii_of_string b)%list.
Proof. induction a as [|c a IH]; simpl; [reflexivity|]. rewrite IH. reflexivity. Qed.

Lemma string_of_app (x y : list ascii) :
  string_of_list_ascii (x ++ y)%list
  = string_of_list_ascii x +:+ string_of_list_ascii y.
Proof. induction x as [|c x IH]; simpl; [reflexivity|]. rewrite IH. reflexivity. Qed.

Lemma lower_app (a b : string) : lower (a +:+ b) = lower a +:+ lower b.
Proof. unfold lower. rewrite list_of_app, List.map_app, string_of_app. reflexivity. Qed.

Lemma prefix_app (p y : string) : String.prefix p (p +:+ y) = true.
Proof.
  induction p as [|c p IH]; simpl; [destruct y; reflexivity|].
  destruct (ascii_dec c c) as [_|Hn]; [exact IH|contradiction].
Qed.

Lemma contains_app (p x y : string) : contains p (x +:+ p +:+ y) = true.
Proof.
  induction x as [|c x IH].
  - change ("" +:+ p +:+ y) with (p +:+ y).
    pose proof (prefix_app p y) as H.
    destruct (p +:+ y); unfold contains; rewrite H; reflexivity.
  - change (String c x +:+ p +:+ y) with (String c (x +:+ p +:+ y)).
    cbn [contains]. destruct (String.prefix p _); [reflexivity|exact IH].
Qed.

(** X8.  The keyword test is a test for a substring of the lower-case text: a
    text that holds an interrupt keyword anywhere, in any case, between
    any characters (inside a longer word too) is an interrupt. *)
Theorem keyword_anywhere_is_interrupt (a w b : string) :
  In (lower w) INTERRUPT_KEYWORDS -> _is_interrupt (a +:+ w +:+ b) = true.
Proof.
  intros Hin. unfold _is_interrupt. rewrite !lower_app.
  apply List.existsb_exists. exists (lower w). split; [exact Hin|apply contains_app].
Qed.

(** The word "unSTOPpable". *)
Lemma keyword_anywhere_is_interrupt_witness : _is_interrupt ("un" +:+ "STOP" +:+ "pable") = true.
Proof.
  apply (keyword_anywhere_is_interrupt "un" "STOP" "pable").
  vm_compute. right. left. reflexivity.
Defined.

Lemma is_space_lower (c : ascii) : is_space (lower_char c) = is_space c.
Proof.
  destruct c as [b0 b1 b2 b3 b4 b5 b6 b7].
  destruct b0, b1, b2, b3, b4, b5, b6, b7; reflexivity.
Qed.

Lemma length_string_of (l : list ascii) :
  String.length (string_of_list_ascii l) = List.length l.
Proof. induction l as [|c l IH]; simpl; [reflexivity|]. rewrite IH. reflexivity. Qed.

Lemma length_list_of (s : string) :
  List.length (list_ascii_of_string s) = String.length s.
Proof. induction s as [|c s IH]; simpl; [reflexivity|]. rewrite IH. reflexivity. Qed.

Lemma length_lower (s : string) : String.length (lower s) = String.length s.
Proof. unfold lower. rewrite length_string_of, List.length_map, length_list_of. reflexivity. Qed.

Lemma drop_space_middle (x m y : list ascii) :
  match m with c :: _ => is_space c = false | [] => False end ->
  exists x', drop_space (x ++ m ++ y) = (x' ++ m ++ y)%list.
Proof.
  intros Hm. induction x as [|a x IH].
  - exists []. destruct m as [|c m]; [destruct Hm|]. simpl. rewrite Hm. reflexivity.
  - simpl. destruct (is_space a); [exact IH|]. exists (a :: x). reflexivity.
Qed.

Lemma strip_list_middle (x m y : list ascii) :
  MoreScenarios.ends_nonspace m = true ->
  exists x' y',
    List.rev (drop_space (List.rev (drop_space (x ++ m ++ y)))) = (x' ++ m ++ y')%list.
Proof.
  intros H. unfold MoreScenarios.ends_nonspace in H.
  apply andb_true_iff in H. destruct H as [Hfirst Hlast].
  destruct (drop_space_middle x m y) as [x' ->].
  { destruct m; [discriminate|]. apply negb_true_iff. exact Hfirst. }
  rewrite !List.rev_app_distr, <- List.app_assoc.
  destruct (drop_space_middle (List.rev y) (List.rev m) (List.rev x')) as [y' ->].
  { destruct (List.rev m); [discriminate|]. apply negb_true_iff. exact Hlast. }
  exists x', (List.rev y').
  rewrite !List.rev_app_distr, !List.rev_involutive, <- List.app_assoc. reflexivity.
Qed.

Lemma ends_nonspace_lower (m : list ascii) :
  MoreScenarios.ends_nonspace (List.map lower_char m) = MoreScenarios.ends_nonspace m.
Proof.
  unfold MoreScenarios.ends_nonspace. rewrite <- List.map_rev.
  destruct m as [|c m]; [reflexivity|]. simpl List.map at 1. cbv iota.
  rewrite is_space_lower. f_equal.
  destruct (List.rev (c :: m)) as [|d r]; [reflexivity|]. simpl.
  rewrite is_space_lower. reflexivity.
Qed.

Lemma long_patterns_end_nonspace :
  List.forallb
    (fun p => (String.length p <=? 5)%nat
              || MoreScenarios.ends_nonspace (list_ascii_of_string p))
    HALLUCINATION_PATTERNS = true.
Proof. vm_compute. reflexivity. Qed.

(** A text that contains the lower-case form [p] of [w] keeps it through
    [strip] and [lower]. *)
Lemma phrase_survives (a w b : string) :
  MoreScenarios.ends_nonspace (list_ascii_of_string (lower w)) = true ->
  contains (lower w) (lower (strip (a +:+ w +:+ b))) = true.
Proof.
  intros H. unfold lower at 1 in H.
  rewrite list_ascii_of_string_of_list_ascii, ends_nonspace_lower in H.
  unfold strip. rewrite !list_of_app.
  destruct (strip_list_middle (list_ascii_of_string a) (list_ascii_of_string w)
              (list_ascii_of_string b) H) as [x' [y' ->]].
  unfold lower at 2. rewrite list_ascii_of_string_of_list_ascii, !List.map_app, !string_of_app.
  fold (lower w). apply contains_app.
Qed.

(** X9.  The hallucination filter flags: a text of fewer than three characters
    once stripped; a text that is a listed phrase up to case and
    surrounding whitespace; and a text that holds a listed phrase of more
    than five characters anywhere, in any case. *)
Theorem listed_phrases_are_flagged :
  (forall text, (String.length (strip text) < 3)%nat -> is_hallucination text = true)
  /\ (forall text,
        In (lower (strip text)) HALLUCINATION_PATTERNS -> is_hallucination text = true)
  /\ (forall a w b,
        In (lower w) HALLUCINATION_PATTERNS ->
        (5 < String.length (lower w))%nat ->
        is_hallucination (a +:+ w +:+ b) = true).
Proof.
  split; [|split].
  - intros text Hlen. unfold is_hallucination. cbv zeta.
    rewrite length_lower. apply Nat.ltb_lt in Hlen. rewrite Hlen. reflexivity.
  - intros text Hin. unfold is_hallucination. cbv zeta.
    assert (Hex : List.existsb
                    (fun pattern =>
                       String.eqb (lower (strip text)) pattern
                       || ((5 <? String.length pattern)%nat
                           && contains pattern (lower (strip text))))
                    HALLUCINATION_PATTERNS = true).
    { apply List.existsb_exists. exists (lower (strip text)). split; [exact Hin|].
      rewrite String.eqb_refl. reflexivity. }
    rewrite Hex.
    destruct (_ <? 3)%nat; [reflexivity|]. destruct (Re.match_ _ _); reflexivity.
  - intros a w b Hin Hlen. unfold is_hallucination. cbv zeta.
    assert (Hends : MoreScenarios.ends_nonspace (list_ascii_of_string (lower w)) = true).
    { pose proof long_patterns_end_nonspace as Hall.
      rewrite List.forallb_forall in Hall. specialize (Hall (lower w) Hin).
      apply orb_true_iff in Hall. destruct Hall as [Hshort|Hok]; [|exact Hok].
      apply Nat.leb_le in Hshort. lia. }
    assert (Hex : List.existsb
                    (fun pattern =>
                       String.eqb (lower (strip (a +:+ w +:+ b))) pattern
                       || ((5 <? String.length pattern)%nat
                           && contains pattern (lower (strip (a +:+ w +:+ b)))))
                    HALLUCINATION_PATTERNS = true).
    { apply List.existsb_exists. exists (lower w). split; [exact Hin|].
      apply Nat.ltb_lt in Hlen. rewrite Hlen, (phrase_survives a w b Hends).
      apply orb_true_r. }
    rewrite Hex.
    destruct (_ <? 3)%nat; [reflexivity|]. destruct (Re.match_ _ _); reflexivity.
Qed.

(** "ok", " The " and "Well, Thanks For Watching, everyone!". *)
Lemma listed_phrases_are_flagged_witness :
  is_hallucination "ok" = true
  /\ is_hallucination " The " = true
  /\ is_hallucination ("Well, " +:+ "Thanks For Watching" +:+ ", everyone!") = true.
Proof.
  pose proof listed_phrases_are_flagged as [Hshort [Hexact Hinside]].
  split; [|split].
  - apply Hshort. vm_compute. lia.
  - apply Hexact. vm_compute. do 10 right. left. reflexivity.
  - apply Hinside.
    + vm_compute. right. left. reflexivity.
    + vm_compute. lia.
Defined.

End WhisperMore.

(** ** More on the command protocol *)

Module ProtocolMore.
Import PyStr Protocol Messages.
#[local] Open Scope string_scope.

Lemma from_json_object (loads : string -> option json) (line : string)
    (data : gmap string json) :
  loads line = Some (JDict data) ->
  from_json loads line
  = Return
      (option_map
         (fun c => {| command := c; options := default (JDict ∅) (data !! "options") |})
         (data !! "command")).
Proof.
  intros H. unfold from_json. rewrite H.
  destruct (data !! "command") as [c|] eqn:Ec.
  - rewrite bool_decide_eq_true_2 by (eexists; reflexivity).
    rewrite orb_true_r. reflexivity.
  - destruct (_ || _); reflexivity.
Qed.

(** X10.  On a line that decodes to an object, [from_json] looks at the key
    [command] alone: with it the line is a command, whose options are
    those of the key [options] or an empty dict, whatever the key [type]
    says; without it the line is dropped, even if [type] is "command". *)
Theorem from_json_decides_on_command_key (loads : string -> option json) (line : string)
    (data : gmap string json) :
  loads line = Some (JDict data) ->
  from_json loads line
  = Return
      (option_map
         (fun c => {| command := c; options := default (JDict ∅) (data !! "options") |})
         (data !! "command")).
Proof. apply from_json_object. Qed.

(** The object with the key [type] set to "signal" and the key [command]:
    it is taken as a command. *)
Lemma from_json_decides_on_command_key_witness :
  from_json
    (fun _ => Some (JDict (<["type" := JStr "signal"]> {[ "command" := JStr "stop" ]})))
    "line"
  = Return (Some {| command := JStr "stop"; options := JDict ∅ |}).
Proof.
  rewrite (from_json_decides_on_command_key
             (fun _ => Some (JDict (<["type" := JStr "signal"]> {[ "command" := JStr "stop" ]})))
             "line" (<["type" := JStr "signal"]> {[ "command" := JStr "stop" ]}) eq_refl).
  vm_compute. reflexivity.
Defined.

Lemma signal_object_no_command (s : Signal) : signal_object s !! "command" = None.
Proof.
  unfold signal_object, signal_asdict. apply lookup_union_None. split.
  - repeat (rewrite lookup_insert_ne by discriminate). apply lookup_empty.
  - apply lookup_singleton_ne. discriminate.
Qed.

Lemma status_object_no_command (s : Status) : status_object s !! "command" = None.
Proof.
  unfold status_object, status_asdict. apply lookup_union_None. split.
  - repeat (rewrite lookup_insert_ne by discriminate). apply lookup_empty.
  - apply lookup_singleton_ne. discriminate.
Qed.

(** X11.  The messages of a sense are not commands: a line that decodes to the
    object of a [Signal] or of a [Status] is dropped by [from_json], and
    the object carries its [type]. *)
Theorem messages_are_not_commands (loads : string -> option json) (line : string) :
  (forall s, loads line = Some (JDict (signal_object s)) ->
             from_json loads line = Return None
             /\ signal_object s !! "type" = Some (JStr "signal"))
  /\ (forall s, loads line = Some (JDict (status_object s)) ->
                from_json loads line = Return None
                /\ status_object s !! "type" = Some (JStr "status")).
Proof.
  split; intros s H.
  - split.
    + apply (ProtocolFacts.from_json_object_without_command loads line _ H).
      apply signal_object_no_command.
    + unfold signal_object, signal_asdict. apply lookup_union_Some_raw. right. split.
      * repeat (rewrite lookup_insert_ne by discriminate). apply lookup_empty.
      * apply lookup_singleton_eq.
  - split.
    + apply (ProtocolFacts.from_json_object_without_command loads line _ H).
      apply status_object_no_command.
    + unfold status_object, status_asdict. apply lookup_union_Some_raw. right. split.
      * repeat (rewrite lookup_insert_ne by discriminate). apply lookup_empty.
      * apply lookup_singleton_eq.
Qed.

(** A signal of the hearing sense and its ready status. *)
Lemma messages_are_not_commands_witness :
  from_json
    (fun _ =>
       Some (JDict (signal_object
                      {| sense := "hearing"; content := "hello"; priority := 100;
                         metadata := ∅; timestamp := PyNum.float_of_int 1 |})))
    "line" = Return None
  /\ from_json
       (fun _ =>
          Some (JDict (status_object
                         {| status_sense := "hearing"; status := "ready"; message := "";
                            status_timestamp := PyNum.float_of_int 1 |})))
       "line" = Return None.
Proof.
  split.
  - apply (proj1 (messages_are_not_commands _ "line")
             {| sense := "hearing"; content := "hello"; priority := 100;
                metadata := ∅; timestamp := PyNum.float_of_int 1 |}).
    reflexivity.
  - apply (proj2 (messages_are_not_commands _ "line")
             {| status_sense := "hearing"; status := "ready"; message := "";
                status_timestamp := PyNum.float_of_int 1 |}).
    reflexivity.
Defined.



End ProtocolMore.

(** ** More on the lifecycle of a sense *)

Module SenseMore.
Import Protocol Sense SenseRun Scenarios.

Section Loop.

Context {S : Type}.
Variable json_loads : string -> option json.
Variable _initialize : sense S -> outcome (sense S).
Variable _start : sense S -> outcome (sense S).
Variable _stop : sense S -> outcome (sense S).
Variable _configure : gmap string json -> sense S -> outcome (sense S).
Variable _cleanup : sense S -> outcome (sense S).

Lemma left_by_break_cons (t : turn S) (ts : list (turn S)) :
  ts <> [] -> left_by_break (t :: ts) = left_by_break ts.
Proof. intros H. unfold left_by_break. destruct ts; [contradiction|reflexivity]. Qed.

(** X13.  The command loop handles the commands in order and leaves none out
    unless it ends: the turns are those of a prefix of the commands, and
    if a command is left unhandled then the last turn raised or handled a
    [stop] that left the sense not running. *)
Theorem loop_leaves_commands_only_at_stop_or_error (cmds : list Command) :
  forall s,
    List.map handled (fst (fst (command_loop _start _stop _configure cmds s)))
    = List.firstn
        (List.length (fst (fst (command_loop _start _stop _configure cmds s)))) cmds
    /\ ((List.length (fst (fst (command_loop _start _stop _configure cmds s)))
         < List.length cmds)%nat ->
        snd (command_loop _start _stop _configure cmds s) <> None
        \/ left_by_break (fst (fst (command_loop _start _stop _configure cmds s))) = true).
Proof.
  induction cmds as [|cmd rest IH]; intros s.
  - simpl. split; [reflexivity|]. intros H. inversion H.
  - simpl command_loop.
    destruct (_handle_command _start _stop _configure cmd s) as [[s1 evs] err].
    destruct err as [e|].
    + simpl. split; [reflexivity|]. intros _. left. discriminate.
    + destruct (negb (running s1) && eq_str (command cmd) "stop") eqn:Eb.
      * simpl. split; [reflexivity|]. intros _. right.
        unfold left_by_break. simpl. exact Eb.
      * specialize (IH s1).
        destruct (command_loop _start _stop _configure rest s1) as [[ts s2] err2].
        simpl in *. destruct IH as [IHm IHl].
        split; [f_equal; exact IHm|].
        intros Hlt. assert (Hlt' : (List.length ts < List.length rest)%nat) by lia.
        destruct (IHl Hlt') as [H|H]; [left; exact H|right].
        destruct ts as [|t ts]; [unfold left_by_break in H; simpl in H; discriminate|].
        rewrite left_by_break_cons by discriminate. exact H.
Qed.


End Loop.

(** A sense whose methods do nothing, given start, stop, start: the loop
    ends at the stop and the last start is left unhandled. *)
Lemma loop_leaves_commands_only_at_stop_or_error_witness :
  left_by_break
    (fst (fst (command_loop (S := unit) Return Return (fun _ => Return)
                 [cmd "start"; cmd "stop"; cmd "start"] idle_sense))) = true.
Proof.
  destruct (proj2 (loop_leaves_commands_only_at_stop_or_error (S := unit)
                     Return Return (fun _ => Return)
                     [cmd "start"; cmd "stop"; cmd "start"] idle_sense))
    as [H|H].
  - vm_compute. lia.
  - vm_compute in H. contradiction.
  - exact H.
Defined.


End SenseMore.

(** ** More on the frame differencer *)

Module FrameMore.
Import FrameDiff FrameOps Scenarios.

(** *** Scores of identical frames *)

Lemma abs_diff_row_self (r : list Q) :
  Forall (fun q => q == 0)%Q
    (List.map (fun ab => Qabs (fst ab - snd ab)%Q) (List.combine r r)).
Proof.
  induction r as [|a r IH]; simpl; constructor; [|exact IH].
  assert (H : (a - a == 0)%Q) by ring.
  cbn [fst snd]. exact (Qabs_wd _ _ H).
Qed.

Lemma abs_diff_self (g : list (list Q)) :
  Forall (fun q => q == 0)%Q (List.concat (abs_diff g g)).
Proof.
  unfold abs_diff. induction g as [|r g IH]; simpl; [constructor|].
  apply Forall_app. split; [apply abs_diff_row_self|exact IH].
Qed.

Lemma sum_Q_zero (l : list Q) : Forall (fun q => q == 0)%Q l -> (sum_Q l == 0)%Q.
Proof.
  induction 1 as [|q l Hq _ IH]; simpl; [reflexivity|].
  cbn beta in Hq. rewrite Hq, IH. reflexivity.
Qed.

Lemma gt_zero (x : score) (t : Q) :
  (0 <= t)%Q -> (forall q, x = Some q -> (q == 0)%Q) -> gt x t = false.
Proof.
  intros Ht Hx. destruct x as [q|]; [|reflexivity]. simpl.
  apply negb_false_iff. apply Qle_bool_iff. rewrite (Hx q eq_refl). exact Ht.
Qed.

Lemma self_score (d : FrameDifferencer) (f : frame) (q : Q) :
  diff_score (_calculate_diff d f f) = Some q -> (q == 0)%Q.
Proof.
  unfold _calculate_diff. simpl.
  pose proof (sum_Q_zero _ (abs_diff_self (gray f))) as Hs.
  unfold mean. destruct (List.concat (abs_diff (gray f) (gray f))) as [|a l]; [discriminate|].
  simpl option_map. intros H. injection H as <-.
  rewrite Hs. unfold Qdiv. ring.
Qed.

(** A frame equal to the analysed baseline does not run. *)
Lemma static_step (d : FrameDifferencer) (f last_frame : frame) :
  (0 <= change_threshold d)%Q -> (0 <= motion_threshold d)%Q ->
  _last_frame d = Some last_frame ->
  _last_vlm_frame d = Some (_downsample d f) ->
  exists result,
    should_run_vlm d f =
      Some ({| change_threshold := change_threshold d;
               motion_threshold := motion_threshold d;
               min_frames_between_vlm := min_frames_between_vlm d;
               downsample_factor := downsample_factor d;
               _last_frame := Some (_downsample d f);
               _last_vlm_frame := Some (_downsample d f);
               _frames_since_vlm := _frames_since_vlm d + 1 |},
            (false, result))
    /\ changed result = false
    /\ (forall q, diff_score result = Some q -> (q == 0)%Q).
Proof.
  intros Hc Hm Hl Hv. unfold should_run_vlm. rewrite Hl, Hv.
  pose proof (self_score d (_downsample d f)) as Hs.
  rewrite (gt_zero _ _ Hc Hs), (gt_zero _ _ Hm Hs).
  rewrite !andb_false_r. eexists. split; [reflexivity|]. simpl.
  split; [exact (gt_zero _ _ Hc Hs)|exact Hs].
Qed.

Lemma static_run (n : nat) (d : FrameDifferencer) (f last_frame : frame) :
  (0 <= change_threshold d)%Q -> (0 <= motion_threshold d)%Q ->
  _last_frame d = Some last_frame ->
  _last_vlm_frame d = Some (_downsample d f) ->
  exists d',
    submit_all (List.repeat f n) d = Some (List.repeat false n, d')
    /\ _frames_since_vlm d' = _frames_since_vlm d + Z.of_nat n
    /\ _last_vlm_frame d' = Some (_downsample d f).
Proof.
  revert d last_frame. induction n as [|n IH]; intros d last_frame Hc Hm Hl Hv.
  - exists d. simpl. split; [reflexivity|]. split; [lia|exact Hv].
  - destruct (static_step d f last_frame Hc Hm Hl Hv) as [result [Hstep _]].
    cbn [List.repeat submit_all]. rewrite Hstep.
    set (d1 := {| change_threshold := change_threshold d |}) in *.
    destruct (IH d1 (_downsample d f) Hc Hm eq_refl eq_refl) as [d' [Hrun [Hcount Hbase]]].
    exists d'. rewrite Hrun. split; [reflexivity|]. split; [|exact Hbase].
    rewrite Hcount. subst d1. cbn [_frames_since_vlm]. lia.
Qed.

(** X15.  A scene that does not change is analysed once: of the submissions of
    one frame to a differencer that was reset, whose thresholds are not
    negative, the first runs and no later one does, and the counter of
    frames since the analysis counts the later ones. *)
Theorem static_scene_is_analysed_once (d : FrameDifferencer) (f : frame) (n : nat) :
  (0 <= change_threshold d)%Q -> (0 <= motion_threshold d)%Q ->
  exists d',
    submit_all (List.repeat f (S n)) (reset d) = Some (true :: List.repeat false n, d')
    /\ _frames_since_vlm d' = Z.of_nat n
    /\ _last_vlm_frame d' = Some (_downsample d f).
Proof.
  intros Hc Hm.
  pose (d1 := {| change_threshold := change_threshold d;
                 motion_threshold := motion_threshold d;
                 min_frames_between_vlm := min_frames_between_vlm d;
                 downsample_factor := downsample_factor d;
                 _last_frame := Some (_downsample d f);
                 _last_vlm_frame := Some (_downsample d f);
                 _frames_since_vlm := 0 |}).
  destruct (static_run n d1 f (_downsample d f) Hc Hm eq_refl eq_refl)
    as [d' [Hrun [Hcount Hbase]]].
  exists d'. split; [|split; [|exact Hbase]].
  - change (submit_all (List.repeat f (S n)) (reset d))
      with (match submit_all (List.repeat f n) d1 with
            | Some (runs, d'') => Some (true :: runs, d'')
            | None => None
            end).
    rewrite Hrun. reflexivity.
  - rewrite Hcount. subst d1. cbn [_frames_since_vlm]. lia.
Qed.

Lemma static_scene_is_analysed_once_witness :
  exists d',
    submit_all (List.repeat (flat_frame 10) 4) (reset after_first_frame)
      = Some ([true; false; false; false], d')
    /\ _frames_since_vlm d' = 3
    /\ _last_vlm_frame d' = Some (_downsample after_first_frame (flat_frame 10)).
Proof.
  apply (static_scene_is_analysed_once after_first_frame (flat_frame 10) 3).
  - vm_compute. discriminate.
  - vm_compute. discriminate.
Defined.


(** *** The range of the score *)








Lemma flat_frame_uint8 (v : Z) : 0 <= v <= 255 -> uint8_frame (flat_frame v).
Proof.
  intros Hv. unfold uint8_frame, flat_frame.
  apply List.Forall_forall. intros row Hrow. apply repeat_spec in Hrow. subst row.
  apply List.Forall_forall. intros p Hp. apply repeat_spec in Hp. subst p.
  unfold uint8_pixel. simpl. lia.
Qed.



(** *** The count of motion regions *)

Lemma sum_Z_flags (l : list Z) :
  Forall (fun x => 0 <= x <= 1) l -> 0 <= sum_Z l <= Z.of_nat (List.length l).
Proof.
  induction 1 as [|x l Hx _ IH]; [simpl; lia|].
  cbn [sum_Z List.fold_right List.length]. fold (sum_Z l). lia.
Qed.

Lemma length_flat_map_const {A B : Type} (f : A -> list B) (l : list A) (n : nat) :
  (forall x, List.length (f x) = n) ->
  List.length (List.flat_map f l) = (List.length l * n)%nat.
Proof.
  intros Hf. induction l as [|x l IH]; [reflexivity|].
  cbn [List.flat_map List.length]. rewrite List.length_app, Hf, IH. lia.
Qed.

(** X17.  The count of motion regions is a number of cells of the grid of 8 by
    8: it lies between 0 and 64. *)
Theorem motion_regions_within_grid (d : FrameDifferencer) (f1 f2 : frame) :
  0 <= _count_motion_regions d f1 f2 <= 64.
Proof.
  unfold _count_motion_regions.
  lazymatch goal with
  | |- _ <= sum_Z ?l <= _ =>
      pose proof (sum_Z_flags l) as H; assert (Hl : List.length l = 64%nat)
  end.
  { rewrite (length_flat_map_const _ _ 8%nat); [rewrite List.length_seq; reflexivity|].
    intros i. rewrite List.length_map, List.length_seq. reflexivity. }
  rewrite Hl in H. change (Z.of_nat 64) with 64 in H. apply H.
  apply List.Forall_flat_map. apply List.Forall_forall. intros i _.
  apply List.Forall_map. apply List.Forall_forall. intros j _.
  destruct (gt _ _); lia.
Qed.

(** *** Downsampling *)

Lemma sum_Z_range (l : list Z) :
  Forall (fun x => 0 <= x <= 255) l -> 0 <= sum_Z l <= 255 * Z.of_nat (List.length l).
Proof.
  induction 1 as [|x l Hx _ IH]; [simpl; lia|].
  cbn [sum_Z List.fold_right List.length]. fold (sum_Z l). lia.
Qed.

Lemma channel_mean_range (l : list Z) :
  Forall (fun x => 0 <= x <= 255) l ->
  0 <= sum_Z l / Z.of_nat (List.length l) <= 255.
Proof.
  intros H. pose proof (sum_Z_range l H) as Hs.
  destruct l as [|x l]; [vm_compute; split; discriminate|].
  assert (Hn : 0 < Z.of_nat (List.length (x :: l))) by (cbn [List.length]; lia).
  split.
  - apply Z.div_pos; lia.
  - apply Z.div_le_upper_bound; lia.
Qed.

Lemma block_mean_uint8 (b : list pixel) :
  Forall uint8_pixel b -> uint8_pixel (block_mean b).
Proof.
  intros H. unfold uint8_pixel, block_mean. cbn [fst snd].
  assert (Hc : forall proj : pixel -> Z,
             (forall p, uint8_pixel p -> 0 <= proj p <= 255) ->
             0 <= sum_Z (List.map proj b) / Z.of_nat (List.length b) <= 255).
  { intros proj Hp. rewrite <- (List.length_map proj b). apply channel_mean_range.
    apply List.Forall_map. eapply List.Forall_impl; [|exact H]. exact Hp. }
  split; [|split]; apply Hc; intros p Hp; unfold uint8_pixel in Hp; tauto.
Qed.

Lemma block_uint8 (k i j : nat) (f : frame) :
  uint8_frame f -> Forall uint8_pixel (block k i j f).
Proof.
  intros H. unfold block. apply List.Forall_flat_map.
  apply Forall_take, Forall_drop.
  eapply List.Forall_impl; [|exact H]. intros row Hrow.
  apply Forall_take, Forall_drop. exact Hrow.
Qed.

(** X18.  With a factor above 1 the downsampled image of a uint8 image has the
    height and the width of the image divided by the factor, rounded
    down, and its entries are uint8. *)
Theorem downsample_shape_and_range (d : FrameDifferencer) (f : frame) :
  1 < downsample_factor d -> uint8_frame f ->
  height (_downsample d f) = (height f / Z.to_nat (downsample_factor d))%nat
  /\ Forall (fun row => List.length row = (width f / Z.to_nat (downsample_factor d))%nat)
       (_downsample d f)
  /\ uint8_frame (_downsample d f).
Proof.
  intros Hk Hf. unfold _downsample.
  assert (E : (downsample_factor d <=? 1) = false) by (apply Z.leb_gt; exact Hk).
  rewrite E. split; [|split].
  - unfold height at 1. rewrite List.length_map, List.length_seq. reflexivity.
  - apply List.Forall_map. apply List.Forall_forall. intros i _.
    rewrite List.length_map, List.length_seq. reflexivity.
  - unfold uint8_frame. apply List.Forall_map. apply List.Forall_forall. intros i _.
    apply List.Forall_map. apply List.Forall_forall. intros j _.
    apply block_mean_uint8. apply block_uint8. exact Hf.
Qed.

Lemma downsample_shape_and_range_witness :
  height (_downsample after_first_frame (flat_frame 100)) = 8%nat
  /\ Forall (fun row => List.length row = 8%nat) (_downsample after_first_frame (flat_frame 100))
  /\ uint8_frame (_downsample after_first_frame (flat_frame 100)).
Proof.
  apply (downsample_shape_and_range after_first_frame (flat_frame 100)).
  - vm_compute. reflexivity.
  - apply flat_frame_uint8. lia.
Defined.

(** *** Sequences of calls *)

Lemma should_run_vlm_well_formed (d : FrameDifferencer) (f : frame) :
  well_formed d ->
  exists d' out, should_run_vlm d f = Some (d', out) /\ well_formed d'.
Proof.
  intros [Hb Hc]. unfold should_run_vlm.
  destruct (_last_frame d) as [last_frame|] eqn:El.
  - destruct (_last_vlm_frame d) as [last_vlm_frame|] eqn:Ev.
    + eexists. eexists. split; [reflexivity|]. unfold well_formed. cbn [_last_frame _last_vlm_frame _frames_since_vlm].
      split.
      * split; [discriminate|]. destruct (if _ : bool then true else _); discriminate.
      * destruct (if _ : bool then true else _); lia.
    + destruct Hb as [_ Hb]. discriminate (Hb eq_refl).
  - eexists. eexists. split; [reflexivity|]. unfold well_formed. simpl.
    split; [split; discriminate|lia].
Qed.

Lemma reset_well_formed (d : FrameDifferencer) : well_formed (reset d).
Proof. unfold well_formed, reset. simpl. split; [tauto|lia]. Qed.

(** X19.  From a differencer whose two baselines are recorded together, as a
    new one, no sequence of calls of [should_run_vlm] and [reset] reaches
    a state with a previous frame and no analysed one: the baselines stay
    together, the counter stays non-negative, and no call fails for want
    of a baseline. *)
Theorem calls_keep_baselines_together (ops : list op) (d : FrameDifferencer) :
  well_formed d ->
  exists d', run_ops ops d = Some d' /\ well_formed d'.
Proof.
  revert d. induction ops as [|o ops IH]; intros d Hd.
  - exists d. split; [reflexivity|exact Hd].
  - destruct o as [f|]; cbn [run_ops].
    + destruct (should_run_vlm_well_formed d f Hd) as [d1 [out [E H1]]].
      rewrite E. exact (IH d1 H1).
    + exact (IH (reset d) (reset_well_formed d)).
Qed.

Lemma calls_keep_baselines_together_witness :
  exists d',
    run_ops [Submit (flat_frame 10); Reset; Submit (flat_frame 100)]
      (init (5 # 100) (2 # 100) 5 4) = Some d'
    /\ well_formed d'.
Proof.
  apply (calls_keep_baselines_together
           [Submit (flat_frame 10); Reset; Submit (flat_frame 100)]
           (init (5 # 100) (2 # 100) 5 4)).
  unfold well_formed. simpl. split; [tauto|lia].
Defined.

(** *** The decision and the baseline *)

(** X20.  On a frame after the first, with [motion_threshold] not above
    [change_threshold]: the frame runs exactly when its divergence from
    the last analysed frame exceeds [motion_threshold] and, besides,
    enough frames have elapsed, or the divergence exceeds
    [change_threshold], or three motion regions are active.  A frame
    that runs becomes the analysed baseline and restarts the counter; one
    that does not leaves the baseline in place and is counted. *)
Theorem run_needs_motion_and_moves_baseline (d d' : FrameDifferencer)
    (f last_frame last_vlm_frame : frame) (run : bool) (result : FrameDiffResult) :
  _last_frame d = Some last_frame ->
  _last_vlm_frame d = Some last_vlm_frame ->
  (motion_threshold d <= change_threshold d)%Q ->
  should_run_vlm d f = Some (d', (run, result)) ->
  (run = true <->
     gt (diff_score result) (motion_threshold d) = true
     /\ (min_frames_between_vlm d <= _frames_since_vlm d + 1
         \/ gt (diff_score result) (change_threshold d) = true
         \/ 3 <= motion_regions result))
  /\ _last_frame d' = Some (_downsample d f)
  /\ (run = true ->
      _last_vlm_frame d' = Some (_downsample d f) /\ _frames_since_vlm d' = 0)
  /\ (run = false ->
      _last_vlm_frame d' = Some last_vlm_frame
      /\ _frames_since_vlm d' = _frames_since_vlm d + 1).
Proof.
  intros Hl Hv Hbars H.
  destruct (FrameDiffFacts.should_run_vlm_decision d d' f last_frame last_vlm_frame
              run result Hl Hv H) as [_ [_ Hrun]].
  split.
  - rewrite Hrun. rewrite !orb_true_iff, !andb_true_iff, Z.leb_le, Z.leb_le. split.
    + intros [[[Hn Hm]|Hc]|[Hr Hm]].
      * split; [exact Hm|]. tauto.
      * split; [exact (FrameDiffFacts.gt_le_trans _ _ _ Hbars Hc)|]. tauto.
      * split; [exact Hm|]. tauto.
    + intros [Hm [Hn|[Hc|Hr]]]; tauto.
  - unfold should_run_vlm in H. rewrite Hl, Hv in H.
    injection H as Hd Hr _. subst d'. cbn [_last_frame _last_vlm_frame _frames_since_vlm].
    rewrite Hr. split; [reflexivity|]. split; intros ->; split; reflexivity.
Qed.

Lemma run_needs_motion_and_moves_baseline_witness :
  exists d' result,
    should_run_vlm after_first_frame (flat_frame 100) = Some (d', (true, result))
    /\ gt (diff_score result) (motion_threshold after_first_frame) = true
    /\ _last_vlm_frame d' = Some (_downsample after_first_frame (flat_frame 100))
    /\ _frames_since_vlm d' = 0.
Proof.
  destruct (should_run_vlm after_first_frame (flat_frame 100))
    as [[d' [run result]]|] eqn:E; [|vm_compute in E; discriminate E].
  assert (Hrun : run = true).
  { vm_compute in E. injection E as _ Hr _. symmetry. exact Hr. }
  subst run. exists d', result. split; [reflexivity|].
  destruct (run_needs_motion_and_moves_baseline after_first_frame d' (flat_frame 100)
              (_downsample after_first_frame (flat_frame 10))
              (_downsample after_first_frame (flat_frame 10)) true result
              eq_refl eq_refl) as [Hiff [_ [Hyes _]]].
  - vm_compute. discriminate.
  - exact E.
  - split; [exact (proj1 (proj1 Hiff eq_refl))|]. exact (Hyes eq_refl).
Defined.

End FrameMore.

(** ** More on the echo coordinator *)

Module EchoMore.
Import Echo EchoRuns.

Lemma run_timers_cons (i : nat) (sched : list nat) (m : EchoCancellationManager) :
  run_timers (i :: sched) m = run_timers sched (default m (timer_step i m)).
Proof. reflexivity. Qed.

Lemma run_timers_app (s1 s2 : list nat) (m : EchoCancellationManager) :
  run_timers (s1 ++ s2) m = run_timers s2 (run_timers s1 m).
Proof.
  revert m. induction s1 as [|i s1 IH]; intros m; [reflexivity|].
  cbn [app]. rewrite !run_timers_cons. apply IH.
Qed.

(** *** Timer threads and the listening state *)

Lemma timer_step_enters_no_listening (i : nat) (m m' : EchoCancellationManager) :
  timer_step i m = Some m' -> _state m' = LISTENING -> _state m = LISTENING.
Proof.
  unfold timer_step. intros H.
  destruct (threads m !! i) as [[]|]; try discriminate H.
  - destruct (_stop_interrupt_checks m); injection H as <-; intros Hl; exact Hl.
  - destruct (decide (_state m = SPEAKING)) as [E|_]; injection H as <-; intros Hl.
    + discriminate Hl.
    + exact Hl.
  - injection H as <-. intros Hl. exact Hl.
  - injection H as <-. intros Hl. exact Hl.
  - destruct (decide (_state m = INTERRUPT_CHECK)) as [E|_]; injection H as <-; intros Hl.
    + discriminate Hl.
    + exact Hl.
  - injection H as <-. intros Hl. exact Hl.
Qed.

(** X21.  Timer threads neither begin nor end a listening period: whatever
    their steps, the state is LISTENING afterwards exactly when it was
    LISTENING before, so only [stop_speaking] brings the manager back to
    LISTENING. *)
Theorem timers_neither_enter_nor_leave_listening (sched : list nat)
    (m : EchoCancellationManager) :
  _state (run_timers sched m) = LISTENING <-> _state m = LISTENING.
Proof.
  split; [|apply EchoFacts.run_timers_keeps_listening].
  revert m. induction sched as [|i sched IH]; intros m H; [exact H|].
  rewrite run_timers_cons in H. apply IH in H.
  destruct (timer_step i m) as [m'|] eqn:E; [|exact H].
  exact (timer_step_enters_no_listening i m m' E H).
Qed.

(** *** The end of a timer thread *)

Lemma timer_step_keeps_stop (j : nat) (m : EchoCancellationManager) :
  _stop_interrupt_checks (default m (timer_step j m)) = _stop_interrupt_checks m.
Proof.
  unfold timer_step.
  destruct (threads m !! j) as [[]|]; try reflexivity.
  - destruct (_stop_interrupt_checks m) eqn:E; simpl; exact E.
  - destruct (decide (_state m = SPEAKING)); reflexivity.
  - destruct (decide (_state m = INTERRUPT_CHECK)); reflexivity.
Qed.

Lemma timer_step_other (i j : nat) (m : EchoCancellationManager) :
  i <> j -> threads (default m (timer_step j m)) !! i = threads m !! i.
Proof.
  intros Hne. unfold timer_step.
  destruct (threads m !! j) as [[]|]; try reflexivity;
    repeat match goal with
           | |- context [if ?b then _ else _] => destruct b
           end;
    cbn [from_option id threads set_pc set_state _notify_state_change];
    apply list_lookup_insert_ne; congruence.
Qed.

Lemma timer_step_own (i : nat) (pc : timer_pc) (m : EchoCancellationManager) :
  _stop_interrupt_checks m = true -> threads m !! i = Some pc ->
  exists pc',
    threads (default m (timer_step i m)) !! i = Some pc'
    /\ (steps_left pc' <= Nat.pred (steps_left pc))%nat.
Proof.
  intros Hs Hl. pose proof (lookup_lt_Some _ _ _ Hl) as Hi.
  unfold timer_step. rewrite Hl, Hs.
  destruct pc;
    repeat match goal with
           | |- context [if ?b then _ else _] => destruct b
           end;
    cbn [from_option id threads set_pc set_state _notify_state_change];
    try (rewrite list_lookup_insert_eq by exact Hi);
    try (eexists; split; [reflexivity|simpl; lia]).
  exists Finished. split; [exact Hl|simpl; lia].
Qed.

Lemma timer_countdown (i : nat) (sched : list nat) :
  forall (m : EchoCancellationManager) (pc : timer_pc) (k : nat),
    _stop_interrupt_checks m = true -> threads m !! i = Some pc ->
    (steps_left pc <= k)%nat -> (k <= List.count_occ Nat.eq_dec sched i)%nat ->
    threads (run_timers sched m) !! i = Some Finished.
Proof.
  induction sched as [|j sched IH]; intros m pc k Hs Hl Hk Hc.
  - cbn [List.count_occ] in Hc. destruct pc; simpl in Hk; try lia. exact Hl.
  - rewrite run_timers_cons. cbn [List.count_occ] in Hc.
    destruct (Nat.eq_dec j i) as [->|Hne].
    + destruct (timer_step_own i pc m Hs Hl) as [pc' [Hl' Hr]].
      apply (IH _ pc' (Nat.pred k)); [|exact Hl'|lia|lia].
      rewrite timer_step_keeps_stop. exact Hs.
    + apply (IH _ pc k); [|  |exact Hk|exact Hc].
      * rewrite timer_step_keeps_stop. exact Hs.
      * rewrite timer_step_other by congruence. exact Hl.
Qed.

(** X22.  Once the stop event is set a timer thread has at most six steps left:
    whatever it was doing and however the steps of the other timer
    threads are interleaved, after six steps of its own it has finished. *)
Theorem timer_ends_within_six_steps (i : nat) (sched : list nat)
    (m : EchoCancellationManager) :
  _stop_interrupt_checks m = true -> (i < List.length (threads m))%nat ->
  (6 <= List.count_occ Nat.eq_dec sched i)%nat ->
  threads (run_timers sched m) !! i = Some Finished.
Proof.
  intros Hs Hi Hc. destruct (lookup_lt_is_Some_2 _ _ Hi) as [pc Hl].
  apply (timer_countdown i sched m pc 6 Hs Hl); [|exact Hc].
  destruct pc; simpl; lia.
Qed.


Lemma timer_ends_within_six_steps_witness :
  threads (run_timers [0; 0; 0; 0; 0; 0]%nat
             (stop_speaking [] (run_timers [0; 0; 0]%nat (start_speaking (init true)))))
    !! 0%nat = Some Finished.
Proof.
  apply (timer_ends_within_six_steps 0 [0; 0; 0; 0; 0; 0]%nat
           (stop_speaking [] (run_timers [0; 0; 0]%nat (start_speaking (init true))))).
  - reflexivity.
  - vm_compute. lia.
  - vm_compute. lia.
Defined.

(** *** The notifications of an utterance *)

Lemma check_window_opens (i : nat) (m : EchoCancellationManager) :
  between_turns i m ->
  exists m',
    run_timers [i; i; i] m = m'
    /\ threads m' !! i = Some AtSleep
    /\ _stop_interrupt_checks m' = false
    /\ _state m' = INTERRUPT_CHECK
    /\ on_state_change m' = true
    /\ _interrupt_thread m' = _interrupt_thread m
    /\ notified m' = notified m ++ [INTERRUPT_CHECK].
Proof.
  intros [Hl [Hs [Hst Hcb]]]. pose proof (lookup_lt_Some _ _ _ Hl) as Hi.
  assert (E : run_timers [i; i; i] m
              = set_pc i AtSleep
                  (_notify_state_change INTERRUPT_CHECK
                     (set_pc i AtNotifyCheck (set_state INTERRUPT_CHECK
                        (set_pc i AtCheckLock m))))).
  { rewrite run_timers_cons. unfold timer_step at 1. rewrite Hl, Hs.
    cbn [from_option id].
    rewrite run_timers_cons. unfold timer_step at 1.
    cbn [threads _state set_pc]. rewrite list_lookup_insert_eq by exact Hi.
    destruct (decide (_state m = SPEAKING)) as [_|Hn]; [|contradiction].
    cbn [from_option id].
    rewrite run_timers_cons. unfold timer_step at 1.
    cbn [threads _state set_pc set_state].
    rewrite list_lookup_insert_eq by (rewrite length_insert; exact Hi).
    reflexivity. }
  eexists. split; [exact E|].
  cbn [threads _state _stop_interrupt_checks on_state_change _interrupt_thread notified
       set_pc set_state _notify_state_change].
  rewrite Hcb.
  rewrite list_lookup_insert_eq by (rewrite !length_insert; exact Hi).
  repeat split; first [reflexivity|assumption].
Qed.

Lemma check_window_closes (i : nat) (m : EchoCancellationManager) :
  threads m !! i = Some AtSleep -> _stop_interrupt_checks m = false ->
  _state m = INTERRUPT_CHECK -> on_state_change m = true ->
  exists m',
    run_timers [i; i; i] m = m'
    /\ between_turns i m'
    /\ _interrupt_thread m' = _interrupt_thread m
    /\ notified m' = notified m ++ [SPEAKING].
Proof.
  intros Hl Hs Hst Hcb. pose proof (lookup_lt_Some _ _ _ Hl) as Hi.
  assert (E : run_timers [i; i; i] m
              = set_pc i AtWait
                  (_notify_state_change SPEAKING
                     (set_pc i AtNotifySpeaking (set_state SPEAKING
                        (set_pc i AtReturnLock m))))).
  { rewrite run_timers_cons. unfold timer_step at 1. rewrite Hl.
    cbn [from_option id].
    rewrite run_timers_cons. unfold timer_step at 1.
    cbn [threads _state set_pc]. rewrite list_lookup_insert_eq by exact Hi.
    destruct (decide (_state m = INTERRUPT_CHECK)) as [_|Hn]; [|contradiction].
    cbn [from_option id].
    rewrite run_timers_cons. unfold timer_step at 1.
    cbn [threads _state set_pc set_state].
    rewrite list_lookup_insert_eq by (rewrite length_insert; exact Hi).
    reflexivity. }
  eexists. split; [exact E|]. unfold between_turns.
  cbn [threads _state _stop_interrupt_checks on_state_change _interrupt_thread notified
       set_pc set_state _notify_state_change].
  rewrite Hcb.
  rewrite list_lookup_insert_eq by (rewrite !length_insert; exact Hi).
  repeat split; first [reflexivity|assumption].
Qed.

Lemma turns_notify (i k : nat) :
  forall m : EchoCancellationManager,
    between_turns i m ->
    between_turns i (run_timers (List.concat (List.repeat (one_turn i) k)) m)
    /\ _interrupt_thread (run_timers (List.concat (List.repeat (one_turn i) k)) m)
       = _interrupt_thread m
    /\ notified (run_timers (List.concat (List.repeat (one_turn i) k)) m)
       = notified m ++ check_windows k.
Proof.
  induction k as [|k IH]; intros m Hm.
  - cbn [List.repeat List.concat run_timers check_windows].
    rewrite List.app_nil_r. split; [exact Hm|]. split; reflexivity.
  - cbn [List.repeat List.concat check_windows]. rewrite run_timers_app.
    change (run_timers (one_turn i) m)
      with (run_timers ([i; i; i] ++ [i; i; i])%list m).
    rewrite run_timers_app.
    destruct (check_window_opens i m Hm) as [m1 [-> [Hl1 [Hs1 [Hst1 [Hcb1 [Ht1 Hn1]]]]]]].
    destruct (check_window_closes i m1 Hl1 Hs1 Hst1 Hcb1) as [m2 [-> [Hm2 [Ht2 Hn2]]]].
    destruct (IH m2 Hm2) as [Hb [Ht Hn]].
    split; [exact Hb|]. split; [congruence|].
    rewrite Hn, Hn2, Hn1. rewrite <- !List.app_assoc. reflexivity.
Qed.


Lemma start_speaking_between_turns (m : EchoCancellationManager) :
  _state m <> SPEAKING -> on_state_change m = true ->
  between_turns (List.length (threads m)) (start_speaking m)
  /\ _interrupt_thread (start_speaking m) = Some (List.length (threads m))
  /\ notified (start_speaking m) = notified m ++ [SPEAKING].
Proof.
  intros Hn Hcb. unfold start_speaking, between_turns.
  destruct (decide (_state m = SPEAKING)) as [E|_]; [contradiction|].
  cbn [threads _state _stop_interrupt_checks on_state_change _interrupt_thread notified
       set_state _notify_state_change].
  rewrite Hcb. repeat split; try reflexivity.
  rewrite lookup_app_r by lia. rewrite Nat.sub_diag. reflexivity.
Qed.

(** X23.  An utterance without interruption, on a manager with a callback that
    is not speaking: [start_speaking], [k] turns of the loop of the timer
    thread it starts, and a [stop_speaking] during whose join the thread
    takes its last step.  The callback hears SPEAKING, then
    INTERRUPT_CHECK and SPEAKING for each check window, then LISTENING;
    the microphone is closed between the windows and open in them and
    after the stop; the thread has finished at the end. *)
Theorem utterance_notifications (m : EchoCancellationManager) (k : nat) :
  _state m <> SPEAKING -> on_state_change m = true ->
  let i := List.length (threads m) in
  let speaking := run_timers (List.concat (List.repeat (one_turn i) k)) (start_speaking m) in
  notified speaking = notified m ++ [SPEAKING] ++ check_windows k
  /\ is_mic_active speaking = false
  /\ is_mic_active (run_timers [i; i; i] speaking) = true
  /\ notified (stop_speaking [i] speaking)
     = notified m ++ [SPEAKING] ++ check_windows k ++ [LISTENING]
  /\ threads (stop_speaking [i] speaking) !! i = Some Finished
  /\ is_mic_active (stop_speaking [i] speaking) = true.
Proof.
  intros Hn Hcb i speaking.
  destruct (start_speaking_between_turns m Hn Hcb) as [Hb0 [Ht0 Hn0]].
  destruct (turns_notify i k (start_speaking m) Hb0) as [Hb [Ht Hnot]].
  fold speaking in Hb, Ht, Hnot. rewrite Ht0 in Ht. rewrite Hn0 in Hnot.
  rewrite <- List.app_assoc in Hnot.
  destruct Hb as [Hl [Hs [Hst Hcb']]].
  pose proof (lookup_lt_Some _ _ _ Hl) as Hi.
  split; [exact Hnot|]. split; [unfold is_mic_active, state; rewrite Hst; reflexivity|].
  split.
  { destruct (check_window_opens i speaking (conj Hl (conj Hs (conj Hst Hcb'))))
      as [m1 [-> [_ [_ [Hst1 _]]]]].
    unfold is_mic_active, state. rewrite Hst1. reflexivity. }
  assert (E : stop_speaking [i] speaking
              = _notify_state_change LISTENING
                  (set_state LISTENING
                     {| on_state_change := on_state_change speaking;
                        _state := _state speaking;
                        _interrupt_thread := None;
                        _stop_interrupt_checks := true;
                        threads := <[i := Finished]> (threads speaking);
                        notified := notified speaking |})).
  { unfold stop_speaking. cbn [_interrupt_thread]. rewrite Ht.
    rewrite run_timers_cons. unfold timer_step.
    cbn [threads _stop_interrupt_checks]. rewrite Hl.
    reflexivity. }
  rewrite E.
  cbn [threads notified on_state_change set_state _notify_state_change].
  rewrite Hcb', Hnot. split; [|split].
  - rewrite <- !List.app_assoc. reflexivity.
  - apply list_lookup_insert_eq. exact Hi.
  - reflexivity.
Qed.

Lemma utterance_notifications_witness :
  notified (stop_speaking [0%nat]
              (run_timers (List.concat (List.repeat (one_turn 0) 2))
                 (start_speaking (init true))))
  = [SPEAKING; INTERRUPT_CHECK; SPEAKING; INTERRUPT_CHECK; SPEAKING; LISTENING].
Proof.
  refine (proj1 (proj2 (proj2 (proj2 (utterance_notifications (init true) 2 _ _))))).
  - discriminate.
  - reflexivity.
Defined.

End EchoMore.

(** ** More on the playback controller *)

Module PiperMore.
Import Piper PiperRuns.

(** *** After an interrupt *)

Lemma interrupt_silenced (t : PiperTTS) :
  about_to_play t = false -> silenced (interrupt t).
Proof.
  intros Ha. unfold silenced. split; [reflexivity|]. split; [reflexivity|].
  split; [exact Ha|].
  pose proof (proj2 (PiperFacts.interrupt_silences t)) as H. unfold is_speaking in H.
  destruct (process_running (interrupt t)); [discriminate H|reflexivity].
Qed.

Lemma starts_interrupt (t : PiperTTS) : starts (interrupt t) = starts t.
Proof.
  unfold starts, interrupt. cbn [observed].
  rewrite !List.filter_app, !List.length_app.
  destruct (match _playback_process t with
            | Some p => if process_running t then Some p else None
            | None => None
            end); simpl; lia.
Qed.

Lemma silenced_playback (t t' : PiperTTS) :
  silenced t -> playback_step t = Some t' -> silenced t' /\ starts t' = starts t.
Proof.
  intros [Hi [Hq [Ha Hp]]] H. unfold playback_step in H.
  destruct (_playback_thread t) as [[| path | path | path | path | path | path]|] eqn:Et;
    try discriminate H.
  - rewrite Hq in H. discriminate H.
  - rewrite Hi in H. injection H as <-.
    unfold silenced, starts, about_to_play, process_running in *. simpl. auto.
  - rewrite Hi in H. injection H as <-.
    unfold silenced, starts, about_to_play, process_running in *. simpl. auto.
  - unfold about_to_play in Ha. rewrite Et in Ha. discriminate Ha.
  - rewrite Hp in H. injection H as <-.
    unfold silenced, starts, about_to_play, process_running in *. simpl. auto.
  - injection H as <-.
    unfold silenced, starts, about_to_play, process_running in *. simpl. auto.
  - injection H as <-.
    unfold silenced, starts, about_to_play, process_running in *. simpl.
    rewrite List.filter_app, List.length_app. simpl. repeat split; auto; lia.
Qed.

Lemma silenced_process_exit (p : nat) (t t' : PiperTTS) :
  silenced t -> process_exit p t = Some t' -> silenced t' /\ starts t' = starts t.
Proof.
  intros [Hi [Hq [Ha Hp]]] H. unfold process_exit in H.
  destruct (processes t !! p) as [[]|] eqn:El; try discriminate H.
  injection H as <-. split; [|reflexivity].
  unfold silenced, about_to_play, process_running in *. simpl.
  repeat split; auto.
  destruct (_playback_process t) as [h|]; [|reflexivity].
  destruct (decide (h = p)) as [->|Hne].
  - rewrite list_lookup_insert_eq by (eapply lookup_lt_Some; exact El). reflexivity.
  - rewrite list_lookup_insert_ne by congruence. exact Hp.
Qed.

Lemma silenced_run (mvs : list move) :
  forall t t' : PiperTTS,
    silenced t -> forallb background mvs = true -> run mvs t = Some t' ->
    silenced t' /\ starts t' = starts t.
Proof.
  induction mvs as [|mv mvs IH]; intros t t' Hs Hb H.
  - injection H as <-. split; [exact Hs|reflexivity].
  - cbn [forallb] in Hb. apply andb_true_iff in Hb. destruct Hb as [Hmv Hb].
    cbn [run] in H. destruct (step mv t) as [t1|] eqn:E; [|discriminate H].
    assert (H1 : silenced t1 /\ starts t1 = starts t).
    { destruct mv as [text synthesized| | |p]; try discriminate Hmv.
      - exact (silenced_playback t t1 Hs E).
      - exact (silenced_process_exit p t t1 Hs E). }
    destruct H1 as [Hs1 Hn1]. destruct (IH t1 t' Hs1 Hb H) as [Hs' Hn'].
    split; [exact Hs'|congruence].
Qed.

(** X24.  An interrupt holds unless the background thread stands right before
    the start of [afplay]: from every other position, whatever the
    background thread and the processes do after [interrupt] has
    returned, no playback is started, the queue stays empty and
    [is_speaking] stays false, until the next [speak]. *)
Theorem interrupt_holds_unless_about_to_play (t t' : PiperTTS) (mvs : list move) :
  about_to_play t = false -> forallb background mvs = true ->
  run mvs (interrupt t) = Some t' ->
  starts t' = starts t /\ _audio_queue t' = [] /\ is_speaking t' = false.
Proof.
  intros Ha Hb H.
  destruct (silenced_run mvs (interrupt t) t' (interrupt_silenced t Ha) Hb H)
    as [[_ [Hq [_ Hp]]] Hn].
  split; [rewrite Hn; apply starts_interrupt|]. split; [exact Hq|].
  unfold is_speaking. rewrite Hp, Hq. reflexivity.
Qed.


Lemma interrupt_holds_unless_about_to_play_witness :
  exists t',
    run [Playback; Playback] (interrupt before_play_check) = Some t'
    /\ starts t' = starts before_play_check
    /\ _audio_queue t' = []
    /\ is_speaking t' = false.
Proof.
  destruct (run [Playback; Playback] (interrupt before_play_check)) as [t'|] eqn:E;
    [|vm_compute in E; discriminate E].
  exists t'. split; [reflexivity|].
  exact (interrupt_holds_unless_about_to_play before_play_check t' [Playback; Playback]
           eq_refl eq_refl E).
Defined.

(** *** One player at a time *)

Lemma init_alone : handle_runs_alone init.
Proof. intros p H. discriminate H. Qed.

Lemma speak_alone (text : string) (synthesized : option string) (t : PiperTTS) :
  handle_runs_alone t -> handle_runs_alone (speak_nonblocking text synthesized t).
Proof.
  intros Ht p Hp. unfold speak_nonblocking in *.
  destruct (String.eqb (PyStr.strip text) EmptyString); [exact (Ht p Hp)|].
  destruct synthesized as [audio_path|]; cbn in *; [|exact (Ht p Hp)].
  destruct (Ht p Hp) as [Hh [path Hth]]. split; [exact Hh|].
  exists path. rewrite Hth. reflexivity.
Qed.

Lemma interrupt_alone (t : PiperTTS) :
  handle_runs_alone t -> handle_runs_alone (interrupt t).
Proof.
  intros Ht p Hp. unfold interrupt in *. cbn in *.
  assert (Hold : processes t !! p = Some Running).
  { destruct (_playback_process t) as [h|]; [|exact Hp].
    destruct (process_running t); [|exact Hp].
    destruct (decide (p = h)) as [->|Hne].
    - apply list_lookup_insert_Some in Hp. destruct Hp as [[_ [Hp _]]|[Hn _]];
        [discriminate Hp|contradiction].
    - rewrite list_lookup_insert_ne in Hp by congruence. exact Hp. }
  exact (Ht p Hold).
Qed.

Lemma process_exit_alone (q : nat) (t t' : PiperTTS) :
  handle_runs_alone t -> process_exit q t = Some t' -> handle_runs_alone t'.
Proof.
  intros Ht H p Hp. unfold process_exit in H.
  destruct (processes t !! q) as [[]|] eqn:El; try discriminate H.
  injection H as <-. cbn in *.
  assert (Hold : processes t !! p = Some Running).
  { destruct (decide (p = q)) as [->|Hne].
    - apply list_lookup_insert_Some in Hp. destruct Hp as [[_ [Hp _]]|[Hn _]];
        [discriminate Hp|contradiction].
    - rewrite list_lookup_insert_ne in Hp by congruence. exact Hp. }
  exact (Ht p Hold).
Qed.

Lemma playback_alone (t t' : PiperTTS) :
  handle_runs_alone t -> playback_step t = Some t' -> handle_runs_alone t'.
Proof.
  intros Ht H.
  assert (Hwait : forall p, processes t !! p = Some Running ->
                    exists path, _playback_thread t = Some (AtProcessWait path)
                                 /\ process_running t = true).
  { intros p Hp. destruct (Ht p Hp) as [Hh [path Hth]]. exists path.
    split; [exact Hth|]. unfold process_running. rewrite Hh, Hp. reflexivity. }
  unfold playback_step in H.
  destruct (_playback_thread t) as [[| path | path | path | path | path | path]|] eqn:Et;
    try discriminate H.
  - destruct (_audio_queue t) as [|audio_path rest]; [discriminate H|].
    injection H as <-. intros p Hp. cbn in Hp.
    destruct (Hwait p Hp) as [path [Hth _]]. discriminate Hth.
  - intros p Hp.
    assert (Hold : processes t !! p = Some Running).
    { destruct (negb (_interrupted t)); injection H as <-; exact Hp. }
    destruct (Hwait p Hold) as [path' [Hth _]]. discriminate Hth.
  - intros p Hp.
    assert (Hold : processes t !! p = Some Running).
    { destruct (_interrupted t); injection H as <-; exact Hp. }
    destruct (Hwait p Hold) as [path' [Hth _]]. discriminate Hth.
  - injection H as <-. intros p Hp. cbn in *.
    apply lookup_app_Some in Hp. destruct Hp as [Hp|[Hge Hp]].
    + destruct (Hwait p Hp) as [path' [Hth _]]. discriminate Hth.
    + assert (p = List.length (processes t)).
      { apply lookup_lt_Some in Hp. cbn in Hp. lia. }
      subst p. split; [reflexivity|]. exists path. reflexivity.
  - destruct (process_running t) eqn:Er; [discriminate H|].
    injection H as <-. intros p Hp. cbn in Hp.
    destruct (Hwait p Hp) as [_ [_ Hr]]. congruence.
  - injection H as <-. intros p Hp. cbn in Hp.
    destruct (Hwait p Hp) as [path' [Hth _]]. discriminate Hth.
  - injection H as <-. intros p Hp. cbn in Hp.
    destruct (Hwait p Hp) as [path' [Hth _]]. discriminate Hth.
Qed.

Lemma run_alone (mvs : list move) :
  forall t t' : PiperTTS,
    handle_runs_alone t -> run mvs t = Some t' -> handle_runs_alone t'.
Proof.
  induction mvs as [|mv mvs IH]; intros t t' Ht H.
  - injection H as <-. exact Ht.
  - cbn [run] in H. destruct (step mv t) as [t1|] eqn:E; [|discriminate H].
    apply (IH t1 t'); [|exact H].
    destruct mv as [text synthesized| | |p]; cbn [step] in E.
    + injection E as <-. apply speak_alone. exact Ht.
    + injection E as <-. apply interrupt_alone. exact Ht.
    + exact (playback_alone t t1 Ht E).
    + exact (process_exit_alone p t t1 Ht E).
Qed.

Lemma no_running_filter (l : list process) :
  (forall p, l !! p <> Some Running) -> List.filter is_running l = [].
Proof.
  induction l as [|x l IH]; intros H; [reflexivity|].
  cbn [List.filter]. destruct x.
  - exfalso. exact (H 0%nat eq_refl).
  - cbn [is_running]. apply IH. intros p. exact (H (S p)).
Qed.

Lemma one_running_filter (l : list process) :
  (forall p q, l !! p = Some Running -> l !! q = Some Running -> p = q) ->
  (List.length (List.filter is_running l) <= 1)%nat.
Proof.
  induction l as [|x l IH]; intros H; [simpl; lia|].
  cbn [List.filter]. destruct x; cbn [is_running].
  - rewrite no_running_filter; [simpl; lia|].
    intros p Hp. specialize (H 0%nat (S p) eq_refl Hp). discriminate H.
  - apply IH. intros p q Hp Hq. specialize (H (S p) (S q) Hp Hq). lia.
Qed.

(** X25.  Under non-blocking [speak], [interrupt], the steps of the background
    thread and the ends of processes, in any order from a new
    controller: at most one [afplay] process runs at a time, and
    [is_speaking] is true while one does. *)
Theorem at_most_one_player (mvs : list move) (t : PiperTTS) :
  run mvs init = Some t ->
  (running_processes t <= 1)%nat
  /\ ((0 < running_processes t)%nat -> is_speaking t = true).
Proof.
  intros H. pose proof (run_alone mvs init t init_alone H) as Ht. split.
  - unfold running_processes. apply one_running_filter. intros p q Hp Hq.
    destruct (Ht p Hp) as [Hh _]. destruct (Ht q Hq) as [Hh' _]. congruence.
  - intros Hpos. unfold is_speaking.
    destruct (process_running t) eqn:Er; [reflexivity|]. exfalso.
    unfold running_processes in Hpos. rewrite no_running_filter in Hpos;
      [simpl in Hpos; lia|].
    intros p Hp. destruct (Ht p Hp) as [Hh _].
    unfold process_running in Er. rewrite Hh, Hp in Er. discriminate Er.
Qed.

Lemma at_most_one_player_witness :
  exists t,
    run [Speak "hello" (Some "hello.wav"); Playback; Playback; Playback; Playback;
         Speak "again" (Some "again.wav")] init = Some t
    /\ running_processes t = 1%nat
    /\ is_speaking t = true.
Proof.
  destruct (run [Speak "hello" (Some "hello.wav"); Playback; Playback; Playback; Playback;
                 Speak "again" (Some "again.wav")] init) as [t|] eqn:E;
    [|vm_compute in E; discriminate E].
  exists t. split; [reflexivity|].
  destruct (at_most_one_player _ t E) as [Hle Hsp].
  assert (Hn : running_processes t = 1%nat).
  { vm_compute in E. injection E as <-. reflexivity. }
  split; [exact Hn|]. apply Hsp. rewrite Hn. lia.
Defined.

(** *** Playback in the order of the queue *)

Lemma run_app (m1 m2 : list move) (t : PiperTTS) :
  run (m1 ++ m2) t = match run m1 t with Some t1 => run m2 t1 | None => None end.
Proof.
  revert t. induction m1 as [|mv m1 IH]; intros t; [reflexivity|].
  cbn [app run]. destruct (step mv t); [apply IH|reflexivity].
Qed.

Lemma play_one_run (t : PiperTTS) (path : string) (rest : list string) :
  _playback_thread t = Some AtGet -> _interrupted t = false ->
  _audio_queue t = path :: rest ->
  exists t1,
    run (play_one (List.length (processes t))) t = Some t1
    /\ _playback_thread t1 = Some AtGet
    /\ _interrupted t1 = false
    /\ _audio_queue t1 = rest
    /\ List.length (processes t1) = S (List.length (processes t))
    /\ process_running t1 = false
    /\ observed t1 = observed t ++ [PlaybackStarted path; FileRemoved path].
Proof.
  intros Hth Hi Hq. unfold play_one. eexists. split.
  { cbn [run step].
  unfold playback_step at 1. rewrite Hth, Hq.
  cbn [_playback_thread _interrupted _audio_queue with_thread].
  unfold playback_step at 1.
  cbn [_playback_thread _interrupted _audio_queue with_thread]. rewrite ?Hi.
  cbn [negb _playback_thread _interrupted _audio_queue with_thread].
  unfold playback_step at 1.
  cbn [_playback_thread _interrupted _audio_queue with_thread]. rewrite ?Hi.
  cbn [_playback_thread _interrupted _audio_queue with_thread].
  unfold playback_step at 1.
  cbn [_playback_thread _interrupted _audio_queue _playback_process processes observed
       with_thread].
  unfold process_exit at 1. cbn [processes].
  rewrite list_lookup_middle by reflexivity.
  unfold playback_step at 1.
  cbn [_playback_thread _interrupted _audio_queue _playback_process processes observed
       with_thread].
  unfold process_running at 1. cbn [_playback_process processes].
  rewrite list_lookup_insert_eq by (rewrite List.length_app; simpl; lia).
  unfold playback_step at 1.
  cbn [_playback_thread _interrupted _audio_queue _playback_process processes observed
       with_thread].
  unfold playback_step at 1.
  cbn [_playback_thread _interrupted _audio_queue _playback_process processes observed
       with_thread].
  reflexivity. }
  cbn [_playback_thread _interrupted _audio_queue processes observed with_thread].
  unfold process_running. cbn [_playback_process].
  rewrite length_insert, List.length_app. cbn [List.length].
  rewrite <- List.app_assoc.
  repeat split; try reflexivity. lia.
Qed.

Lemma play_all_run (paths : list string) :
  forall t : PiperTTS,
    _playback_thread t = Some AtGet -> _interrupted t = false ->
    process_running t = false -> _audio_queue t = paths ->
    exists t',
      run (play_all (List.length (processes t)) (List.length paths)) t = Some t'
      /\ _audio_queue t' = []
      /\ process_running t' = false
      /\ observed t' = observed t ++ played paths.
Proof.
  induction paths as [|path rest IH]; intros t Hth Hi Hp Hq.
  - exists t. cbn. rewrite List.app_nil_r. repeat split; assumption.
  - destruct (play_one_run t path rest Hth Hi Hq)
      as [t1 [Hrun [Hth1 [Hi1 [Hq1 [Hlen [Hp1 Hobs1]]]]]]].
    destruct (IH t1 Hth1 Hi1 Hp1 Hq1) as [t' [Hrun' [Hq' [Hp' Hobs']]]].
    exists t'. unfold play_all in *. cbn [List.length List.seq List.map List.concat].
    rewrite run_app, Hrun. rewrite <- Hlen. rewrite Hrun'.
    split; [reflexivity|]. split; [exact Hq'|]. split; [exact Hp'|].
    rewrite Hobs', Hobs1. unfold played. cbn [List.map List.concat].
    rewrite <- !List.app_assoc. reflexivity.
Qed.

Lemma speak_all_run (items : list (string * string)) :
  forall t : PiperTTS,
    Forall (fun item => String.eqb (PyStr.strip (fst item)) EmptyString = false) items ->
    exists t',
      run (speak_all items) t = Some t'
      /\ _audio_queue t' = (_audio_queue t ++ List.map snd items)%list
      /\ processes t' = processes t
      /\ _playback_process t' = _playback_process t
      /\ observed t'
         = (observed t ++ List.map (fun item => SpeakReturned (Some (snd item))) items)%list
      /\ (items <> [] -> _interrupted t' = false)
      /\ (items <> [] ->
          _playback_thread t = None \/ _playback_thread t = Some AtGet ->
          _playback_thread t' = Some AtGet).
Proof.
  induction items as [|[text audio_path] items IH]; intros t Hall.
  - exists t. cbn. rewrite !List.app_nil_r. repeat split; try reflexivity; congruence.
  - inversion Hall as [|x l Hb Hrest]; subst. cbn [fst] in Hb.
    set (t1 := speak_nonblocking text (Some audio_path) t).
    destruct (IH t1 Hrest) as [t' [Hrun [Hq [Hps [Hh [Hobs [Hi Hth]]]]]]].
    exists t'. cbn [speak_all List.map run step fst snd]. fold (speak_all items).
    fold t1. rewrite Hrun.
    assert (E : t1 = {| _audio_queue := _audio_queue t ++ [audio_path];
                        _playback_thread :=
                          match _playback_thread t with
                          | None => Some AtGet
                          | Some pc => Some pc
                          end;
                        _playback_process := _playback_process t;
                        _interrupted := false;
                        processes := processes t;
                        observed := observed t ++ [SpeakReturned (Some audio_path)] |}).
    { subst t1. unfold speak_nonblocking. rewrite Hb. reflexivity. }
    split; [reflexivity|].
    rewrite Hq, Hps, Hh, Hobs. rewrite E.
    cbn [_audio_queue processes _playback_process observed].
    rewrite <- !List.app_assoc.
    split; [reflexivity|]. split; [reflexivity|]. split; [reflexivity|].
    split; [reflexivity|]. split.
    + intros _. destruct items as [|item items'].
      * cbn in Hrun. injection Hrun as <-. rewrite E. reflexivity.
      * apply Hi. discriminate.
    + intros _ Hidle. destruct items as [|item items'].
      * cbn in Hrun. injection Hrun as <-. rewrite E. cbn [_playback_thread].
        destruct Hidle as [->| ->]; reflexivity.
      * apply Hth; [discriminate|]. rewrite E. cbn [_playback_thread].
        right. destruct Hidle as [->| ->]; reflexivity.
Qed.

(** X26.  The files of non-blocking calls of [speak] on a new controller are
    played in the order of the calls, one at a time, each removed after
    it has been played; nothing is speaking at the end. *)
Theorem files_play_in_queue_order (items : list (string * string)) :
  Forall (fun item => String.eqb (PyStr.strip (fst item)) EmptyString = false) items ->
  exists t,
    run (speak_all items ++ play_all 0 (List.length items)) init = Some t
    /\ observed t
       = (List.map (fun item => SpeakReturned (Some (snd item))) items
          ++ played (List.map snd items))%list
    /\ _audio_queue t = []
    /\ is_speaking t = false.
Proof.
  intros Hall.
  destruct (speak_all_run items init Hall) as [t1 [Hrun [Hq [Hps [Hh [Hobs [Hi Hth]]]]]]].
  cbn [init _audio_queue processes _playback_process observed _playback_thread app] in *.
  destruct items as [|item items].
  - cbn in Hrun. injection Hrun as <-. exists init. cbn. repeat split; reflexivity.
  - assert (Hne : item :: items <> []) by discriminate.
    assert (Hp1 : process_running t1 = false)
      by (unfold process_running; rewrite Hh; reflexivity).
    destruct (play_all_run (List.map snd (item :: items)) t1
                (Hth Hne (or_introl eq_refl)) (Hi Hne) Hp1 Hq)
      as [t [Hrun' [Hq' [Hp' Hobs']]]].
    rewrite Hps, List.length_map in Hrun'. cbn [List.length] in Hrun'.
    exists t. rewrite run_app, Hrun. split; [exact Hrun'|].
    split; [rewrite Hobs', Hobs; reflexivity|]. split; [exact Hq'|].
    unfold is_speaking. rewrite Hp', Hq'. reflexivity.
Qed.

Lemma files_play_in_queue_order_witness :
  exists t,
    run (speak_all [("one", "1.wav"); ("two", "2.wav")] ++ play_all 0 2) init = Some t
    /\ observed t
       = [SpeakReturned (Some "1.wav"); SpeakReturned (Some "2.wav");
          PlaybackStarted "1.wav"; FileRemoved "1.wav";
          PlaybackStarted "2.wav"; FileRemoved "2.wav"]
    /\ _audio_queue t = []
    /\ is_speaking t = false.
Proof.
  apply (files_play_in_queue_order [("one", "1.wav"); ("two", "2.wav")]).
  repeat constructor.
Defined.

End PiperMore.

(** ** Interrupting speech *)

Module KiraMore.
Import Kira.

Lemma timer_step_extends (i : nat) (m : Echo.EchoCancellationManager) :
  exists ext,
    Echo.notified (default m (Echo.timer_step i m)) = (Echo.notified m ++ ext)%list.
Proof.
  unfold Echo.timer_step.
  destruct (Echo.threads m !! i) as [[]|];
    repeat match goal with
           | |- context [if ?b then _ else _] => destruct b
           end;
    cbn [from_option id Echo.notified Echo.set_pc Echo.set_state Echo._notify_state_change];
    try (exists []; rewrite List.app_nil_r; reflexivity);
    destruct (Echo.on_state_change m);
    first [exists []; rewrite List.app_nil_r; reflexivity
          |eexists; reflexivity].
Qed.

Lemma run_timers_extends (sched : list nat) :
  forall m : Echo.EchoCancellationManager,
    exists ext, Echo.notified (Echo.run_timers sched m) = (Echo.notified m ++ ext)%list.
Proof.
  induction sched as [|i sched IH]; intros m.
  - exists []. rewrite List.app_nil_r. reflexivity.
  - cbn [Echo.run_timers].
    destruct (IH (default m (Echo.timer_step i m))) as [ext2 H2].
    destruct (timer_step_extends i m) as [ext1 H1].
    exists (ext1 ++ ext2)%list. rewrite H2, H1, List.app_assoc. reflexivity.
Qed.

Lemma run_timers_keeps_callback (sched : list nat) :
  forall m : Echo.EchoCancellationManager,
    Echo.on_state_change (Echo.run_timers sched m) = Echo.on_state_change m.
Proof.
  induction sched as [|i sched IH]; intros m; [reflexivity|].
  cbn [Echo.run_timers]. rewrite IH. unfold Echo.timer_step.
  destruct (Echo.threads m !! i) as [[]|];
    repeat match goal with
           | |- context [if ?b then _ else _] => destruct b
           end; reflexivity.
Qed.

Lemma stop_speaking_notifies (during_join : list nat) (m : Echo.EchoCancellationManager) :
  Echo.on_state_change m = true ->
  exists during,
    Echo.notified (Echo.stop_speaking during_join m)
    = (Echo.notified m ++ during ++ [Echo.LISTENING])%list.
Proof.
  intros Hcb. unfold Echo.stop_speaking. cbn [Echo._interrupt_thread].
  destruct (Echo._interrupt_thread m) as [i|].
  - match goal with
    | |- context [Echo.run_timers during_join ?m1] =>
        destruct (run_timers_extends during_join m1) as [ext H];
        pose proof (run_timers_keeps_callback during_join m1) as Hk
    end.
    cbn [Echo.notified Echo.on_state_change] in H, Hk.
    exists ext.
    cbn [Echo.notified Echo.on_state_change Echo.set_state Echo._notify_state_change].
    rewrite Hk, !H, Hcb, <- List.app_assoc. reflexivity.
  - exists [].
    cbn [Echo.notified Echo.on_state_change Echo.set_state Echo._notify_state_change].
    rewrite Hcb. reflexivity.
Qed.

(** X27.  [interrupt_speech] on a front-end whose playback controller, echo
    manager and transcriber exist, the manager with its callback: the
    playback is interrupted and nothing is speaking, the manager is
    LISTENING with the microphone open, the transcriber is unmuted with
    an idle detector, and the event queue receives the audio states the
    timer thread notified during the join, then LISTENING, then
    [speech_interrupted]. *)
Theorem interrupt_speech_restores_listening (during_join : list nat) (k : KiraPerception)
    (tts : Piper.PiperTTS) (m : Echo.EchoCancellationManager)
    (tr : Whisper.FastWhisperTranscriber) :
  _tts k = Some tts -> _echo_manager k = Some m -> _interruptable_transcriber k = Some tr ->
  Echo.on_state_change m = true ->
  exists tts' m' tr' during,
    _tts (interrupt_speech during_join k) = Some tts'
    /\ Piper._interrupted tts' = true
    /\ Piper.is_speaking tts' = false
    /\ _echo_manager (interrupt_speech during_join k) = Some m'
    /\ Echo.state m' = Echo.LISTENING
    /\ Echo.is_mic_active m' = true
    /\ _interruptable_transcriber (interrupt_speech during_join k) = Some tr'
    /\ Whisper._muted tr' = false
    /\ VadRuns.idle (Whisper.vad tr')
    /\ _event_queue (interrupt_speech during_join k)
       = (_event_queue k ++ List.map AudioStateEvent during
          ++ [AudioStateEvent Echo.LISTENING; SpeechInterrupted])%list.
Proof.
  intros Ht Hm Htr Hcb.
  destruct (stop_speaking_notifies during_join m Hcb) as [during Hn].
  exists (Piper.interrupt tts), (Echo.stop_speaking during_join m), (Whisper.unmute tr), during.
  unfold interrupt_speech. rewrite Ht, Hm, Htr.
  cbn [_tts _echo_manager _interruptable_transcriber _event_queue option_map].
  split; [reflexivity|]. split; [reflexivity|].
  split; [exact (proj2 (PiperFacts.interrupt_silences tts))|].
  split; [reflexivity|]. split; [reflexivity|]. split; [reflexivity|].
  split; [reflexivity|]. split; [reflexivity|].
  split; [split; reflexivity|].
  rewrite Hn. rewrite List.skipn_app, List.skipn_all, Nat.sub_diag. cbn [List.skipn app].
  change (List.skipn 0 (during ++ [Echo.LISTENING])%list) with (during ++ [Echo.LISTENING])%list.
  rewrite List.map_app. cbn [List.map]. rewrite <- !List.app_assoc. reflexivity.
Qed.

Lemma interrupt_speech_restores_listening_witness :
  exists tts' m' tr' during,
    _tts (interrupt_speech [0; 0; 0; 0]%nat MoreScenarios.speaking_front_end) = Some tts'
    /\ Piper._interrupted tts' = true
    /\ Piper.is_speaking tts' = false
    /\ _echo_manager (interrupt_speech [0; 0; 0; 0]%nat MoreScenarios.speaking_front_end)
       = Some m'
    /\ Echo.state m' = Echo.LISTENING
    /\ Echo.is_mic_active m' = true
    /\ _interruptable_transcriber
         (interrupt_speech [0; 0; 0; 0]%nat MoreScenarios.speaking_front_end) = Some tr'
    /\ Whisper._muted tr' = false
    /\ VadRuns.idle (Whisper.vad tr')
    /\ _event_queue (interrupt_speech [0; 0; 0; 0]%nat MoreScenarios.speaking_front_end)
       = (_event_queue MoreScenarios.speaking_front_end ++ List.map AudioStateEvent during
          ++ [AudioStateEvent Echo.LISTENING; SpeechInterrupted])%list.
Proof.
  apply (interrupt_speech_restores_listening [0; 0; 0; 0]%nat
           MoreScenarios.speaking_front_end PiperRuns.before_play_check
           (Echo.run_timers [0; 0; 0]%nat (Echo.start_speaking (Echo.init true)))
           Scenarios.muted_listener eq_refl eq_refl eq_refl eq_refl).
Defined.

End KiraMore.

